(** * Route resolution of expo-router: [getRoutes]

    A shallow embedding of
    [packages/expo-router/src/global-state/getRoutes.ts] and the
    properties of its route tree.

    Conventions of the embedding.
    - JavaScript strings are [string]s of ASCII characters.
    - A thrown [Error] is the [Throw] case of [Result]; the payload keeps
      the values the message is built from.
    - [RouteNode] objects live in a store ([Heap]); a directory holds
      references into it, because the hoister mutates layout nodes in place
      and one file's node may sit in several directories.  The clones the
      hoister makes of views are never mutated again and are kept by value.
    - [Map] and [Set] iterate in insertion order: association lists and
      duplicate-free lists.
    - Sparse arrays indexed by specificity are lists of optional entries;
      a hole is [None].
    - [Platform.OS] and [process.env.NODE_ENV] are read from an explicit
      [Env]. *)

From Stdlib Require Import String Ascii List Bool ZArith Lia PeanoNat Permutation.
Import ListNotations.
Open Scope string_scope.
Open Scope list_scope.

Set Warnings "-register-all".

(** ** Results and errors *)

Inductive Error : Type :=
| LayoutConflict (filePath existing dirname : string)
| RouteConflict (filePath existing dirname : string)
| MultipleFilesMatch (filepathWithoutExtensions : string)
| InvalidGroupRoute (key : string)
| DeprecatedLayoutRoute (key filepathWithoutExtensions : string)
| InvalidPlatformExtension
| DuplicateGroupName (groups : list string) (key : string)
| NoFallbackPlatformRoute (contextKey : string)
| TypeError
| RangeError.

Inductive Result (A : Type) : Type :=
| OK (a : A)
| Throw (e : Error).

Arguments OK {A} a.
Arguments Throw {A} e.

Definition bind {A B} (r : Result A) (k : A -> Result B) : Result B :=
  match r with
  | OK a => k a
  | Throw e => Throw e
  end.

Notation "'let*' x ':=' r 'in' k" := (bind r (fun x => k))
  (at level 10, x pattern, r at level 100, k at level 200).

(** ** Strings, the JavaScript way *)

Module JS.

(** [s] minus the prefix [p], when [s] starts with [p]. *)
Fixpoint dropPrefix (p s : string) : option string :=
  match p, s with
  | EmptyString, _ => Some s
  | String a p', String b s' => if Ascii.eqb a b then dropPrefix p' s' else None
  | String _ _, EmptyString => None
  end.

Definition startsWith (s p : string) : bool :=
  match dropPrefix p s with Some _ => true | None => false end.

(** [s] minus the suffix [x], when [s] ends with [x]. *)
Fixpoint dropSuffix (x s : string) : option string :=
  if String.eqb s x then Some EmptyString
  else match s with
       | EmptyString => None
       | String c s' =>
           match dropSuffix x s' with
           | Some r => Some (String c r)
           | None => None
           end
       end.

Definition endsWith (s x : string) : bool :=
  match dropSuffix x s with Some _ => true | None => false end.

(** The text before and after the first occurrence of [pat] in [s]. *)
Fixpoint cut (pat s : string) : option (string * string) :=
  match dropPrefix pat s with
  | Some rest => Some (EmptyString, rest)
  | None =>
      match s with
      | EmptyString => None
      | String c s' =>
          match cut pat s' with
          | Some (before, rest) => Some (String c before, rest)
          | None => None
          end
      end
  end.

(** The replacement text of [String.prototype.replace] for a string
    pattern: [$$], [$&], [$`] and [$'] are patterns; with no capture
    groups every other [$] stands for itself. *)
Fixpoint getSubstitution (matched before rest replacement : string) : string :=
  match replacement with
  | EmptyString => EmptyString
  | String "$" (String "$" r) =>
      String "$" (getSubstitution matched before rest r)
  | String "$" (String "&" r) =>
      matched ++ getSubstitution matched before rest r
  | String "$" (String "`" r) =>
      before ++ getSubstitution matched before rest r
  | String "$" (String "'" r) =>
      rest ++ getSubstitution matched before rest r
  | String c r => String c (getSubstitution matched before rest r)
  end.

(** [s.replace(pat, replacement)] for a string [pat]: the first
    occurrence only. *)
Definition replace (s pat replacement : string) : string :=
  match cut pat s with
  | Some (before, rest) =>
      before ++ getSubstitution pat before rest replacement ++ rest
  | None => s
  end.

(** [s.split(sep)] for a separator of one character. *)
Fixpoint split (s : string) (sep : ascii) : list string :=
  match s with
  | EmptyString => [EmptyString]
  | String c s' =>
      if Ascii.eqb c sep then EmptyString :: split s' sep
      else match split s' sep with
           | x :: xs => String c x :: xs
           | [] => [String c EmptyString]
           end
  end.

Fixpoint join (l : list string) (sep : string) : string :=
  match l with
  | [] => EmptyString
  | [x] => x
  | x :: xs => x ++ sep ++ join xs sep
  end.

(** [l.slice(0, -1)] *)
Fixpoint sliceInit {A} (l : list A) : list A :=
  match l with
  | [] => []
  | [_] => []
  | x :: xs => x :: sliceInit xs
  end.

(** [.filter(Boolean)] on strings: the empty string is falsy. *)
Definition filterBoolean (l : list string) : list string :=
  filter (fun s => negb (String.eqb s EmptyString)) l.

Definition isWhiteSpace (c : ascii) : bool :=
  let n := nat_of_ascii c in
  Nat.eqb n 32 || (Nat.leb 9 n && Nat.leb n 13).

Fixpoint trimStart (s : string) : string :=
  match s with
  | EmptyString => EmptyString
  | String c s' => if isWhiteSpace c then trimStart s' else s
  end.

Fixpoint trimEnd (s : string) : string :=
  match s with
  | EmptyString => EmptyString
  | String c s' =>
      match trimEnd s' with
      | EmptyString => if isWhiteSpace c then EmptyString else String c EmptyString
      | t => String c t
      end
  end.

(** [s.trim()]; the white space of an ASCII string. *)
Definition trim (s : string) : string := trimEnd (trimStart s).

(** The [.] of a regular expression matches all but line terminators. *)
Definition isLineTerminator (c : ascii) : bool :=
  let n := nat_of_ascii c in Nat.eqb n 10 || Nat.eqb n 13.

Definition inList (l : list string) (s : string) : bool :=
  existsb (String.eqb s) l.

(** [Set.prototype.add]: insertion order, no duplicates. *)
Definition setAdd (keys : list string) (k : string) : list string :=
  if inList keys k then keys else keys ++ [k].

(** [new Set(l)], as the list of its members in insertion order. *)
Definition newSet (l : list string) : list string := fold_left setAdd l [].

(** *** [Map] with string keys, in insertion order *)

Fixpoint mapGet {V} (m : list (string * V)) (k : string) : option V :=
  match m with
  | [] => None
  | (k', v) :: m' => if String.eqb k k' then Some v else mapGet m' k
  end.

Fixpoint mapSet {V} (m : list (string * V)) (k : string) (v : V) : list (string * V) :=
  match m with
  | [] => [(k, v)]
  | (k', v') :: m' =>
      if String.eqb k k' then (k', v) :: m' else (k', v') :: mapSet m' k v
  end.

Definition mapHas {V} (m : list (string * V)) (k : string) : bool :=
  match mapGet m k with Some _ => true | None => false end.

Definition mapValues {V} (m : list (string * V)) : list V := map snd m.

(** *** Sparse arrays *)

(** [arr[i]], [None] for a hole or an index past the end. *)
Definition at_ {A} (arr : list (option A)) (i : nat) : option A :=
  match nth_error arr i with
  | Some (Some a) => Some a
  | _ => None
  end.

(** [arr[i] = v]: writing past the end leaves holes in between. *)
Fixpoint assign {A} (arr : list (option A)) (i : nat) (v : A) : list (option A) :=
  match i, arr with
  | O, [] => [Some v]
  | O, _ :: t => Some v :: t
  | S i', [] => None :: assign [] i' v
  | S i', x :: t => x :: assign t i' v
  end.

(** [arr[arr.length - 1]] *)
Definition lastElement {A} (arr : list (option A)) : option A :=
  at_ arr (length arr - 1).

End JS.

(** ** Data model *)

(** What a node's [loadRoute] does when the runtime calls it: require a file
    of the context module (swallowing a failure when [ignoreRequireErrors]
    is set), or one of the built-in views. *)
Inductive Loader : Type :=
| RequireFile (filePath : string) (ignoreRequireErrors : bool)
| DefaultNavigator
| Sitemap
| Unmatched.

Record DynamicConvention : Type := {
  name : string;
  deep : bool;
  notFound : option bool
}.

(** A reference to a [RouteNode] object of the store. *)
Definition Ref : Type := nat.

(** [children] holds layouts by reference and hoisted views by value.
    [generated] and [internal] are [false] where the object has no such
    property; [loadRoute] and [entryPoints] are [None] once deleted. *)
Inductive RouteNode : Type := mkRouteNode {
  loadRoute : option Loader;
  route : string;
  contextKey : string;
  dynamic : option (list DynamicConvention);
  children : list (Ref + RouteNode);
  entryPoints : option (list string);
  generated : bool;
  internal : bool
}.

Definition Child : Type := (Ref + RouteNode)%type.
Definition Layout (r : Ref) : Child := inl r.
Definition View (n : RouteNode) : Child := inr n.

Definition Heap : Type := list RouteNode.

Inductive DirectoryNode : Type := mkDirectoryNode {
  layout : option (list (option Ref));
  views : list (string * list (option Ref));
  subdirectories : list (string * DirectoryNode)
}.

Record Options : Type := {
  ignore : list (string -> bool);
  preserveApiRoutes : bool;
  ignoreRequireErrors : bool;
  ignoreEntryPoints : bool;
  unstable_platformExtensions : bool;
  unstable_stripLoadRoute : bool;
  unstable_alwaysIncludeSitemap : bool;
  unstable_improvedErrorMessages : bool
}.

(** [options = {}] *)
Definition defaultOptions : Options := {|
  ignore := [];
  preserveApiRoutes := false;
  ignoreRequireErrors := false;
  ignoreEntryPoints := false;
  unstable_platformExtensions := false;
  unstable_stripLoadRoute := false;
  unstable_alwaysIncludeSitemap := false;
  unstable_improvedErrorMessages := false
|}.

(** The ambient values the module reads: [Platform.OS] of react-native and
    [process.env.NODE_ENV]. *)
Record Env : Type := {
  Platform_OS : string;
  NODE_ENV : string
}.

Module FileMeta.
Record t : Type := {
  key : string;
  name : string;
  specificity : Z;
  parts : list string;
  dirname : string;
  filename : string;
  isLayout : bool;
  isApi : bool;
  filepathWithoutExtensions : string
}.
End FileMeta.

(** The functions imported from [../matchers], which is not among the
    sources: the embedding takes them as an interface. *)
Class Matchers : Type := {
  matchDeepDynamicRouteName : string -> option string;
  matchDynamicName : string -> option string;
  matchGroupName : string -> option string;
  removeSupportedExtensions : string -> string
}.

(** ** The store *)

Definition deref (h : Heap) (r : Ref) : Result RouteNode :=
  match nth_error h r with
  | Some n => OK n
  | None => Throw TypeError
  end.

Fixpoint store (h : Heap) (r : Ref) (n : RouteNode) : Heap :=
  match h, r with
  | [], _ => []
  | _ :: t, O => n :: t
  | x :: t, S r' => x :: store t r' n
  end.

(** A fresh object: its reference and the store holding it. *)
Definition alloc (h : Heap) (n : RouteNode) : Ref * Heap :=
  (length h, h ++ [n]).

(** Property updates of a [RouteNode] object. *)
Definition setRoute (n : RouteNode) (v : string) : RouteNode :=
  mkRouteNode n.(loadRoute) v n.(contextKey) n.(dynamic) n.(children)
    n.(entryPoints) n.(generated) n.(internal).

Definition setDynamic (n : RouteNode) (v : option (list DynamicConvention)) : RouteNode :=
  mkRouteNode n.(loadRoute) n.(route) n.(contextKey) v n.(children)
    n.(entryPoints) n.(generated) n.(internal).

Definition setEntryPoints (n : RouteNode) (v : option (list string)) : RouteNode :=
  mkRouteNode n.(loadRoute) n.(route) n.(contextKey) n.(dynamic) n.(children)
    v n.(generated) n.(internal).

Definition deleteLoadRoute (n : RouteNode) : RouteNode :=
  mkRouteNode None n.(route) n.(contextKey) n.(dynamic) n.(children)
    n.(entryPoints) n.(generated) n.(internal).

(** [n.children.push(c)] *)
Definition pushChild (n : RouteNode) (c : Child) : RouteNode :=
  mkRouteNode n.(loadRoute) n.(route) n.(contextKey) n.(dynamic)
    (n.(children) ++ [c]) n.(entryPoints) n.(generated) n.(internal).

Definition setLayout (d : DirectoryNode) (v : option (list (option Ref))) : DirectoryNode :=
  mkDirectoryNode v d.(views) d.(subdirectories).

Definition setViews (d : DirectoryNode) (v : list (string * list (option Ref))) : DirectoryNode :=
  mkDirectoryNode d.(layout) v d.(subdirectories).

Definition setSubdirectories (d : DirectoryNode) (v : list (string * DirectoryNode)) : DirectoryNode :=
  mkDirectoryNode d.(layout) d.(views) v.

(** [{ views: new Map(), subdirectories: new Map() }] *)
Definition emptyDirectory : DirectoryNode := mkDirectoryNode None [] [].

(** A loop over [l] whose body updates the state [s] and may throw. *)
Section ForEach.
Context {A S : Type} (body : A -> S -> Result S).

Fixpoint forEach (l : list A) (s : S) : Result S :=
  match l with
  | [] => OK s
  | x :: l' => let* s' := body x s in forEach l' s'
  end.
End ForEach.

(** A string in a condition: [undefined] and the empty string are falsy. *)
Definition truthy (o : option string) : option string :=
  match o with
  | Some EmptyString => None
  | _ => o
  end.

Definition validPlatforms : list string :=
  ["android"; "ios"; "windows"; "osx"; "native"; "web"].

Definition supportedExtensions : list string := [".tsx"; ".jsx"; ".ts"; ".js"].

(** [/\+api\.[jt]sx?$/] *)
Definition matchesApi (s : string) : bool :=
  existsb (fun ext => JS.endsWith s ("+api" ++ ext)) supportedExtensions.

(** [/^\.\/\+html\.[tj]sx?$/] *)
Definition matchesHtml (s : string) : bool :=
  existsb (fun ext => String.eqb s ("./+html" ++ ext)) supportedExtensions.

(** [s.replace(/^\.\//, '')] *)
Definition removeLeadingDotSlash (s : string) : string :=
  match JS.dropPrefix "./" s with Some r => r | None => s end.

(** [s.replace(/\/?_layout$/, '')] *)
Definition removeLayoutSuffix (s : string) : string :=
  match JS.dropSuffix "/_layout" s with
  | Some r => r
  | None => match JS.dropSuffix "_layout" s with Some r => r | None => s end
  end.

(** [s.replace(new RegExp(`.${platform}$`), '')]: the dot of the pattern is
    not escaped and stands for any character but a line terminator. *)
Fixpoint removePlatformSuffix (s platform : string) : string :=
  match s with
  | EmptyString => EmptyString
  | String c rest =>
      if String.eqb rest platform && negb (JS.isLineTerminator c) then EmptyString
      else String c (removePlatformSuffix rest platform)
  end.

Section GetRoutes.

Context {M : Matchers}.

(** ** [getFileMeta] *)

Definition getFileMeta (env : Env) (key : string) (options : Options) : Result FileMeta.t :=
  (* Remove the leading `./` *)
  let key := removeLeadingDotSlash key in
  let parts := JS.split key "/" in
  let dirname := JS.join (JS.sliceInit parts) "/" in
  let filename := last parts EmptyString in
  let filepathWithoutExtensions := removeSupportedExtensions key in
  let filenameWithoutExtensions := removeSupportedExtensions filename in
  let isLayout := JS.startsWith filename "_layout." in
  let isApi := matchesApi key in
  let name :=
    if isLayout then removeLayoutSuffix filepathWithoutExtensions
    else filepathWithoutExtensions in
  if JS.startsWith filenameWithoutExtensions "(" && JS.endsWith filenameWithoutExtensions ")"
  then
    if options.(unstable_improvedErrorMessages)
    then Throw (InvalidGroupRoute key)
    else Throw (DeprecatedLayoutRoute key filepathWithoutExtensions)
  else
    let filenameParts := JS.split filenameWithoutExtensions "." in
    let platform := last filenameParts EmptyString in
    let hasPlatform := JS.inList validPlatforms platform in
    let* (specificity, name) :=
      if options.(unstable_platformExtensions) && hasPlatform then
        let specificity :=
          if String.eqb platform env.(Platform_OS) then 2%Z
          else if String.eqb platform "native" && negb (String.eqb env.(Platform_OS) "web")
               then 1%Z
               else (-1)%Z in
        OK (specificity, removePlatformSuffix name platform)
      else if hasPlatform then
        if JS.inList validPlatforms platform
        then Throw InvalidPlatformExtension
        else OK (0%Z, name)
      else OK (0%Z, name) in
    OK {| FileMeta.key := key;
          FileMeta.name := name;
          FileMeta.specificity := specificity;
          FileMeta.parts := parts;
          FileMeta.dirname := dirname;
          FileMeta.filename := filename;
          FileMeta.isLayout := isLayout;
          FileMeta.isApi := isApi;
          FileMeta.filepathWithoutExtensions := filepathWithoutExtensions |}.

(** ** [getIgnoreList]

    A pattern is modelled by its [test] as a function of the string, which
    it is for a [RegExp] without the [g] or [y] flag (with one of them the
    answer of [test] also depends on the [lastIndex] an earlier call
    left). *)

Definition getIgnoreList (options : Options) : list (string -> bool) :=
  let ignore := matchesHtml :: options.(ignore) in
  if negb options.(preserveApiRoutes) then ignore ++ [matchesApi] else ignore.

(** ** [extrapolateGroups]

    The recursion follows the rewritten key, which need not get smaller:
    [fuel] bounds its depth, and running out of it is the overflow of the
    call stack. *)
Fixpoint extrapolateGroups (fuel : nat) (key : string) (keys : list string)
  : Result (list string) :=
  match fuel with
  | O => Throw RangeError
  | S fuel' =>
      match truthy (matchGroupName key) with
      | None => OK (JS.setAdd keys key)
      | Some match_ =>
          let groups := JS.split match_ "," in
          let groupsSet := JS.newSet groups in
          if negb (Nat.eqb (length groupsSet) (length groups))
          then Throw (DuplicateGroupName groups key)
          else if Nat.eqb (length groups) 1
          then OK (JS.setAdd keys key)
          else
            forEach
              (fun group keys =>
                 extrapolateGroups fuel' (JS.replace key match_ (JS.trim group)) keys)
              groups keys
      end
  end.

(** ** [generateDynamic] *)

Definition notFoundConvention : DynamicConvention :=
  {| name := "+not-found"; deep := true; notFound := Some true |}.

(** The callback of [.map] in [generateDynamic]. *)
Definition dynamicOfPart (part : string) : option DynamicConvention :=
  if String.eqb part "+not-found" then Some notFoundConvention
  else
    let deepDynamicName := matchDeepDynamicRouteName part in
    let dynamicName :=
      match deepDynamicName with
      | Some n => Some n
      | None => matchDynamicName part
      end in
    match truthy dynamicName with
    | None => None
    | Some dynamicName =>
        Some {| name := dynamicName;
                deep := match truthy deepDynamicName with Some _ => true | None => false end;
                notFound := None |}
    end.

Fixpoint filterSome {A} (l : list (option A)) : list A :=
  match l with
  | [] => []
  | Some a :: l' => a :: filterSome l'
  | None :: l' => filterSome l'
  end.

Definition generateDynamic (path : string) : option (list DynamicConvention) :=
  let dynamic := filterSome (map dynamicOfPart (JS.split path "/")) in
  if Nat.eqb (length dynamic) 0 then None else Some dynamic.

(** ** [getMostSpecific]

    The result is [None] where the JavaScript function returns
    [undefined]. *)
Definition getMostSpecific (routes : list (option Ref)) (h : Heap) : Result (option Ref) :=
  let route := JS.lastElement routes in
  match JS.at_ routes 0 with
  | None =>
      match route with
      | None => Throw TypeError
      | Some r =>
          let* n := deref h r in
          Throw (NoFallbackPlatformRoute n.(contextKey))
      end
  | Some _ => OK route
  end.

(** ** [getDirectoryTree] *)

(** What [getDirectoryTree] returns, with the store its nodes live in. *)
Record DirectoryTree : Type := {
  directoryTree : DirectoryNode;
  hasRoutes : bool;
  hasLayout : bool;
  heap : Heap
}.

(** The directory of one expanded key:
    [key.replace(meta.filename, '').split('/').filter(Boolean)]. *)
Definition subdirectoryParts (meta : FileMeta.t) (key : string) : list string :=
  JS.filterBoolean (JS.split (JS.replace key meta.(FileMeta.filename) "") "/").

(** The directory [path] below [node], after [f] has run on it.  A
    [DirectoryNode] is reached by one path only, so the path stands for the
    reference the source keeps in [leaves]; a directory that is missing on
    the way is created. *)
Fixpoint atLeaf (node : DirectoryNode) (path : list string)
    (f : DirectoryNode -> Result DirectoryNode) : Result DirectoryNode :=
  match path with
  | [] => f node
  | part :: rest =>
      let child :=
        match JS.mapGet node.(subdirectories) part with
        | Some child => child
        | None => emptyDirectory
        end in
      let* child' := atLeaf child rest f in
      OK (setSubdirectories node (JS.mapSet node.(subdirectories) part child'))
  end.

(** The walk that creates the directories of [path] (source lines 74-88). *)
Fixpoint walk (node : DirectoryNode) (path : list string) : DirectoryNode :=
  match path with
  | [] => node
  | part :: rest =>
      let child :=
        match JS.mapGet node.(subdirectories) part with
        | Some child => child
        | None => emptyDirectory
        end in
      setSubdirectories node (JS.mapSet node.(subdirectories) part (walk child rest))
  end.

(** The node of one file (source lines 91-108). *)
Definition fileNode (options : Options) (filePath : string) (meta : FileMeta.t) : RouteNode :=
  {| loadRoute := Some (RequireFile filePath options.(ignoreRequireErrors));
     contextKey := filePath;
     route := meta.(FileMeta.name);
     dynamic := None;
     children := [];
     entryPoints := Some [filePath];
     generated := false;
     internal := false |}.

(** One turn of the loop over the leaves of a layout file
    (source lines 113-123). *)
Definition placeLayout (h : Heap) (filePath : string) (meta : FileMeta.t) (node : Ref)
    (leaf : DirectoryNode) : Result DirectoryNode :=
  let layout_ := match leaf.(layout) with Some l => l | None => [] end in
  let specificity := Z.to_nat meta.(FileMeta.specificity) in
  match JS.at_ layout_ specificity with
  | Some existing =>
      let* existing := deref h existing in
      Throw (LayoutConflict filePath existing.(contextKey) meta.(FileMeta.dirname))
  | None => OK (setLayout leaf (Some (JS.assign layout_ specificity node)))
  end.

(** One turn of the loop over the leaves of a view file
    (source lines 130-155). *)
Definition placeView (env : Env) (options : Options) (h : Heap) (filePath : string)
    (meta : FileMeta.t) (node : Ref) (leaf : DirectoryNode) : Result DirectoryNode :=
  let nodes :=
    match JS.mapGet leaf.(views) meta.(FileMeta.name) with
    | Some nodes => nodes
    | None => []
    end in
  let specificity := Z.to_nat meta.(FileMeta.specificity) in
  let existing := JS.at_ nodes specificity in
  let placed :=
    setViews leaf (JS.mapSet leaf.(views) meta.(FileMeta.name) (JS.assign nodes specificity node)) in
  if String.eqb env.(NODE_ENV) "production" then OK placed
  else
    match existing with
    | Some existing =>
        if options.(unstable_improvedErrorMessages) then
          let* existing := deref h existing in
          Throw (RouteConflict filePath existing.(contextKey) meta.(FileMeta.dirname))
        else Throw (MultipleFilesMatch meta.(FileMeta.filepathWithoutExtensions))
    | None => OK placed
    end.

(** The body of the loop over [contextModule.keys()]. *)
Definition processFile (env : Env) (options : Options) (fuel : nat)
    (ignoreList : list (string -> bool)) (filePath : string) (st : DirectoryTree)
  : Result DirectoryTree :=
  if existsb (fun regex => regex filePath) ignoreList then OK st
  else
    let* meta := getFileMeta env filePath options in
    (* This is a file that should be ignored *)
    if (meta.(FileMeta.specificity) <? 0)%Z then OK st
    else
      let* keys := extrapolateGroups fuel meta.(FileMeta.key) [] in
      let leaves := map (subdirectoryParts meta) keys in
      let directory := fold_left walk leaves st.(directoryTree) in
      let (node, h) := alloc st.(heap) (fileNode options filePath meta) in
      if meta.(FileMeta.isLayout) then
        let* directory :=
          forEach (fun leaf d => atLeaf d leaf (placeLayout h filePath meta node))
            leaves directory in
        OK {| directoryTree := directory;
              hasRoutes := st.(hasRoutes);
              hasLayout := st.(hasLayout) || Nat.ltb 0 (length leaves);
              heap := h |}
      else if meta.(FileMeta.isApi) then
        OK {| directoryTree := directory;
              hasRoutes := st.(hasRoutes);
              hasLayout := st.(hasLayout);
              heap := h |}
      else
        let* directory :=
          forEach (fun leaf d => atLeaf d leaf (placeView env options h filePath meta node))
            leaves directory in
        OK {| directoryTree := directory;
              hasRoutes := st.(hasRoutes) || Nat.ltb 0 (length leaves);
              hasLayout := st.(hasLayout);
              heap := h |}.

(** The generated root layout (source lines 162-174). *)
Definition defaultLayout : RouteNode :=
  {| loadRoute := Some DefaultNavigator;
     contextKey := "./_layout.tsx";
     entryPoints := Some ["expo-router/build/views/Navigator.js"];
     route := "";
     generated := true;
     internal := false;
     dynamic := None;
     children := [] |}.

(** A [RequireContext] is called only from [loadRoute]; the resolution
    itself reads its [keys()]. *)
Definition RequireContext : Type := list string.

Definition getDirectoryTree (env : Env) (fuel : nat) (contextModule : RequireContext)
    (options : Options) : Result DirectoryTree :=
  let ignoreList := getIgnoreList options in
  let* st :=
    forEach (processFile env options fuel ignoreList) contextModule
      {| directoryTree := emptyDirectory; hasRoutes := false; hasLayout := false; heap := [] |} in
  match st.(directoryTree).(layout) with
  | Some _ => OK st
  | None =>
      let (node, h) := alloc st.(heap) defaultLayout in
      OK {| directoryTree := setLayout st.(directoryTree) (Some [Some node]);
            hasRoutes := st.(hasRoutes);
            hasLayout := st.(hasLayout);
            heap := h |}
  end.

(** ** [appendSitemapRoute] and [appendNotFoundRoute] *)

Definition sitemapRoute : RouteNode :=
  {| loadRoute := Some Sitemap;
     route := "_sitemap";
     contextKey := "./_sitemap.tsx";
     generated := true;
     internal := true;
     dynamic := None;
     children := [];
     entryPoints := Some ["expo-router/build/views/Sitemap.js"] |}.

Definition appendSitemapRoute (directory : DirectoryNode) (h : Heap) : DirectoryNode * Heap :=
  if JS.mapHas directory.(views) "_sitemap" then (directory, h)
  else
    let (node, h) := alloc h sitemapRoute in
    (setViews directory (JS.mapSet directory.(views) "_sitemap" [Some node]), h).

Definition notFoundRoute : RouteNode :=
  {| loadRoute := Some Unmatched;
     route := "+not-found";
     contextKey := "./+not-found.tsx";
     generated := true;
     internal := true;
     dynamic := Some [notFoundConvention];
     children := [];
     entryPoints := Some ["expo-router/build/views/Unmatched.js"] |}.

Definition appendNotFoundRoute (directory : DirectoryNode) (h : Heap) : DirectoryNode * Heap :=
  if JS.mapHas directory.(views) "+not-found" then (directory, h)
  else
    let (node, h) := alloc h notFoundRoute in
    (setViews directory (JS.mapSet directory.(views) "+not-found" [Some node]), h).

(** ** [hoistRoutesToNearestLayout] *)

(** The block run when the directory has a layout (source lines 231-257):
    the layout that becomes [parent], with the new [entryPoints] and
    [pathToRemove]. *)
Definition hoistLayout (options : Options) (layout_ : list (option Ref))
    (parent : option Ref) (entryPoints_ : list string) (pathToRemove : string) (h : Heap)
  : Result (Ref * list string * string * Heap) :=
  let* layout := getMostSpecific layout_ h in
  match layout with
  | None =>
      (* [parent.route] on [undefined]; the push before it is lost with
         the rest of the run *)
      Throw TypeError
  | Some layout =>
      let* h :=
        match parent with
        | Some parent =>
            let* p := deref h parent in
            OK (store h parent (pushChild p (Layout layout)))
        | None => OK h
        end in
      let parent := layout in
      let* p := deref h parent in
      let newRoute := JS.replace p.(route) pathToRemove "" in
      let pathToRemove :=
        if String.eqb p.(route) "" then "" else (p.(route) ++ "/")%string in
      let p := setRoute p newRoute in
      let p := setDynamic p (generateDynamic p.(route)) in
      let (entryPoints_, p) :=
        match p.(entryPoints) with
        | Some own => (entryPoints_ ++ own, setEntryPoints p None)
        | None => (entryPoints_, p)
        end in
      let p := if options.(ignoreEntryPoints) then setEntryPoints p None else p in
      (* This is only used for testing for easier comparison *)
      let p := if options.(unstable_stripLoadRoute) then deleteLoadRoute p else p in
      OK (parent, entryPoints_, pathToRemove, store h parent p)
  end.

(** The child made of one view (source lines 264-280). *)
Definition hoistView (options : Options) (entryPoints_ : list string) (pathToRemove : string)
    (route_ : RouteNode) : RouteNode :=
  let name := JS.replace route_.(route) pathToRemove "" in
  let child :=
    {| loadRoute := route_.(loadRoute);
       contextKey := route_.(contextKey);
       children := route_.(children);
       generated := route_.(generated);
       internal := route_.(internal);
       route := name;
       dynamic := generateDynamic name;
       entryPoints :=
         Some (JS.newSet
                 (entryPoints_ ++ match route_.(entryPoints) with Some own => own | None => [] end)) |} in
  let child := if options.(ignoreEntryPoints) then setEntryPoints child None else child in
  (* This is only used for testing for easier comparison *)
  if options.(unstable_stripLoadRoute) then deleteLoadRoute child else child.

(** One turn of the loop over [directory.views.values()]. *)
Definition hoistViews (options : Options) (parent : Ref) (entryPoints_ : list string)
    (pathToRemove : string) (routes : list (option Ref)) (h : Heap) : Result Heap :=
  let* route_ := getMostSpecific routes h in
  match route_ with
  | None => Throw TypeError
  | Some route_ =>
      let* route_ := deref h route_ in
      let child := hoistView options entryPoints_ pathToRemove route_ in
      let* p := deref h parent in
      OK (store h parent (pushChild p (View child)))
  end.

Fixpoint hoistRoutesToNearestLayout (directory : DirectoryNode) (options : Options)
    (parent : option Ref) (entryPoints_ : list string) (pathToRemove : string) (h : Heap)
  : Result (option Ref * Heap) :=
  let* (parent, entryPoints_, pathToRemove, h) :=
    match directory.(layout) with
    | Some layout_ =>
        let* (layout, entryPoints_, pathToRemove, h) :=
          hoistLayout options layout_ parent entryPoints_ pathToRemove h in
        OK (Some layout, entryPoints_, pathToRemove, h)
    | None => OK (parent, entryPoints_, pathToRemove, h)
    end in
  match parent with
  | None =>
      (* This should never occur, but it makes the type system happy *)
      OK (None, h)
  | Some parent =>
      let* h :=
        forEach (hoistViews options parent entryPoints_ pathToRemove)
          (JS.mapValues directory.(views)) h in
      let* h :=
        forEach
          (fun child h =>
             let* (_, h) :=
               hoistRoutesToNearestLayout (snd child) options (Some parent)
                 entryPoints_ pathToRemove h in
             OK h)
          directory.(subdirectories) h in
      OK (Some parent, h)
  end.

(** ** [getRoutes]

    The root of the tree with the store it points into, or [None] for
    [null]. *)
Definition getRoutes (env : Env) (fuel : nat) (contextModule : RequireContext)
    (options : Options) : Result (option (Ref * Heap)) :=
  let* t := getDirectoryTree env fuel contextModule options in
  (* If there are no routes *)
  if negb t.(hasLayout) && negb t.(hasRoutes) then OK None
  else
    (* Only include the sitemap if there are routes. *)
    let (directory, h) :=
      if t.(hasRoutes) || options.(unstable_alwaysIncludeSitemap)
      then appendSitemapRoute t.(directoryTree) t.(heap)
      else (t.(directoryTree), t.(heap)) in
    let (directory, h) := appendNotFoundRoute directory h in
    let* (root, h) := hoistRoutesToNearestLayout directory options None [] "" h in
    OK (match root with Some root => Some (root, h) | None => None end).

End GetRoutes.

(** ** The matchers *)

Module SpecMatchers.

Definition noneOf (chars : list ascii) (s : string) : bool :=
  forallb (fun c => negb (existsb (Ascii.eqb c) chars)) (list_ascii_of_string s).

(** Modelled from the spec: [removeSupportedExtensions] of [../matchers] is
    missing; the spec names four recognised script extensions and an
    extension-stripped base name. *)
Definition removeSupportedExtensions (s : string) : string :=
  match filterSome (map (fun ext => JS.dropSuffix ext s) supportedExtensions) with
  | r :: _ => r
  | [] => s
  end.

(** Modelled from the spec: [matchDeepDynamicRouteName] of [../matchers] is
    missing; the spec gives the bracket syntax `[...name]` for a catch-all
    segment. *)
Definition matchDeepDynamicRouteName (part : string) : option string :=
  match JS.dropPrefix "[..." part with
  | Some r =>
      match JS.dropSuffix "]" r with
      | Some n => if String.eqb n "" || negb (noneOf ["/"%char] n) then None else Some n
      | None => None
      end
  | None => None
  end.

(** Modelled from the spec: [matchDynamicName] of [../matchers] is missing;
    the spec gives the bracket syntax `[name]` for a dynamic segment, the
    catch-all form being a different syntax. *)
Definition matchDynamicName (part : string) : option string :=
  match JS.dropPrefix "[" part with
  | Some r =>
      match JS.dropSuffix "]" r with
      | Some n =>
          if String.eqb n "" || JS.startsWith n "..."
             || negb (noneOf ["["%char; "]"%char; "/"%char] n)
          then None else Some n
      | None => None
      end
  | None => None
  end.

(** Modelled from the spec: [matchGroupName] of [../matchers] is missing; per
    the spec a route group is a path segment wrapped in parentheses, `(name)`
    or `(a,b,c)`, and the list is what stands inside them. *)
Definition matchGroupName (key : string) : option string :=
  let inner (segment : string) : option string :=
    match JS.dropPrefix "(" segment with
    | Some r => JS.dropSuffix ")" r
    | None => None
    end in
  match filterSome (map inner (JS.split key "/")) with
  | m :: _ => Some m
  | [] => None
  end.

End SpecMatchers.

#[export] Instance matchers : Matchers := {|
  matchDeepDynamicRouteName := SpecMatchers.matchDeepDynamicRouteName;
  matchDynamicName := SpecMatchers.matchDynamicName;
  matchGroupName := SpecMatchers.matchGroupName;
  removeSupportedExtensions := SpecMatchers.removeSupportedExtensions
|}.

(** ** Vocabulary of the properties *)

Definition ios : Env := {| Platform_OS := "ios"; NODE_ENV := "development" |}.
Definition iosProduction : Env := {| Platform_OS := "ios"; NODE_ENV := "production" |}.

Definition platformExtensions : Options := {|
  ignore := [];
  preserveApiRoutes := false;
  ignoreRequireErrors := false;
  ignoreEntryPoints := false;
  unstable_platformExtensions := true;
  unstable_stripLoadRoute := false;
  unstable_alwaysIncludeSitemap := false;
  unstable_improvedErrorMessages := false
|}.

Definition alwaysIncludeSitemap : Options := {|
  ignore := [];
  preserveApiRoutes := false;
  ignoreRequireErrors := false;
  ignoreEntryPoints := false;
  unstable_platformExtensions := false;
  unstable_stripLoadRoute := false;
  unstable_alwaysIncludeSitemap := true;
  unstable_improvedErrorMessages := false
|}.

(** [i] is the highest populated index of [arr], and holds [a]. *)
Definition highestPopulated {A} (arr : list (option A)) (i : nat) (a : A) : Prop :=
  JS.at_ arr i = Some a /\ forall j, i < j -> JS.at_ arr j = None.

(** An array grown by indexed writes ends in a populated entry: its length
    is one more than its highest populated index. *)
Definition endsPopulated {A} (arr : list (option A)) : Prop :=
  arr = [] \/ exists a, JS.lastElement arr = Some a.

(** The last dot-segment of the extension-stripped base name of a path. *)
Definition platformOf {M : Matchers} (key : string) : string :=
  let filename := last (JS.split (removeLeadingDotSlash key) "/") EmptyString in
  last (JS.split (removeSupportedExtensions filename) ".") EmptyString.

(** The extension-stripped base name is wrapped in parentheses. *)
Definition groupWrapped {M : Matchers} (key : string) : bool :=
  let filename := last (JS.split (removeLeadingDotSlash key) "/") EmptyString in
  JS.startsWith (removeSupportedExtensions filename) "("
  && JS.endsWith (removeSupportedExtensions filename) ")".

Definition specificityOf {M : Matchers} (env : Env) (key : string) (options : Options)
  : Result Z :=
  let* meta := getFileMeta env key options in OK meta.(FileMeta.specificity).

(** What the scan finds in one file: a layout, a view, or nothing (the file
    is ignored, is a platform variant to skip, or is an API route). *)
Inductive Found : Type := FoundLayout | FoundView | FoundNothing.

Definition found {M : Matchers} (env : Env) (options : Options) (filePath : string) : Found :=
  if existsb (fun regex => regex filePath) (getIgnoreList options) then FoundNothing
  else
    match getFileMeta env filePath options with
    | Throw _ => FoundNothing
    | OK meta =>
        if (meta.(FileMeta.specificity) <? 0)%Z then FoundNothing
        else if meta.(FileMeta.isLayout) then FoundLayout
        else if meta.(FileMeta.isApi) then FoundNothing
        else FoundView
    end.

Definition isFoundLayout (f : Found) : bool :=
  match f with FoundLayout => true | _ => false end.

Definition isFoundView (f : Found) : bool :=
  match f with FoundView => true | _ => false end.

(** The file is a layout with a placement in the root directory. *)
Definition rootLayoutFile {M : Matchers} (env : Env) (options : Options) (fuel : nat)
    (filePath : string) : bool :=
  isFoundLayout (found env options filePath)
  && match getFileMeta env filePath options with
     | OK meta =>
         match extrapolateGroups fuel meta.(FileMeta.key) [] with
         | OK keys =>
             existsb (fun key => Nat.eqb (length (subdirectoryParts meta key)) 0) keys
         | Throw _ => false
         end
     | Throw _ => false
     end.

(** A node made from a layout file of the enumeration, or the generated
    root layout. *)
Definition layoutNode {M : Matchers} (env : Env) (options : Options)
    (contextModule : RequireContext) (n : RouteNode) : Prop :=
  (n.(generated) = true /\ n.(contextKey) = "./_layout.tsx")
  \/ (n.(generated) = false /\ In n.(contextKey) contextModule
      /\ found env options n.(contextKey) = FoundLayout).

(** What the hoister leaves in place of every object of the store: its
    identity, an empty route, and the children it already had. *)
Definition keeps (n n' : RouteNode) : Prop :=
  n'.(contextKey) = n.(contextKey)
  /\ n'.(generated) = n.(generated)
  /\ (n.(route) = "" -> n'.(route) = "")
  /\ exists more, n'.(children) = n.(children) ++ more.

Definition grows (h h' : Heap) : Prop :=
  forall r n, nth_error h r = Some n -> exists n', nth_error h' r = Some n' /\ keeps n n'.

Definition hasChar (c : ascii) (s : string) : bool :=
  existsb (Ascii.eqb c) (list_ascii_of_string s).

(** Every candidate of a view name is a node of the store with that name
    as its route. *)
Definition viewsNamed (h : Heap) (views_ : list (string * list (option Ref))) : Prop :=
  forall k arr v, In (k, arr) views_ -> In (Some v) arr ->
    exists n, nth_error h v = Some n /\ n.(route) = k.

(** Every candidate of a layout slot is a layout node of the store. *)
Definition layoutsFrom {M : Matchers} (env : Env) (options : Options)
    (contextModule : RequireContext) (h : Heap) (layout_ : option (list (option Ref))) : Prop :=
  forall arr l, layout_ = Some arr -> In (Some l) arr ->
    exists n, nth_error h l = Some n /\ layoutNode env options contextModule n.

(** The root slots hold what they are meant to hold. *)
Definition rootSound {M : Matchers} (env : Env) (options : Options)
    (contextModule : RequireContext) (h : Heap) (d : DirectoryNode) : Prop :=
  viewsNamed h d.(views) /\ layoutsFrom env options contextModule h d.(layout).

(** The directory a path leads to. *)
Fixpoint directoryAt (node : DirectoryNode) (path : list string) : option DirectoryNode :=
  match path with
  | [] => Some node
  | part :: rest =>
      match JS.mapGet node.(subdirectories) part with
      | Some child => directoryAt child rest
      | None => None
      end
  end.

(** The candidate a directory holds in its layout slot of a rank, and in
    the slot of a rank of one of its view names. *)
Definition layoutSlot (leaf : DirectoryNode) (specificity : Z) : option Ref :=
  JS.at_ (match leaf.(layout) with Some l => l | None => [] end) (Z.to_nat specificity).

Definition viewSlot (leaf : DirectoryNode) (name_ : string) (specificity : Z) : option Ref :=
  JS.at_ (match JS.mapGet leaf.(views) name_ with Some nodes => nodes | None => [] end)
    (Z.to_nat specificity).

(** ** Vocabulary of the further properties *)

(** A run that ends in a value with [Good] or in an error among [Allowed]. *)
Definition safely {A} (Good : A -> Prop) (Allowed : Error -> Prop) (r : Result A) : Prop :=
  match r with
  | OK a => Good a
  | Throw e => Allowed e
  end.

(** The errors of the scan: every error but the missing fallback, which
    belongs to hoisting, and the [TypeError] of a read on [undefined]. *)
Definition scanError (e : Error) : Prop :=
  match e with
  | TypeError | NoFallbackPlatformRoute _ => False
  | _ => True
  end.

(** The one error of hoisting, and none at all when every candidate array
    is known to have its fallback ([strict]). *)
Definition hoistError (strict : bool) (e : Error) : Prop :=
  strict = false /\ exists contextKey_, e = NoFallbackPlatformRoute contextKey_.

(** A candidate array as the scan builds them: not empty, ending in a
    populated slot, of three ranks at most, holding references below [n];
    when [strict], its rank 0 is populated. *)
Definition okArray (strict : bool) (n : nat) (arr : list (option Ref)) : Prop :=
  arr <> []
  /\ endsPopulated arr
  /\ length arr <= 3
  /\ (forall r, In (Some r) arr -> r < n)
  /\ (strict = true -> JS.at_ arr 0 <> None).

(** Every candidate array of a directory tree is as the scan builds them. *)
Inductive wfDirectory (strict : bool) (n : nat) : DirectoryNode -> Prop :=
| wfDirectory_intro layout_ views_ subdirectories_ :
    (forall arr, layout_ = Some arr -> okArray strict n arr) ->
    (forall k arr, In (k, arr) views_ -> okArray strict n arr) ->
    (forall k d, In (k, d) subdirectories_ -> wfDirectory strict n d) ->
    wfDirectory strict n (mkDirectoryNode layout_ views_ subdirectories_).

(** No object of the store has children: the state of the store before
    hoisting. *)
Definition childless (h : Heap) : Prop := Forall (fun n => n.(children) = []) h.

(** What the scan keeps true of its state. *)
Definition scanned (strict : bool) (st : DirectoryTree) : Prop :=
  wfDirectory strict (length st.(heap)) st.(directoryTree) /\ childless st.(heap).

(** What hoisting leaves of a layout: no entry points of its own, a
    [dynamic] computed from its route, and no [loadRoute] when
    [unstable_stripLoadRoute] is set. *)
Definition hoistedLayout {M : Matchers} (options : Options) (n : RouteNode) : Prop :=
  n.(entryPoints) = None
  /\ n.(dynamic) = generateDynamic n.(route)
  /\ (options.(unstable_stripLoadRoute) = true -> n.(loadRoute) = None).

(** What hoisting makes of a view: a [dynamic] computed from its route,
    entry points without repetition, or none when [ignoreEntryPoints] is
    set, and no [loadRoute] when [unstable_stripLoadRoute] is set. *)
Definition hoistedView {M : Matchers} (options : Options) (v : RouteNode) : Prop :=
  v.(dynamic) = generateDynamic v.(route)
  /\ (if options.(ignoreEntryPoints) then v.(entryPoints) = None
      else exists l, v.(entryPoints) = Some l /\ NoDup l)
  /\ (options.(unstable_stripLoadRoute) = true -> v.(loadRoute) = None).

(** Every child in the store is a hoisted view or a reference to a hoisted
    layout; the layout [exempt], if any, is only known to be in the store. *)
Definition tidy {M : Matchers} (options : Options) (exempt : option Ref) (h : Heap) : Prop :=
  forall r n c, nth_error h r = Some n -> In c n.(children) ->
    match c with
    | inl l => exists m, nth_error h l = Some m /\ (exempt = Some l \/ hoistedLayout options m)
    | inr v => hoistedView options v
    end.

(** Objects stay in the store, and hoisted layouts stay hoisted. *)
Definition settles {M : Matchers} (options : Options) (h h' : Heap) : Prop :=
  forall r n, nth_error h r = Some n ->
    exists n', nth_error h' r = Some n' /\ (hoistedLayout options n -> hoistedLayout options n').

(** The errors the scan can raise, each with what it tells about the mode
    and the options. *)
Definition scanErrorOf (env : Env) (options : Options) (e : Error) : Prop :=
  match e with
  | MultipleFilesMatch _ =>
      env.(NODE_ENV) <> "production" /\ options.(unstable_improvedErrorMessages) = false
  | RouteConflict _ _ _ =>
      env.(NODE_ENV) <> "production" /\ options.(unstable_improvedErrorMessages) = true
  | InvalidGroupRoute _ => options.(unstable_improvedErrorMessages) = true
  | DeprecatedLayoutRoute _ _ => options.(unstable_improvedErrorMessages) = false
  | InvalidPlatformExtension => options.(unstable_platformExtensions) = false
  | LayoutConflict _ _ _ | DuplicateGroupName _ _ | RangeError => True
  | TypeError | NoFallbackPlatformRoute _ => False
  end.

(** The file is passed over by the scan: the ignore list matches it, or it
    is the variant of another platform. *)
Definition skippedFile {M : Matchers} (env : Env) (options : Options) (filePath : string)
  : bool :=
  existsb (fun regex => regex filePath) (getIgnoreList options)
  || match getFileMeta env filePath options with
     | OK meta => (meta.(FileMeta.specificity) <? 0)%Z
     | Throw _ => false
     end.

(** [dynamic] as a sequence, empty for [null]. *)
Definition conventions (dynamic_ : option (list DynamicConvention)) : list DynamicConvention :=
  match dynamic_ with
  | Some l => l
  | None => []
  end.

(** The node the scan makes of a file, or the generated root layout. *)
Definition scannedNode {M : Matchers} (env : Env) (options : Options)
    (contextModule : RequireContext) (n : RouteNode) : Prop :=
  n = defaultLayout
  \/ exists filePath meta,
       In filePath contextModule
       /\ getFileMeta env filePath options = OK meta
       /\ n = fileNode options filePath meta.

(** ** [resolvePackageManager.ts] of [create-expo] *)

Module PackageManager.

(** What the module reads of the machine it runs on:
    [resolveCurrentPackageManager()] of [@expo/package-manager], and
    whether [execSync] of a command line returns rather than throws. *)
Record Host : Type := {
  resolveCurrentPackageManager : option string;
  execSync : string -> bool
}.

Definition isPackageManagerAvailable (host : Host) (manager : string) : bool :=
  host.(execSync) (manager ++ " --version").

(** Determine which package manager to use for installing dependencies
    based on how the process was started. *)
Definition resolvePackageManager (host : Host) : string :=
  match truthy host.(resolveCurrentPackageManager) with
  | Some currentManager => currentManager
  | None =>
      (* Try availability *)
      if isPackageManagerAvailable host "yarn" then "yarn"
      else if isPackageManagerAvailable host "pnpm" then "pnpm"
      else if isPackageManagerAvailable host "bun" then "bun"
      else "npm"
  end.

Definition formatRunCommand (packageManager cmd : string) : string :=
  if String.eqb packageManager "pnpm" then "pnpm run " ++ cmd
  else if String.eqb packageManager "yarn" then "yarn " ++ cmd
  else if String.eqb packageManager "bun" then "bun run " ++ cmd
  else "npm run " ++ cmd.

(** [CLI_NAME] comes from [./cmd]. *)
Definition formatSelfCommand (CLI_NAME : string) (host : Host) : string :=
  let packageManager := resolvePackageManager host in
  if String.eqb packageManager "pnpm" then "pnpx " ++ CLI_NAME
  else if String.eqb packageManager "bun" then "bunx " ++ CLI_NAME
  else "npx " ++ CLI_NAME.

(** The names of [PackageManagerName]. *)
Definition names : list string := ["npm"; "pnpm"; "yarn"; "bun"].

End PackageManager.


(** ** Vocabulary of the hoisted tree *)

(** The path is that of a layout file: its base name starts with
    [_layout.] (the test of [getFileMeta], source line 311). *)
Definition layoutFile (filePath : string) : bool :=
  JS.startsWith (last (JS.split (removeLeadingDotSlash filePath) "/") EmptyString) "_layout.".

(** The prefix a layout hands down for its route (source line 239). *)
Definition prefixOf (route_ : string) : string :=
  if String.eqb route_ "" then "" else (route_ ++ "/")%string.

(** [node.entryPoints || []] *)
Definition ownEntryPoints (n : RouteNode) : list string :=
  match n.(entryPoints) with Some own => own | None => [] end.

(** The candidates of the layouts of a directory and of the directories
    below it, in the order the hoister meets them. *)
Fixpoint layoutRefs (d : DirectoryNode) : list Ref :=
  match d with
  | mkDirectoryNode layout_ _ subdirectories_ =>
      filterSome (match layout_ with Some arr => arr | None => [] end)
      ++ flat_map (fun entry => layoutRefs (snd entry)) subdirectories_
  end.

(** An object of the store made of a layout file, and one made of any
    other file. *)
Definition isLayoutObject (h : Heap) (r : Ref) : Prop :=
  exists n, nth_error h r = Some n /\ layoutFile n.(contextKey) = true.

Definition isViewObject (h : Heap) (r : Ref) : Prop :=
  exists n, nth_error h r = Some n /\ layoutFile n.(contextKey) = false.

(** Every candidate of a layout is in [PL], every candidate of a view in
    [PV], in a directory and below it. *)
Inductive sortedRefs (PL PV : Ref -> Prop) : DirectoryNode -> Prop :=
| sortedRefs_intro layout_ views_ subdirectories_ :
    (forall arr r, layout_ = Some arr -> In (Some r) arr -> PL r) ->
    (forall k arr r, In (k, arr) views_ -> In (Some r) arr -> PV r) ->
    (forall k d, In (k, d) subdirectories_ -> sortedRefs PL PV d) ->
    sortedRefs PL PV (mkDirectoryNode layout_ views_ subdirectories_).

(** The entry points a layout of the tree hands to what is below it: its
    own for the root, and for a layout that is the child of another the
    entry points that one hands down followed by its own, as the scan
    stored them in [h0]. *)
Inductive handed (h0 h : Heap) (root : Ref) : Ref -> list string -> Prop :=
| handed_root r0 :
    nth_error h0 root = Some r0 ->
    handed h0 h root root (ownEntryPoints r0)
| handed_child p e P l l0 :
    handed h0 h root p e ->
    nth_error h p = Some P ->
    In (Layout l) P.(children) ->
    nth_error h0 l = Some l0 ->
    handed h0 h root l (e ++ ownEntryPoints l0).

(** What a child [c] of the object at [p] is, in terms of the store [h0]
    the hoister started from: a layout with the route the scan gave it less
    the prefix of [p], or the clone of a view of [h0] hoisted with the
    prefix and the entry points of [p]. *)
Definition describedChild {M : Matchers} (options : Options) (h0 h : Heap) (root : Ref)
    (p : Ref) (c : Child) : Prop :=
  exists p0 e,
    nth_error h0 p = Some p0
    /\ handed h0 h root p e
    /\ match c with
       | inl l =>
           exists l0 m,
             nth_error h0 l = Some l0
             /\ nth_error h l = Some m
             /\ m.(route) = JS.replace l0.(route) (prefixOf p0.(route)) ""
             /\ m.(contextKey) = l0.(contextKey)
       | inr v =>
           exists n0,
             In n0 h0
             /\ layoutFile n0.(contextKey) = false
             /\ v = hoistView options e (prefixOf p0.(route)) n0
       end.

Definition described {M : Matchers} (options : Options) (h0 h : Heap) (root : Ref) : Prop :=
  forall p P c, nth_error h p = Some P -> In c P.(children) ->
    describedChild options h0 h root p c.

(** [h'] is [h] with children added to some objects, and with the route
    and the context key of every object outside [touched] as they were. *)
Definition advances (touched : Ref -> Prop) (h h' : Heap) : Prop :=
  forall r n, nth_error h r = Some n ->
    exists n',
      nth_error h' r = Some n'
      /\ (forall c, In c n.(children) -> In c n'.(children))
      /\ (~ touched r -> n'.(route) = n.(route) /\ n'.(contextKey) = n.(contextKey)).

(** What a call of the hoister on [directory], below the layout [p], does
    to a store where [p] hands down [eps], the layouts of [directory] and
    the views are as in [h0], and the children so far are described. *)
Definition hoistedWell {M : Matchers} (options : Options) (h0 : Heap) (root : Ref)
    (directory : DirectoryNode) : Prop :=
  forall p p0 eps h rootOut h',
    nth_error h0 p = Some p0 ->
    layoutFile p0.(contextKey) = true ->
    ~ In p (layoutRefs directory) ->
    handed h0 h root p eps ->
    (forall l, In l (layoutRefs directory) -> nth_error h l = nth_error h0 l) ->
    (forall r n0, nth_error h0 r = Some n0 -> layoutFile n0.(contextKey) = false ->
       nth_error h r = Some n0) ->
    (forall r Q l, nth_error h r = Some Q -> In (Layout l) Q.(children) ->
       ~ In l (layoutRefs directory)) ->
    described options h0 h root ->
    hoistRoutesToNearestLayout directory options (Some p) eps (prefixOf p0.(route)) h
    = OK (rootOut, h') ->
    described options h0 h' root
    /\ advances (fun r => In r (layoutRefs directory)) h h'
    /\ (forall r, r <> p -> ~ In r (layoutRefs directory) ->
          nth_error h' r = nth_error h r)
    /\ (forall r Q l, nth_error h' r = Some Q -> In (Layout l) Q.(children) ->
          (exists Q0, nth_error h r = Some Q0 /\ In (Layout l) Q0.(children))
          \/ In l (layoutRefs directory)).

(** The directory and the store [getRoutes] hands to the hoister: those of
    the scan with the generated views added (source lines 42-46). *)
Definition beforeHoisting (options : Options) (t : DirectoryTree) : DirectoryNode * Heap :=
  let (directory, h) :=
    if t.(hasRoutes) || options.(unstable_alwaysIncludeSitemap)
    then appendSitemapRoute t.(directoryTree) t.(heap)
    else (t.(directoryTree), t.(heap)) in
  appendNotFoundRoute directory h.

(** The node a child stands for: the object a layout child refers to, or
    the view itself. *)
Definition childNode (h : Heap) (c : Child) : option RouteNode :=
  match c with
  | inl l => nth_error h l
  | inr v => Some v
  end.

(** The node of the store [h0] a child comes from: the object at the same
    place for a layout, some object of the store for a view (a view child
    is a clone). *)
Definition comesFrom (h0 : Heap) (c : Child) (c0 : RouteNode) : Prop :=
  match c with
  | inl l => nth_error h0 l = Some c0
  | inr _ => In c0 h0
  end.

(** The layouts of a tree are distinct objects of its store. *)
Definition apart (st : DirectoryTree) : Prop :=
  NoDup (layoutRefs st.(directoryTree))
  /\ forall r, In r (layoutRefs st.(directoryTree)) -> r < length st.(heap).

(** * Properties *)

(** ** Strings, maps and sparse arrays *)

Lemma bind_OK {A B} (r : Result A) (k : A -> Result B) (b : B) :
  bind r k = OK b -> exists a, r = OK a /\ k a = OK b.
Proof.
  destruct r as [a | e]; simpl; intros H.
  - exists a; split; [reflexivity | exact H].
  - discriminate.
Qed.

(** Inversion of a [let*] that returned. *)
Tactic Notation "unbind" hyp(H) "as" simple_intropattern(p) :=
  apply bind_OK in H; destruct H as p.

Lemma dropPrefix_spec (p s r : string) :
  JS.dropPrefix p s = Some r -> s = (p ++ r)%string.
Proof.
  revert s; induction p as [| a p IH]; intros s H; simpl in *.
  - now inversion H.
  - destruct s as [| b s]; [discriminate |].
    destruct (Ascii.eqb a b) eqn:E; [| discriminate].
    apply Ascii.eqb_eq in E; subst b.
    now rewrite (IH _ H).
Qed.

Lemma dropPrefix_app (p r : string) : JS.dropPrefix p (p ++ r) = Some r.
Proof.
  induction p as [| a p IH]; simpl; [reflexivity |].
  now rewrite Ascii.eqb_refl.
Qed.

Lemma cut_spec (pat s before rest : string) :
  JS.cut pat s = Some (before, rest) -> s = (before ++ pat ++ rest)%string.
Proof.
  revert before; induction s as [| c s IH]; intros before H.
  - simpl in H. destruct (JS.dropPrefix pat "") eqn:E; [| discriminate].
    inversion H; subst. now apply dropPrefix_spec in E.
  - simpl in H. destruct (JS.dropPrefix pat (String c s)) eqn:E.
    + inversion H; subst. now apply dropPrefix_spec in E.
    + destruct (JS.cut pat s) as [[b r] |] eqn:C; [| discriminate].
      inversion H; subst. simpl. now rewrite (IH _ eq_refl).
Qed.

Lemma cut_prefix (p r : string) : JS.cut p (p ++ r) = Some (EmptyString, r).
Proof.
  destruct (p ++ r)%string eqn:E; simpl; rewrite <- E, dropPrefix_app; reflexivity.
Qed.

(** Removing a pattern the string starts with leaves what follows it. *)
Lemma replace_prefix (p r : string) : JS.replace (p ++ r) p "" = r.
Proof. unfold JS.replace. now rewrite cut_prefix. Qed.

Lemma replace_empty (s : string) : JS.replace s "" "" = s.
Proof. unfold JS.replace. destruct s; reflexivity. Qed.

Lemma hasChar_app (c : ascii) (a b : string) :
  hasChar c (a ++ b) = hasChar c a || hasChar c b.
Proof.
  unfold hasChar. induction a as [| x a IH]; simpl; [reflexivity |].
  now rewrite IH, orb_assoc.
Qed.

(** A pattern with a character the string lacks does not occur in it. *)
Lemma replace_absent (c : ascii) (s pat replacement : string) :
  hasChar c pat = true -> hasChar c s = false -> JS.replace s pat replacement = s.
Proof.
  intros Hp Hs. unfold JS.replace.
  destruct (JS.cut pat s) as [[b r] |] eqn:C; [| reflexivity].
  apply cut_spec in C. rewrite C in Hs.
  rewrite !hasChar_app, Hp in Hs. rewrite orb_true_r in Hs. discriminate.
Qed.

Lemma inList_In (l : list string) (s : string) : JS.inList l s = true <-> In s l.
Proof.
  unfold JS.inList. rewrite existsb_exists. split.
  - intros [x [Hx E]]. apply String.eqb_eq in E. now subst.
  - intros H. exists s. split; [assumption | apply String.eqb_refl].
Qed.

Lemma at_In {A} (arr : list (option A)) (i : nat) (a : A) :
  JS.at_ arr i = Some a -> In (Some a) arr.
Proof.
  unfold JS.at_. destruct (nth_error arr i) as [[x |] |] eqn:E; try discriminate.
  intros H; inversion H; subst. eapply nth_error_In; eassumption.
Qed.

Lemma lastElement_In {A} (arr : list (option A)) (a : A) :
  JS.lastElement arr = Some a -> In (Some a) arr.
Proof. apply at_In. Qed.

Lemma at_assign {A} (arr : list (option A)) (i : nat) (v : A) :
  JS.at_ (JS.assign arr i v) i = Some v.
Proof.
  unfold JS.at_. revert arr; induction i as [| i IH]; intros [| x arr]; simpl;
    try reflexivity; apply IH.
Qed.

Lemma In_assign {A} (arr : list (option A)) (i : nat) (v x : A) :
  In (Some x) (JS.assign arr i v) -> x = v \/ In (Some x) arr.
Proof.
  revert arr; induction i as [| i IH]; intros [| y arr]; simpl.
  - intros [H | []]. left; congruence.
  - intros [H | H]; [left; congruence | right; now right].
  - intros [H | H]; [discriminate |].
    destruct (IH _ H) as [E | []]. now left.
  - intros [H | H]; [right; now left |].
    destruct (IH _ H) as [E | E]; [now left | right; now right].
Qed.

Lemma mapGet_In {V} (m : list (string * V)) (k : string) (v : V) :
  JS.mapGet m k = Some v -> In (k, v) m.
Proof.
  induction m as [| [k' v'] m IH]; simpl; [discriminate |].
  destruct (String.eqb k k') eqn:E.
  - apply String.eqb_eq in E. intros H; inversion H; subst. now left.
  - intros H. right. now apply IH.
Qed.

Lemma mapGet_mapSet {V} (m : list (string * V)) (k : string) (v : V) :
  JS.mapGet (JS.mapSet m k v) k = Some v.
Proof.
  induction m as [| [k' v'] m IH]; simpl.
  - now rewrite String.eqb_refl.
  - destruct (String.eqb k k') eqn:E; simpl; rewrite E; [reflexivity | exact IH].
Qed.

Lemma In_mapSet {V} (m : list (string * V)) (k0 : string) (v0 : V) (k : string) (v : V) :
  In (k, v) (JS.mapSet m k0 v0) -> (k = k0 /\ v = v0) \/ In (k, v) m.
Proof.
  induction m as [| [k' v'] m IH]; simpl.
  - intros [H | []]. inversion H; subst. now left.
  - destruct (String.eqb k0 k') eqn:E.
    + apply String.eqb_eq in E; subst k'.
      intros [H | H]; [inversion H; subst; now left | right; now right].
    + intros [H | H]; [right; now left |].
      destruct (IH H) as [? | ?]; [now left | right; now right].
Qed.

Lemma mapHas_In {V} (m : list (string * V)) (k : string) :
  JS.mapHas m k = true -> exists v, In (k, v) m.
Proof.
  unfold JS.mapHas. destruct (JS.mapGet m k) as [v |] eqn:E; [| discriminate].
  intros _. exists v. now apply mapGet_In.
Qed.

Lemma mapSet_In {V} (m : list (string * V)) (k : string) (v : V) :
  In (k, v) (JS.mapSet m k v).
Proof. apply mapGet_In, mapGet_mapSet. Qed.

(** ** Dynamic segments *)

Section DynamicFacts.
Context {M : Matchers}.

Lemma filterSome_none {A B} (f : A -> option B) (l : list A) :
  (forall x, In x l -> f x = None) -> filterSome (map f l) = [].
Proof.
  induction l as [| x l IH]; simpl; intros H; [reflexivity |].
  rewrite (H x (or_introl eq_refl)). apply IH. intros y Hy. apply H. now right.
Qed.

Lemma dynamicOfPart_static (part : string) :
  part <> "+not-found" ->
  matchDeepDynamicRouteName part = None ->
  matchDynamicName part = None ->
  dynamicOfPart part = None.
Proof.
  intros Hn Hd Hs. unfold dynamicOfPart.
  destruct (String.eqb part "+not-found") eqn:E.
  - apply String.eqb_eq in E. contradiction.
  - now rewrite Hd, Hs.
Qed.

Lemma generateDynamic_static (path : string) :
  (forall part, In part (JS.split path "/") ->
     part <> "+not-found"
     /\ matchDeepDynamicRouteName part = None
     /\ matchDynamicName part = None) ->
  generateDynamic path = None.
Proof.
  intros H. unfold generateDynamic.
  rewrite filterSome_none; [reflexivity |].
  intros part Hp. destruct (H part Hp) as [Hn [Hd Hs]].
  now apply dynamicOfPart_static.
Qed.

Lemma generateDynamic_not_empty (path : string) : generateDynamic path <> Some [].
Proof.
  unfold generateDynamic.
  destruct (filterSome (map dynamicOfPart (JS.split path "/"))); simpl; discriminate.
Qed.

(** The not-found marker is dynamic whatever the matchers say. *)
Lemma generateDynamic_notFound : generateDynamic "+not-found" = Some [notFoundConvention].
Proof. reflexivity. Qed.

End DynamicFacts.

(** C8: the path [a/[id]/[...rest]] yields the conventions of [id] (not
    deep) and [rest] (deep), in segment order; [a/b] yields [null]; a path
    none of whose segments is the not-found marker, a catch-all or a dynamic
    segment yields [null], and no path yields an empty sequence. *)
Theorem generateDynamic_segments :
  generateDynamic "a/[id]/[...rest]"
  = Some [ {| name := "id"; deep := false; notFound := None |};
           {| name := "rest"; deep := true; notFound := None |} ]
  /\ generateDynamic "a/b" = None
  /\ (forall (M : Matchers) (path : string),
        (forall part, In part (JS.split path "/") ->
           part <> "+not-found"
           /\ matchDeepDynamicRouteName part = None
           /\ matchDynamicName part = None) ->
        generateDynamic path = None)
  /\ (forall (M : Matchers) (path : string), generateDynamic path <> Some []).
Proof.
  split; [reflexivity |].
  split; [reflexivity |].
  split.
  - intros M path. apply generateDynamic_static.
  - intros M path. apply generateDynamic_not_empty.
Qed.

Lemma generateDynamic_segments_witness :
  generateDynamic "settings/profile" = None.
Proof.
  apply (proj1 (proj2 (proj2 generateDynamic_segments)) matchers "settings/profile").
  intros part H. simpl in H.
  destruct H as [H | [H | []]]; subst part; repeat split; try discriminate; reflexivity.
Defined.

(** ** Most specific candidate *)

Lemma at_past_end {A} (arr : list (option A)) (j : nat) :
  length arr <= j -> JS.at_ arr j = None.
Proof.
  intros H. unfold JS.at_.
  now rewrite (proj2 (nth_error_None arr j) H).
Qed.

(** C4: on a candidate array as indexed writes build it, with its entries in
    the store, [getMostSpecific] returns nothing but the candidate at the
    highest populated index, does return it when index 0 is populated, and
    throws the missing-fallback error exactly when index 0 is a hole while a
    higher index is populated. *)
Theorem getMostSpecific_highest (routes : list (option Ref)) (h : Heap)
    (Hends : endsPopulated routes)
    (Hstore : forall r, In (Some r) routes -> exists n, nth_error h r = Some n) :
  (forall r, getMostSpecific routes h = OK (Some r) ->
     exists i, highestPopulated routes i r)
  /\ (routes <> [] -> JS.at_ routes 0 <> None ->
      exists r, getMostSpecific routes h = OK (Some r))
  /\ ((exists contextKey_, getMostSpecific routes h
                           = Throw (NoFallbackPlatformRoute contextKey_))
      <-> (JS.at_ routes 0 = None
           /\ exists i r, 0 < i /\ JS.at_ routes i = Some r)).
Proof.
  unfold getMostSpecific.
  destruct Hends as [-> | [a Ha]].
  - simpl. split; [| split; [| split]].
    + intros r Hr. discriminate.
    + intros Hc. contradiction.
    + intros [c Hc]. discriminate.
    + intros [_ [i [r [_ Hr]]]]. destruct i; discriminate.
  - rewrite Ha.
    destruct (JS.at_ routes 0) as [x |] eqn:E0.
    + split; [| split; [| split]].
      * intros r Hr. inversion Hr; subst r.
        exists (length routes - 1). split; [exact Ha |].
        intros j Hj. apply at_past_end. lia.
      * intros _ _. now exists a.
      * intros [c Hc]. discriminate.
      * intros [Hc _]. discriminate.
    + destruct (Hstore a (lastElement_In _ _ Ha)) as [n Hn].
      unfold deref. rewrite Hn. simpl.
      split; [| split; [| split]].
      * intros r Hr. discriminate.
      * intros _ Hc. contradiction.
      * intros _. split; [reflexivity |].
        exists (length routes - 1), a. split; [| exact Ha].
        destruct (length routes - 1) eqn:L; [| lia].
        unfold JS.lastElement in Ha. rewrite L in Ha. congruence.
      * intros _. now exists n.(contextKey).
Qed.

Lemma getMostSpecific_highest_witness :
  exists i, highestPopulated [Some 0; None; Some 1] i 1.
Proof.
  refine (proj1 (getMostSpecific_highest [Some 0; None; Some 1]
                   [defaultLayout; defaultLayout] _ _) 1 eq_refl).
  - right. exists 1. reflexivity.
  - intros r Hr. simpl in Hr.
    destruct Hr as [Hr | [Hr | [Hr | []]]]; inversion Hr; subst r.
    + exists defaultLayout. reflexivity.
    + exists defaultLayout. reflexivity.
Defined.

(** ** Specificity *)

Section MetaFacts.
Context {M : Matchers}.

Lemma getFileMeta_ranks (env : Env) (key : string) (options : Options) :
  options.(unstable_platformExtensions) = true ->
  groupWrapped key = false ->
  exists meta,
    getFileMeta env key options = OK meta
    /\ meta.(FileMeta.specificity)
       = if JS.inList validPlatforms (platformOf key) then
           if String.eqb (platformOf key) env.(Platform_OS) then 2%Z
           else if String.eqb (platformOf key) "native"
                   && negb (String.eqb env.(Platform_OS) "web")
                then 1%Z else (-1)%Z
         else 0%Z.
Proof.
  intros Hext Hwrapped. unfold getFileMeta, groupWrapped, platformOf in *.
  rewrite Hwrapped, Hext. cbv zeta. rewrite andb_true_l.
  match goal with
  | |- context [JS.inList validPlatforms ?p] => destruct (JS.inList validPlatforms p) eqn:Hin
  end; cbn [bind]; eexists; split; reflexivity.
Qed.

End MetaFacts.

(** C5, as the code has it: with platform extensions enabled and a base
    name not wrapped in parentheses, a file whose last dot-segment is a
    known platform identifier gets rank 2 when the segment is the current
    platform, else rank 1 when it is [native] and the current platform is
    not [web], else the skip sentinel -1; a file with no platform suffix
    gets rank 0, the lowest rank, below the rank 1 of [native]. *)
Theorem specificity_ranks (M : Matchers) (env : Env) (key : string) (options : Options)
    (Hext : options.(unstable_platformExtensions) = true)
    (Hname : groupWrapped key = false) :
  exists meta,
    getFileMeta env key options = OK meta
    /\ (In (platformOf key) validPlatforms ->
        (platformOf key = env.(Platform_OS) -> meta.(FileMeta.specificity) = 2%Z)
        /\ (platformOf key <> env.(Platform_OS) ->
            platformOf key = "native" -> env.(Platform_OS) <> "web" ->
            meta.(FileMeta.specificity) = 1%Z)
        /\ (platformOf key <> env.(Platform_OS) ->
            platformOf key <> "native" \/ env.(Platform_OS) = "web" ->
            meta.(FileMeta.specificity) = (-1)%Z))
    /\ (~ In (platformOf key) validPlatforms -> meta.(FileMeta.specificity) = 0%Z).
Proof.
  destruct (getFileMeta_ranks env key options Hext Hname) as [meta [Hm Hs]].
  exists meta. split; [exact Hm |]. rewrite Hs. split.
  - intros Hin. apply inList_In in Hin. rewrite Hin.
    split; [| split].
    + intros E. rewrite E, String.eqb_refl. reflexivity.
    + intros Hne Hnative Hweb.
      apply String.eqb_neq in Hne. apply String.eqb_neq in Hweb.
      rewrite Hne, Hnative, Hweb. reflexivity.
    + intros Hne Hother. apply String.eqb_neq in Hne. rewrite Hne.
      destruct Hother as [Hn | Hw].
      * apply String.eqb_neq in Hn. rewrite Hn. reflexivity.
      * rewrite Hw, String.eqb_refl, andb_false_r. reflexivity.
  - intros Hin. destruct (JS.inList validPlatforms (platformOf key)) eqn:E; [| reflexivity].
    apply inList_In in E. contradiction.
Qed.

Lemma specificity_ranks_witness :
  exists meta,
    getFileMeta ios "./index.ios.tsx" platformExtensions = OK meta
    /\ meta.(FileMeta.specificity) = 2%Z.
Proof.
  destruct (specificity_ranks matchers ios "./index.ios.tsx" platformExtensions
              eq_refl eq_refl) as [meta [Hm [Hknown _]]].
  exists meta. split; [exact Hm |].
  apply Hknown; [simpl; tauto | reflexivity].
Defined.

(** C5 fails as stated: a file with no platform suffix gets rank 0, not the
    rank 1 that [native] gets. *)
Lemma default_rank_is_not_the_native_rank :
  specificityOf ios "./index.tsx" platformExtensions = OK 0%Z
  /\ specificityOf ios "./index.native.tsx" platformExtensions = OK 1%Z
  /\ specificityOf ios "./index.tsx" platformExtensions
     <> specificityOf ios "./index.native.tsx" platformExtensions.
Proof. repeat split; try reflexivity. discriminate. Qed.

(** ** Conflicts *)

Lemma atLeaf_at (d : DirectoryNode) (path : list string) (leaf : DirectoryNode)
    (f : DirectoryNode -> Result DirectoryNode) :
  directoryAt d path = Some leaf ->
  match f leaf with
  | Throw e => atLeaf d path f = Throw e
  | OK leaf' => exists d', atLeaf d path f = OK d' /\ directoryAt d' path = Some leaf'
  end.
Proof.
  revert d; induction path as [| part rest IH]; intros d H; simpl in H |- *.
  - inversion H; subst. destruct (f leaf) as [leaf' |]; [| reflexivity].
    exists leaf'. split; reflexivity.
  - destruct (JS.mapGet d.(subdirectories) part) as [child |] eqn:E; [| discriminate].
    specialize (IH child H). destruct (f leaf) as [leaf' | e].
    + destruct IH as [c' [Hc Hat]]. rewrite Hc. simpl.
      eexists. split; [reflexivity |]. simpl. now rewrite mapGet_mapSet.
    + now rewrite IH.
Qed.

(** One placement, in the directory a path leads to: a layout whose slot is
    taken throws the layout conflict whatever the mode; a view whose slot is
    taken throws a conflict outside production, and in production takes the
    slot over. *)
Lemma placement_policy (env : Env) (options : Options) (h : Heap) (filePath : string)
    (meta : FileMeta.t) (node existing : Ref) (e : RouteNode)
    (d : DirectoryNode) (path : list string) (leaf : DirectoryNode)
    (Hleaf : directoryAt d path = Some leaf)
    (Hexisting : nth_error h existing = Some e) :
  (layoutSlot leaf meta.(FileMeta.specificity) = Some existing ->
     atLeaf d path (placeLayout h filePath meta node)
     = Throw (LayoutConflict filePath e.(contextKey) meta.(FileMeta.dirname)))
  /\ (viewSlot leaf meta.(FileMeta.name) meta.(FileMeta.specificity) = Some existing ->
      (env.(NODE_ENV) <> "production" ->
         atLeaf d path (placeView env options h filePath meta node)
         = Throw (if options.(unstable_improvedErrorMessages)
                  then RouteConflict filePath e.(contextKey) meta.(FileMeta.dirname)
                  else MultipleFilesMatch meta.(FileMeta.filepathWithoutExtensions)))
      /\ (env.(NODE_ENV) = "production" ->
          exists d' leaf',
            atLeaf d path (placeView env options h filePath meta node) = OK d'
            /\ directoryAt d' path = Some leaf'
            /\ viewSlot leaf' meta.(FileMeta.name) meta.(FileMeta.specificity) = Some node)).
Proof.
  split.
  - intros Hslot.
    pose proof (atLeaf_at d path leaf (placeLayout h filePath meta node) Hleaf) as Hat.
    unfold layoutSlot in Hslot. unfold placeLayout in Hat at 1.
    rewrite Hslot in Hat. unfold deref in Hat. rewrite Hexisting in Hat. exact Hat.
  - intros Hslot.
    pose proof (atLeaf_at d path leaf (placeView env options h filePath meta node) Hleaf)
      as Hat.
    unfold viewSlot in Hslot. unfold placeView in Hat at 1. split.
    + intros Hmode. apply String.eqb_neq in Hmode. rewrite Hmode, Hslot in Hat.
      unfold deref in Hat. rewrite Hexisting in Hat.
      destruct options.(unstable_improvedErrorMessages); exact Hat.
    + intros Hmode. rewrite Hmode in Hat. simpl in Hat.
      destruct Hat as [d' [Hd' Hat]]. eexists d', _.
      split; [exact Hd' |]. split; [exact Hat |].
      unfold viewSlot. simpl. rewrite mapGet_mapSet. apply at_assign.
Qed.

(** Two files for one slot, from the enumeration on. *)
Example layouts_conflict_in_every_mode :
  getDirectoryTree ios 1 ["./_layout.tsx"; "./_layout.js"] defaultOptions
  = Throw (LayoutConflict "./_layout.js" "./_layout.tsx" "")
  /\ getDirectoryTree iosProduction 1 ["./_layout.tsx"; "./_layout.js"] defaultOptions
     = Throw (LayoutConflict "./_layout.js" "./_layout.tsx" "").
Proof. split; reflexivity. Qed.

Example views_conflict_outside_production :
  getDirectoryTree ios 1 ["./a.tsx"; "./a.jsx"] defaultOptions
  = Throw (MultipleFilesMatch "a").
Proof. reflexivity. Qed.

Example later_view_wins_in_production :
  exists t,
    getDirectoryTree iosProduction 1 ["./a.tsx"; "./a.jsx"] defaultOptions = OK t
    /\ viewSlot t.(directoryTree) "a" 0 = Some 1
    /\ option_map contextKey (nth_error t.(heap) 1) = Some "./a.jsx".
Proof. eexists. split; [reflexivity | split; reflexivity]. Qed.

(** ** Group expansion *)

Lemma setAdd_incl (keys : list string) (k : string) : incl keys (JS.setAdd keys k).
Proof.
  unfold JS.setAdd. destruct (JS.inList keys k).
  - apply incl_refl.
  - apply incl_appl, incl_refl.
Qed.

Lemma setAdd_present (keys : list string) (k : string) :
  In k keys -> JS.setAdd keys k = keys.
Proof.
  intros H. unfold JS.setAdd. now rewrite (proj2 (inList_In keys k) H).
Qed.

Lemma setAdd_In (keys : list string) (k : string) : In k (JS.setAdd keys k).
Proof.
  unfold JS.setAdd. destruct (JS.inList keys k) eqn:E.
  - now apply inList_In.
  - apply in_or_app. right. now left.
Qed.

Lemma newSet_distinct (l acc : list string) :
  NoDup l -> (forall x, In x l -> ~ In x acc) -> fold_left JS.setAdd l acc = acc ++ l.
Proof.
  revert acc; induction l as [| x l IH]; intros acc Hnd Hfresh; simpl.
  - now rewrite app_nil_r.
  - inversion Hnd as [| ? ? Hx Hl]; subst.
    unfold JS.setAdd at 2.
    destruct (JS.inList acc x) eqn:E.
    + apply inList_In in E. exfalso. apply (Hfresh x); [now left | assumption].
    + rewrite IH; [now rewrite <- app_assoc | assumption |].
      intros y Hy Hin. apply in_app_or in Hin. destruct Hin as [Hin | [-> | []]].
      * apply (Hfresh y); [now right | assumption].
      * contradiction.
Qed.

Section GroupFacts.
Context {M : Matchers}.

Lemma forEach_incl {A} (body : A -> list string -> Result (list string)) (l : list A) :
  (forall x keys keys', In x l -> body x keys = OK keys' -> incl keys keys') ->
  forall keys keys', forEach body l keys = OK keys' -> incl keys keys'.
Proof.
  induction l as [| x l IH]; intros Hbody keys keys' H; simpl in H.
  - inversion H. apply incl_refl.
  - unbind H as [k1 [H1 H2]].
    eapply incl_tran.
    + eapply Hbody; [now left | eassumption].
    + eapply IH; [| eassumption].
      intros y a b Hy. apply Hbody. now right.
Qed.

(** The expansion only adds to the set it is given. *)
Lemma extrapolateGroups_incl (fuel : nat) :
  forall key keys keys', extrapolateGroups fuel key keys = OK keys' -> incl keys keys'.
Proof.
  induction fuel as [| fuel IH]; intros key keys keys' H; simpl in H; [discriminate |].
  destruct (truthy (matchGroupName key)) as [m |].
  - destruct (negb _); [discriminate |].
    destruct (Nat.eqb _ 1).
    + inversion H. apply setAdd_incl.
    + eapply forEach_incl; [| eassumption].
      intros g a b _. apply IH.
  - inversion H. apply setAdd_incl.
Qed.

(** Expanding a key into a set that holds its expansion changes nothing. *)
Lemma extrapolateGroups_absorbed (fuel : nat) :
  forall key keys keys',
    extrapolateGroups fuel key keys = OK keys' ->
    forall larger, incl keys' larger -> extrapolateGroups fuel key larger = OK larger.
Proof.
  induction fuel as [| fuel IH]; intros key keys keys' H larger Hl; simpl in H |- *;
    [discriminate |].
  destruct (truthy (matchGroupName key)) as [m |].
  - destruct (negb _); [discriminate |].
    destruct (Nat.eqb _ 1).
    + inversion H; subst. rewrite setAdd_present; [reflexivity |].
      apply Hl, setAdd_In.
    + revert keys H.
      induction (JS.split m ",") as [| g gs IHg]; intros keys H; simpl in H |- *;
        [reflexivity |].
      unbind H as [k1 [H1 H2]].
      assert (Hk1 : incl k1 keys').
      { eapply forEach_incl; [| exact H2]. intros y a b _. apply extrapolateGroups_incl. }
      rewrite (IH _ _ _ H1 larger (incl_tran Hk1 Hl)). simpl.
      eapply IHg. exact H2.
  - inversion H; subst. rewrite setAdd_present; [reflexivity |].
    apply Hl, setAdd_In.
Qed.

Lemma forEach_same {A} (body : A -> list string -> Result (list string)) (l : list A)
    (keys : list string) :
  (forall x, In x l -> body x keys = OK keys) -> forEach body l keys = OK keys.
Proof.
  induction l as [| x l IH]; intros H; simpl; [reflexivity |].
  rewrite (H x (or_introl eq_refl)). simpl. apply IH. intros y Hy. apply H. now right.
Qed.

(** A list whose members are distinct as written but equal once trimmed
    passes the duplicate check and expands as the one rewritten key. *)
Lemma extrapolateGroups_trimmed (fuel : nat) (key m t : string) (keys : list string) :
  truthy (matchGroupName key) = Some m ->
  NoDup (JS.split m ",") ->
  2 <= length (JS.split m ",") ->
  (forall g, In g (JS.split m ",") -> JS.trim g = t) ->
  extrapolateGroups (S fuel) key keys = extrapolateGroups fuel (JS.replace key m t) keys.
Proof.
  intros Hm Hnd Hlen Htrim. simpl. rewrite Hm.
  unfold JS.newSet. rewrite (newSet_distinct _ [] Hnd) by (intros x _ []).
  simpl. rewrite Nat.eqb_refl. simpl.
  destruct (Nat.eqb (length (JS.split m ",")) 1) eqn:E1.
  { apply Nat.eqb_eq in E1. lia. }
  destruct (JS.split m ",") as [| g gs]; [simpl in Hlen; lia |].
  simpl. rewrite (Htrim g (or_introl eq_refl)).
  destruct (extrapolateGroups fuel (JS.replace key m t) keys) as [k1 | e] eqn:E;
    [| reflexivity].
  simpl. apply forEach_same. intros x Hx.
  rewrite (Htrim x (or_intror Hx)).
  eapply extrapolateGroups_absorbed; [exact E | apply incl_refl].
Qed.

(** A key with no list, or a list of one member, is its own expansion. *)
Lemma extrapolateGroups_single (fuel : nat) (key : string) (keys : list string) :
  truthy (matchGroupName key) = None
  \/ (exists m, truthy (matchGroupName key) = Some m /\ length (JS.split m ",") = 1) ->
  extrapolateGroups (S fuel) key keys = OK (JS.setAdd keys key).
Proof.
  intros [H | [m [H Hlen]]]; simpl; rewrite H; [reflexivity |].
  destruct (JS.split m ",") as [| g [| g' gs]]; simpl in Hlen; try discriminate.
  reflexivity.
Qed.

End GroupFacts.

(** A list of two or more comma-separated members that are distinct as
    written but equal once trimmed raises no duplicate error; its expansion
    is the expansion of the one key that [key.replace(list, member.trim())]
    yields, a single path when that key holds no further list of several
    members. *)
Theorem untrimmed_duplicates_expand_once (M : Matchers) (fuel : nat) (key m t : string)
    (keys : list string)
    (Hlist : truthy (matchGroupName key) = Some m)
    (Hdistinct : NoDup (JS.split m ","))
    (Hseveral : 2 <= length (JS.split m ","))
    (Htrimmed : forall g, In g (JS.split m ",") -> JS.trim g = t) :
  extrapolateGroups (S (S fuel)) key keys
  = extrapolateGroups (S fuel) (JS.replace key m t) keys
  /\ (truthy (matchGroupName (JS.replace key m t)) = None
      \/ (exists m', truthy (matchGroupName (JS.replace key m t)) = Some m'
                     /\ length (JS.split m' ",") = 1) ->
      extrapolateGroups (S (S fuel)) key keys = OK (JS.setAdd keys (JS.replace key m t))).
Proof.
  split.
  - now apply extrapolateGroups_trimmed.
  - intros Hsingle.
    rewrite (extrapolateGroups_trimmed (S fuel) key m t keys) by assumption.
    now apply extrapolateGroups_single.
Qed.

Lemma untrimmed_duplicates_expand_once_witness :
  extrapolateGroups 2 "(a, a)/x.tsx" [] = OK ["(a)/x.tsx"].
Proof.
  refine (proj2 (untrimmed_duplicates_expand_once matchers 0 "(a, a)/x.tsx" "a, a" "a" []
                   eq_refl _ _ _) _).
  - repeat constructor; simpl; intuition discriminate.
  - simpl. lia.
  - intros g Hg. simpl in Hg. destruct Hg as [<- | [<- | []]]; reflexivity.
  - right. exists "a". split; reflexivity.
Defined.

(** C10, at the path [($&, $&)/x.tsx]: the members of the list are distinct
    as written and equal once trimmed, no duplicate error is raised, and yet
    no path is returned.  The trimmed member [$&] is passed to
    [key.replace] unescaped, where it is the replacement pattern for the
    matched text: the rewritten key is the key itself, and the recursion
    goes on until the call stack overflows, at every depth. *)
Theorem dollar_members_overflow :
  matchGroupName "($&, $&)/x.tsx" = Some "$&, $&"
  /\ NoDup (JS.split "$&, $&" ",")
  /\ (forall g, In g (JS.split "$&, $&" ",") -> JS.trim g = "$&")
  /\ JS.replace "($&, $&)/x.tsx" "$&, $&" "$&" = "($&, $&)/x.tsx"
  /\ (forall fuel keys,
        extrapolateGroups fuel "($&, $&)/x.tsx" keys = Throw RangeError)
  /\ ~ (exists fuel keys, extrapolateGroups fuel "($&, $&)/x.tsx" [] = OK keys).
Proof.
  assert (H : forall fuel keys,
             extrapolateGroups fuel "($&, $&)/x.tsx" keys = Throw RangeError).
  { induction fuel as [| fuel IH]; intros keys; [reflexivity |].
    change (extrapolateGroups (S fuel) "($&, $&)/x.tsx" keys)
      with (let* k1 := extrapolateGroups fuel "($&, $&)/x.tsx" keys in
            let* k2 := extrapolateGroups fuel "($&, $&)/x.tsx" k1 in OK k2).
    now rewrite IH. }
  split; [reflexivity |].
  split; [repeat constructor; simpl; intuition discriminate |].
  split; [intros g Hg; simpl in Hg; destruct Hg as [<- | [<- | []]]; reflexivity |].
  split; [reflexivity |].
  split; [exact H |].
  intros [fuel [keys Hk]]. rewrite H in Hk. discriminate.
Qed.

(** C7 fails as stated: the directories of the two placements are [(a)] and
    [(b)]; the tree has no directory [a] or [b]. *)
Lemma group_directories_keep_parentheses :
  exists t,
    getDirectoryTree ios 2 ["./(a,b)/x.tsx"] defaultOptions = OK t
    /\ JS.mapGet t.(directoryTree).(subdirectories) "a" = None
    /\ JS.mapGet t.(directoryTree).(subdirectories) "b" = None
    /\ extrapolateGroups 2 "(a,b)/x.tsx" [] <> OK ["a/x.tsx"; "b/x.tsx"].
Proof.
  eexists. split; [reflexivity |]. repeat split. discriminate.
Qed.

(** C7, as the code has it: the file [(a,b)/x.tsx] expands to the keys
    [(a)/x.tsx] and [(b)/x.tsx] and is placed in exactly two directories,
    [(a)] and [(b)], under the view name [(a,b)/x]; both placements hold the
    same node, whose [contextKey] is the path of the file. *)
Theorem group_expansion_places_one_node_twice (env : Env) (fuel : nat) :
  extrapolateGroups (S (S fuel)) "(a,b)/x.tsx" [] = OK ["(a)/x.tsx"; "(b)/x.tsx"]
  /\ exists t node,
       getDirectoryTree env (S (S fuel)) ["./(a,b)/x.tsx"] defaultOptions = OK t
       /\ t.(directoryTree).(views) = []
       /\ t.(directoryTree).(subdirectories)
          = [ ("(a)", mkDirectoryNode None [("(a,b)/x", [Some 0])] []);
              ("(b)", mkDirectoryNode None [("(a,b)/x", [Some 0])] []) ]
       /\ nth_error t.(heap) 0 = Some node
       /\ node.(contextKey) = "./(a,b)/x.tsx".
Proof.
  split; [reflexivity |].
  destruct env as [os mode].
  unfold getDirectoryTree, processFile, placeView. cbn [NODE_ENV].
  generalize (String.eqb mode "production"). intros [|]; vm_compute;
    eexists; eexists; repeat split.
Qed.

(** ** The store under hoisting *)

Lemma nth_error_store_same (h : Heap) (r : Ref) (n x : RouteNode) :
  nth_error h r = Some x -> nth_error (store h r n) r = Some n.
Proof.
  revert r; induction h as [| y h IH]; intros [| r] H; simpl in *; try discriminate.
  - reflexivity.
  - now apply IH.
Qed.

Lemma nth_error_store_other (h : Heap) (r r' : Ref) (n : RouteNode) :
  r <> r' -> nth_error (store h r n) r' = nth_error h r'.
Proof.
  revert r r'; induction h as [| y h IH]; intros [| r] [| r'] H; simpl; try reflexivity.
  - contradiction.
  - apply IH. congruence.
Qed.

Lemma deref_OK (h : Heap) (r : Ref) (n : RouteNode) :
  deref h r = OK n -> nth_error h r = Some n.
Proof. unfold deref. destruct (nth_error h r); intros H; now inversion H. Qed.

Lemma keeps_refl (n : RouteNode) : keeps n n.
Proof. repeat split; [auto |]. exists []. now rewrite app_nil_r. Qed.

Lemma keeps_trans (a b c : RouteNode) : keeps a b -> keeps b c -> keeps a c.
Proof.
  intros [Hk [Hg [He [m Hm]]]] [Hk' [Hg' [He' [m' Hm']]]].
  repeat split; try congruence; [auto |].
  exists (m ++ m'). rewrite Hm', Hm. now rewrite app_assoc.
Qed.

Lemma grows_refl (h : Heap) : grows h h.
Proof. intros r n H. exists n. split; [assumption | apply keeps_refl]. Qed.

Lemma grows_trans (a b c : Heap) : grows a b -> grows b c -> grows a c.
Proof.
  intros Hab Hbc r n H.
  destruct (Hab r n H) as [n' [H' K]]. destruct (Hbc r n' H') as [n'' [H'' K']].
  exists n''. split; [assumption | eapply keeps_trans; eassumption].
Qed.

Lemma store_grows (h : Heap) (r : Ref) (p p' : RouteNode) :
  nth_error h r = Some p -> keeps p p' -> grows h (store h r p').
Proof.
  intros Hp K r' n H. destruct (Nat.eq_dec r r') as [<- | Hne].
  - exists p'. split; [eapply nth_error_store_same; eassumption |].
    rewrite Hp in H. inversion H; subst. assumption.
  - exists n. split; [now rewrite nth_error_store_other | apply keeps_refl].
Qed.

Lemma alloc_grows (h : Heap) (n : RouteNode) : grows h (snd (alloc h n)).
Proof.
  intros r x H. exists x. split; [| apply keeps_refl].
  simpl. rewrite nth_error_app1; [assumption |].
  apply nth_error_Some. congruence.
Qed.

Lemma keeps_pushChild (n : RouteNode) (c : Child) : keeps n (pushChild n c).
Proof. repeat split; [auto |]. now exists [c]. Qed.

(** Nothing can be removed from the empty route. *)
Lemma replace_of_empty (pat : string) : JS.replace "" pat "" = "".
Proof. unfold JS.replace. simpl. destruct (JS.dropPrefix pat "") eqn:E; [| reflexivity].
  apply dropPrefix_spec in E. destruct pat; [| discriminate]. simpl in E. now subst. Qed.

Lemma forEach_grows {A} (body : A -> Heap -> Result Heap) (l : list A) :
  (forall x h h', In x l -> body x h = OK h' -> grows h h') ->
  forall h h', forEach body l h = OK h' -> grows h h'.
Proof.
  induction l as [| x l IH]; intros Hbody h h' H; simpl in H.
  - inversion H. apply grows_refl.
  - unbind H as [h1 [H1 H2]].
    eapply grows_trans.
    + eapply Hbody; [now left | eassumption].
    + eapply IH; [| eassumption]. intros y a b Hy. apply Hbody. now right.
Qed.

(** Directories, by induction on their nesting. *)
Lemma DirectoryNode_nested_ind (P : DirectoryNode -> Prop) :
  (forall layout_ views_ subdirectories_,
     Forall (fun entry => P (snd entry)) subdirectories_ ->
     P (mkDirectoryNode layout_ views_ subdirectories_)) ->
  forall d, P d.
Proof.
  intros step. fix IH 1. intros [l v subs]. apply step.
  induction subs as [| [k d] subs IHs]; constructor; [apply IH | exact IHs].
Qed.

Section HoistFacts.
Context {M : Matchers}.

Lemma hoistLayout_grows (options : Options) (layout_ : list (option Ref))
    (parent : option Ref) (eps : list string) (pathToRemove : string) (h : Heap)
    (l : Ref) (eps' : list string) (pathToRemove' : string) (h' : Heap) :
  hoistLayout options layout_ parent eps pathToRemove h = OK (l, eps', pathToRemove', h') ->
  grows h h'.
Proof.
  unfold hoistLayout. intros H.
  unbind H as [[layout |] [_ H]]; [| discriminate].
  unbind H as [h1 [H1 H]].
  assert (G1 : grows h h1).
  { destruct parent as [parent |].
    - unbind H1 as [p [Hp H1]]. inversion H1; subst.
      eapply store_grows; [apply deref_OK; eassumption | apply keeps_pushChild].
    - inversion H1; subst. apply grows_refl. }
  unbind H as [p [Hp H]].
  eapply grows_trans; [exact G1 |].
  destruct (entryPoints (setDynamic _ _)) as [own |];
    inversion H; subst;
    (eapply store_grows; [apply deref_OK; eassumption |]);
    destruct options.(ignoreEntryPoints), options.(unstable_stripLoadRoute);
    repeat split;
    try (simpl; intros ->; apply replace_of_empty);
    exists []; simpl; now rewrite app_nil_r.
Qed.

Lemma hoistViews_grows (options : Options) (parent : Ref) (eps : list string)
    (pathToRemove : string) (routes : list (option Ref)) (h h' : Heap) :
  hoistViews options parent eps pathToRemove routes h = OK h' -> grows h h'.
Proof.
  unfold hoistViews. intros H.
  unbind H as [[v |] [_ H]]; [| discriminate].
  unbind H as [vn [_ H]].
  unbind H as [p [Hp H]]. inversion H; subst.
  eapply store_grows; [apply deref_OK; eassumption | apply keeps_pushChild].
Qed.

(** Hoisting keeps the identity of every object and only appends to its
    children. *)
Lemma hoist_grows (directory : DirectoryNode) :
  forall options parent eps pathToRemove h root h',
    hoistRoutesToNearestLayout directory options parent eps pathToRemove h = OK (root, h') ->
    grows h h'.
Proof.
  induction directory as [layout_ views_ subs IH] using DirectoryNode_nested_ind.
  intros options parent eps pathToRemove h root h' H. simpl in H.
  unbind H as [[[[parent1 eps1] ptr1] h1] [H1 H]].
  assert (G1 : grows h h1).
  { destruct layout_ as [layout_ |].
    - unbind H1 as [[[[l e] q] hh] [Hl H1]].
      inversion H1; subst. eapply hoistLayout_grows; eassumption.
    - inversion H1; subst. apply grows_refl. }
  destruct parent1 as [parent1 |]; [| inversion H; subst; exact G1].
  unbind H as [h2 [H2 H]].
  unbind H as [h3 [H3 H]]. inversion H; subst.
  eapply grows_trans; [exact G1 |]. eapply grows_trans.
  - eapply forEach_grows; [| exact H2].
    intros routes a b _. apply hoistViews_grows.
  - eapply forEach_grows; [| exact H3].
    intros child a b Hin Hb.
    unbind Hb as [[rt hh] [Hh Hb]]. inversion Hb; subst.
    rewrite Forall_forall in IH. eapply (IH child Hin). eassumption.
Qed.

End HoistFacts.

(** ** Route rewriting *)

Section RewriteFacts.
Context {M : Matchers}.

Lemma hoistView_route (options : Options) (eps : list string) (pathToRemove : string)
    (node : RouteNode) :
  (hoistView options eps pathToRemove node).(route)
  = JS.replace node.(route) pathToRemove "".
Proof.
  unfold hoistView.
  destruct options.(ignoreEntryPoints), options.(unstable_stripLoadRoute); reflexivity.
Qed.

Lemma hoistView_dynamic (options : Options) (eps : list string) (pathToRemove : string)
    (node : RouteNode) :
  (hoistView options eps pathToRemove node).(dynamic)
  = generateDynamic (JS.replace node.(route) pathToRemove "").
Proof.
  unfold hoistView.
  destruct options.(ignoreEntryPoints), options.(unstable_stripLoadRoute); reflexivity.
Qed.

(** What [hoistLayout] does to the layout it selects: the candidate chosen,
    its route before and after, and the prefix handed down. *)
Lemma hoistLayout_route (options : Options) (layout_ : list (option Ref))
    (parent : option Ref) (eps : list string) (pathToRemove : string) (h : Heap)
    (l : Ref) (eps' : list string) (pathToRemove' : string) (h' : Heap) :
  hoistLayout options layout_ parent eps pathToRemove h = OK (l, eps', pathToRemove', h') ->
  getMostSpecific layout_ h = OK (Some l)
  /\ exists p p',
       nth_error h l = Some p
       /\ nth_error h' l = Some p'
       /\ p'.(route) = JS.replace p.(route) pathToRemove ""
       /\ pathToRemove' = (if String.eqb p.(route) "" then "" else (p.(route) ++ "/")%string).
Proof.
  unfold hoistLayout. intros H.
  unbind H as [[layout |] [Hsel H]]; [| discriminate].
  unbind H as [h1 [H1 H]].
  unbind H as [p1 [Hp1 H]]. apply deref_OK in Hp1.
  assert (Hp : exists p, nth_error h layout = Some p /\ p.(route) = p1.(route)).
  { destruct parent as [parent |].
    - unbind H1 as [pp [Hpp H1]]. inversion H1; subst h1.
      apply deref_OK in Hpp.
      destruct (Nat.eq_dec parent layout) as [-> | Hne].
      + rewrite (nth_error_store_same _ _ _ _ Hpp) in Hp1. inversion Hp1; subst p1.
        exists pp. split; [assumption | reflexivity].
      + rewrite nth_error_store_other in Hp1 by assumption.
        exists p1. split; [assumption | reflexivity].
    - inversion H1; subst h1. exists p1. split; [assumption | reflexivity]. }
  destruct Hp as [p [Hp Hr]].
  destruct (entryPoints (setDynamic _ _)) as [own |];
    inversion H; subst; (split; [assumption |]);
    exists p; eexists; (split; [assumption |]);
    (split; [eapply nth_error_store_same; eassumption |]);
    rewrite Hr;
    destruct options.(ignoreEntryPoints), options.(unstable_stripLoadRoute);
    split; reflexivity.
Qed.

End RewriteFacts.

(** C1 fails as stated: below the layout [a], the view of [a/a/b.tsx] is
    hoisted to the route [a/b], which starts with the route [a] of its
    nearest layout. *)
Lemma hoisted_route_may_start_with_layout_route :
  exists root h a b,
    getRoutes ios 1 ["./_layout.tsx"; "./a/_layout.tsx"; "./a/a/b.tsx"] defaultOptions
    = OK (Some (root, h))
    /\ nth_error h 1 = Some a
    /\ a.(contextKey) = "./a/_layout.tsx"
    /\ a.(route) = "a"
    /\ In (View b) a.(children)
    /\ b.(contextKey) = "./a/a/b.tsx"
    /\ b.(route) = "a/b"
    /\ JS.startsWith b.(route) a.(route) = true.
Proof.
  eexists _, _, _, _.
  split; [vm_compute; reflexivity |].
  split; [reflexivity |].
  split; [reflexivity |].
  split; [reflexivity |].
  split; [left; reflexivity |].
  repeat split.
Qed.

(** The tree of the files [_layout.tsx], [a/_layout.tsx] and [a/b.tsx]. *)
Lemma three_files_tree (env : Env) (fuel : nat) :
  exists root h r la a b,
    getRoutes env (S fuel) ["./_layout.tsx"; "./a/_layout.tsx"; "./a/b.tsx"] defaultOptions
    = OK (Some (root, h))
    /\ nth_error h root = Some r
    /\ r.(contextKey) = "./_layout.tsx"
    /\ In (Layout la) r.(children)
    /\ nth_error h la = Some a
    /\ a.(contextKey) = "./a/_layout.tsx"
    /\ a.(route) = "a"
    /\ In (View b) a.(children)
    /\ b.(contextKey) = "./a/b.tsx"
    /\ b.(route) = "b".
Proof.
  destruct env as [os mode].
  unfold getRoutes, getDirectoryTree, processFile, placeView. cbn [NODE_ENV].
  generalize (String.eqb mode "production"). intros [|];
    (eexists _, _, _, _, _, _;
     split; [vm_compute; reflexivity |];
     split; [reflexivity |];
     split; [reflexivity |];
     split; [right; right; left; reflexivity |];
     split; [reflexivity |];
     split; [reflexivity |];
     split; [reflexivity |];
     split; [left; reflexivity |];
     split; reflexivity).
Qed.

(** ** The scan *)

Lemma forEach_invariant {A S} (Inv : S -> Prop) (body : A -> S -> Result S) (l : list A) :
  (forall x s s', In x l -> Inv s -> body x s = OK s' -> Inv s') ->
  forall s s', Inv s -> forEach body l s = OK s' -> Inv s'.
Proof.
  induction l as [| x l IH]; intros Hbody s s' Hs H; simpl in H.
  - inversion H; subst. exact Hs.
  - unbind H as [s1 [H1 H2]].
    eapply IH; [| | exact H2].
    + intros y a b Hy. apply Hbody. now right.
    + eapply Hbody; [now left | exact Hs | exact H1].
Qed.

Lemma forEach_invariant_In {A S} (Inv : S -> Prop) (body : A -> S -> Result S)
    (l : list A) (s s' : S) :
  (forall x a b, In x l -> Inv a -> body x a = OK b -> Inv b) ->
  Inv s -> forEach body l s = OK s' -> Inv s'.
Proof. intros Hbody. now apply forEach_invariant. Qed.

Lemma split_nonempty (s : string) (sep : ascii) : JS.split s sep <> [].
Proof.
  destruct s as [| c s]; simpl; [discriminate |].
  destruct (Ascii.eqb c sep); [discriminate |].
  destruct (JS.split s sep); discriminate.
Qed.

Lemma walk_root (d : DirectoryNode) (path : list string) :
  (walk d path).(layout) = d.(layout) /\ (walk d path).(views) = d.(views).
Proof. destruct path; simpl; split; reflexivity. Qed.

Lemma fold_walk_root (leaves : list (list string)) (d : DirectoryNode) :
  (fold_left walk leaves d).(layout) = d.(layout)
  /\ (fold_left walk leaves d).(views) = d.(views).
Proof.
  revert d; induction leaves as [| p leaves IH]; intros d; simpl; [split; reflexivity |].
  destruct (IH (walk d p)) as [Hl Hv]. destruct (walk_root d p) as [Hl' Hv'].
  split; congruence.
Qed.

(** A placement below the root leaves the root's own slots alone. *)
Lemma atLeaf_root (d : DirectoryNode) (path : list string)
    (f : DirectoryNode -> Result DirectoryNode) (d' : DirectoryNode) :
  atLeaf d path f = OK d' ->
  (path = [] /\ f d = OK d')
  \/ (path <> [] /\ d'.(layout) = d.(layout) /\ d'.(views) = d.(views)).
Proof.
  destruct path as [| part rest]; simpl; intros H.
  - left. split; [reflexivity | assumption].
  - right. unbind H as [c [_ H]]. inversion H; subst.
    split; [discriminate | split; reflexivity].
Qed.

Section BuildFacts.
Context {M : Matchers}.

Lemma extrapolateGroups_nonempty (fuel : nat) :
  forall key keys keys', extrapolateGroups fuel key keys = OK keys' -> keys' <> [].
Proof.
  assert (Hadd : forall keys k, JS.setAdd keys k <> []).
  { intros keys k E. pose proof (setAdd_In keys k) as Hin. rewrite E in Hin. destruct Hin. }
  induction fuel as [| fuel IH]; intros key keys keys' H; simpl in H; [discriminate |].
  destruct (truthy (matchGroupName key)) as [m |].
  - destruct (negb _); [discriminate |].
    destruct (Nat.eqb _ 1).
    + inversion H. apply Hadd.
    + pose proof (split_nonempty m ",") as Hne.
      destruct (JS.split m ",") as [| g gs]; [contradiction |].
      simpl in H. unbind H as [k1 [H1 H2]].
      apply IH in H1.
      assert (Hincl : incl k1 keys').
      { eapply forEach_incl; [| exact H2]. intros y a b _. apply extrapolateGroups_incl. }
      intros E. subst keys'. destruct k1 as [| x k1]; [contradiction |].
      destruct (Hincl x (or_introl eq_refl)).
  - inversion H. apply Hadd.
Qed.

(** What one turn of the scan does, by what it finds in the file. *)
Lemma processFile_cases (env : Env) (options : Options) (fuel : nat) (filePath : string)
    (st st' : DirectoryTree) :
  processFile env options fuel (getIgnoreList options) filePath st = OK st' ->
  (found env options filePath = FoundNothing /\ st' = st)
  \/ exists meta keys,
       getFileMeta env filePath options = OK meta
       /\ extrapolateGroups fuel meta.(FileMeta.key) [] = OK keys
       /\ st'.(heap) = st.(heap) ++ [fileNode options filePath meta]
       /\ ((found env options filePath = FoundLayout
            /\ forEach (fun leaf d =>
                          atLeaf d leaf
                            (placeLayout st'.(heap) filePath meta (length st.(heap))))
                 (map (subdirectoryParts meta) keys)
                 (fold_left walk (map (subdirectoryParts meta) keys) st.(directoryTree))
               = OK st'.(directoryTree)
            /\ st'.(hasLayout) = true /\ st'.(hasRoutes) = st.(hasRoutes))
           \/ (found env options filePath = FoundNothing
               /\ st'.(directoryTree)
                  = fold_left walk (map (subdirectoryParts meta) keys) st.(directoryTree)
               /\ st'.(hasLayout) = st.(hasLayout) /\ st'.(hasRoutes) = st.(hasRoutes))
           \/ (found env options filePath = FoundView
               /\ forEach (fun leaf d =>
                             atLeaf d leaf
                               (placeView env options st'.(heap) filePath meta
                                  (length st.(heap))))
                    (map (subdirectoryParts meta) keys)
                    (fold_left walk (map (subdirectoryParts meta) keys) st.(directoryTree))
                  = OK st'.(directoryTree)
               /\ st'.(hasRoutes) = true /\ st'.(hasLayout) = st.(hasLayout))).
Proof.
  unfold processFile, found. intros H.
  destruct (existsb _ (getIgnoreList options)).
  { inversion H. left. split; reflexivity. }
  unbind H as [meta [Hmeta H]]. rewrite Hmeta.
  destruct (meta.(FileMeta.specificity) <? 0)%Z.
  { inversion H. left. split; reflexivity. }
  unbind H as [keys [Hkeys H]].
  right. exists meta, keys. split; [reflexivity |]. split; [assumption |].
  assert (Hlen : Nat.ltb 0 (length (map (subdirectoryParts meta) keys)) = true).
  { rewrite length_map. apply extrapolateGroups_nonempty in Hkeys.
    destruct keys; [contradiction | reflexivity]. }
  unfold alloc in H. rewrite Hlen, !orb_true_r in H.
  destruct meta.(FileMeta.isLayout).
  - unbind H as [d [Hd H]]. inversion H; subst; simpl.
    split; [reflexivity |]. left. repeat split. assumption.
  - destruct meta.(FileMeta.isApi).
    + inversion H; subst; simpl. split; [reflexivity |]. right; left. repeat split.
    + unbind H as [d [Hd H]]. inversion H; subst; simpl.
      split; [reflexivity |]. right; right. repeat split. assumption.
Qed.

End BuildFacts.

(** ** What the scan leaves at the root *)

Lemma nth_error_alloc_old (h : Heap) (n x : RouteNode) (r : Ref) :
  nth_error h r = Some x -> nth_error (h ++ [n]) r = Some x.
Proof.
  intros H. rewrite nth_error_app1; [assumption |].
  apply nth_error_Some. congruence.
Qed.

Lemma nth_error_alloc_new (h : Heap) (n : RouteNode) :
  nth_error (h ++ [n]) (length h) = Some n.
Proof. rewrite nth_error_app2, Nat.sub_diag by lia. reflexivity. Qed.

Lemma viewsNamed_alloc (h : Heap) (n : RouteNode) views_ :
  viewsNamed h views_ -> viewsNamed (h ++ [n]) views_.
Proof.
  intros H k arr v Hk Hv. destruct (H k arr v Hk Hv) as [x [Hx Hr]].
  exists x. split; [now apply nth_error_alloc_old | assumption].
Qed.

Lemma viewsNamed_set (h : Heap) views_ (k : string) (i : nat) (node : Ref) (n : RouteNode) :
  viewsNamed h views_ ->
  nth_error h node = Some n -> n.(route) = k ->
  viewsNamed h
    (JS.mapSet views_ k
       (JS.assign (match JS.mapGet views_ k with Some nodes => nodes | None => [] end) i node)).
Proof.
  intros H Hn Hr k' arr v Hk Hv.
  apply In_mapSet in Hk. destruct Hk as [[-> ->] | Hk]; [| eapply H; eassumption].
  apply In_assign in Hv. destruct Hv as [-> | Hv]; [now exists n |].
  destruct (JS.mapGet views_ k) as [nodes |] eqn:E; [| destruct Hv].
  apply mapGet_In in E. eapply H; eassumption.
Qed.

Lemma viewsNamed_store (h : Heap) views_ (l : Ref) (p p' : RouteNode) :
  viewsNamed h views_ ->
  nth_error h l = Some p -> p'.(route) = p.(route) ->
  viewsNamed (store h l p') views_.
Proof.
  intros H Hp Hr k arr v Hk Hv. destruct (H k arr v Hk Hv) as [n [Hn Hroute]].
  destruct (Nat.eq_dec l v) as [<- | Hne].
  - exists p'. split; [eapply nth_error_store_same; eassumption |].
    rewrite Hp in Hn. inversion Hn; subst. congruence.
  - exists n. split; [now rewrite nth_error_store_other | assumption].
Qed.

Lemma placeLayout_OK (h : Heap) (filePath : string) (meta : FileMeta.t) (node : Ref)
    (leaf leaf' : DirectoryNode) :
  placeLayout h filePath meta node leaf = OK leaf' ->
  leaf' = setLayout leaf
            (Some (JS.assign (match leaf.(layout) with Some l => l | None => [] end)
                     (Z.to_nat meta.(FileMeta.specificity)) node)).
Proof.
  unfold placeLayout. destruct (JS.at_ _ _) as [existing |].
  - destruct (deref h existing); discriminate.
  - intros H. now inversion H.
Qed.

Lemma placeView_OK (env : Env) (options : Options) (h : Heap) (filePath : string)
    (meta : FileMeta.t) (node : Ref) (leaf leaf' : DirectoryNode) :
  placeView env options h filePath meta node leaf = OK leaf' ->
  leaf' = setViews leaf
            (JS.mapSet leaf.(views) meta.(FileMeta.name)
               (JS.assign
                  (match JS.mapGet leaf.(views) meta.(FileMeta.name) with
                   | Some nodes => nodes
                   | None => []
                   end)
                  (Z.to_nat meta.(FileMeta.specificity)) node)).
Proof.
  unfold placeView. destruct (String.eqb _ "production").
  - intros H. now inversion H.
  - destruct (JS.at_ _ _) as [existing |].
    + destruct options.(unstable_improvedErrorMessages); [| discriminate].
      destruct (deref h existing); discriminate.
    + intros H. now inversion H.
Qed.

Section RootFacts.
Context {M : Matchers}.
Variables (env : Env) (options : Options) (fuel : nat) (contextModule : RequireContext).

Lemma layoutsFrom_alloc (h : Heap) (n : RouteNode) layout_ :
  layoutsFrom env options contextModule h layout_ ->
  layoutsFrom env options contextModule (h ++ [n]) layout_.
Proof.
  intros H arr l Ha Hl. destruct (H arr l Ha Hl) as [x [Hx Hlay]].
  exists x. split; [now apply nth_error_alloc_old | assumption].
Qed.

Lemma rootSound_alloc (h : Heap) (n : RouteNode) (d : DirectoryNode) :
  rootSound env options contextModule h d ->
  rootSound env options contextModule (h ++ [n]) d.
Proof.
  intros [Hv Hl]. split; [now apply viewsNamed_alloc | now apply layoutsFrom_alloc].
Qed.

Lemma rootSound_same_slots (h : Heap) (d d' : DirectoryNode) :
  d'.(layout) = d.(layout) -> d'.(views) = d.(views) ->
  rootSound env options contextModule h d -> rootSound env options contextModule h d'.
Proof. unfold rootSound. intros -> ->. tauto. Qed.

Lemma processFile_rootSound (filePath : string) (st st' : DirectoryTree) :
  In filePath contextModule ->
  rootSound env options contextModule st.(heap) st.(directoryTree) ->
  processFile env options fuel (getIgnoreList options) filePath st = OK st' ->
  rootSound env options contextModule st'.(heap) st'.(directoryTree).
Proof.
  intros Hin Hst H. apply processFile_cases in H.
  destruct H as [[_ ->] | [meta [keys [Hmeta [Hkeys [Hheap H]]]]]]; [assumption |].
  assert (H0 : rootSound env options contextModule st'.(heap)
                 (fold_left walk (map (subdirectoryParts meta) keys) st.(directoryTree))).
  { rewrite Hheap. apply rootSound_alloc.
    destruct (fold_walk_root (map (subdirectoryParts meta) keys) st.(directoryTree)).
    eapply rootSound_same_slots; eassumption. }
  assert (Hnode : nth_error st'.(heap) (length st.(heap))
                  = Some (fileNode options filePath meta)).
  { rewrite Hheap. apply nth_error_alloc_new. }
  destruct H as [[Hfound [H _]] | [[_ [-> _]] | [Hfound [H _]]]]; [| assumption |].
  - eapply (forEach_invariant (rootSound env options contextModule st'.(heap)));
      [| exact H0 | exact H].
    intros leaf d d' _ Hd Hplace. apply atLeaf_root in Hplace.
    destruct Hplace as [[_ Hplace] | [_ [Hl Hv]]];
      [| eapply rootSound_same_slots; eassumption].
    apply placeLayout_OK in Hplace. subst d'. destruct Hd as [Hv Hl].
    split; [exact Hv |]. simpl. intros arr l Harr Hl'. inversion Harr; subst arr.
    apply In_assign in Hl'. destruct Hl' as [-> | Hl'].
    + exists (fileNode options filePath meta). split; [assumption |].
      right. simpl. repeat split; assumption.
    + destruct d.(layout) as [layout_ |] eqn:E; [| destruct Hl'].
      eapply Hl; [reflexivity | eassumption].
  - eapply (forEach_invariant (rootSound env options contextModule st'.(heap)));
      [| exact H0 | exact H].
    intros leaf d d' _ Hd Hplace. apply atLeaf_root in Hplace.
    destruct Hplace as [[_ Hplace] | [_ [Hl Hv]]];
      [| eapply rootSound_same_slots; eassumption].
    apply placeView_OK in Hplace. subst d'. destruct Hd as [Hv Hl].
    split; [| exact Hl]. simpl.
    eapply viewsNamed_set; [exact Hv | exact Hnode | reflexivity].
Qed.

(** The flags say what the scan found. *)
Lemma scan_flags (files : list string) :
  forall st st',
    forEach (processFile env options fuel (getIgnoreList options)) files st = OK st' ->
    st'.(hasLayout)
    = st.(hasLayout) || existsb (fun f => isFoundLayout (found env options f)) files
    /\ st'.(hasRoutes)
       = st.(hasRoutes) || existsb (fun f => isFoundView (found env options f)) files.
Proof.
  induction files as [| f files IH]; intros st st' H; simpl in H |- *.
  - inversion H. now rewrite !orb_false_r.
  - unbind H as [st1 [H1 H2]].
    destruct (IH _ _ H2) as [Hl Hr]. rewrite Hl, Hr.
    apply processFile_cases in H1.
    destruct H1 as [[Hf ->] | [meta [keys [_ [_ [_ H1]]]]]].
    + rewrite Hf. simpl. split; reflexivity.
    + destruct H1 as [[Hf [_ [Hl1 Hr1]]] | [[Hf [_ [Hl1 Hr1]]] | [Hf [_ [Hr1 Hl1]]]]];
        rewrite Hf, Hl1, Hr1; simpl; rewrite ?orb_true_r, ?orb_false_r; split; reflexivity.
Qed.

End RootFacts.

(** ** The tree [getRoutes] returns *)

Lemma In_mapSet_fresh {V} (m : list (string * V)) (k0 : string) (v0 : V) (k : string) (v : V) :
  JS.mapGet m k0 = None -> In (k, v) m -> In (k, v) (JS.mapSet m k0 v0).
Proof.
  induction m as [| [k' v'] m IH]; simpl; [intros _ [] |].
  destruct (String.eqb k0 k') eqn:E; [discriminate |].
  intros Hget [H | H]; [now left | right; now apply IH].
Qed.

Section TreeFacts.
Context {M : Matchers}.

Lemma getMostSpecific_In (routes : list (option Ref)) (h : Heap) (v : Ref) :
  getMostSpecific routes h = OK (Some v) -> In (Some v) routes.
Proof.
  unfold getMostSpecific. destruct (JS.at_ routes 0).
  - intros H. injection H as Hl. now apply lastElement_In.
  - destruct (JS.lastElement routes) as [r |]; [| discriminate].
    destruct (deref h r); discriminate.
Qed.

(** The root directory has a layout once the scan is over. *)
Lemma getDirectoryTree_root (env : Env) (fuel : nat) (contextModule : RequireContext)
    (options : Options) (t : DirectoryTree) :
  getDirectoryTree env fuel contextModule options = OK t ->
  rootSound env options contextModule t.(heap) t.(directoryTree)
  /\ (exists arr, t.(directoryTree).(layout) = Some arr)
  /\ t.(hasLayout) = existsb (fun f => isFoundLayout (found env options f)) contextModule
  /\ t.(hasRoutes) = existsb (fun f => isFoundView (found env options f)) contextModule.
Proof.
  unfold getDirectoryTree. intros H.
  unbind H as [st [Hscan H]].
  pose proof (scan_flags env options fuel contextModule _ _ Hscan) as [Hl Hr].
  simpl in Hl, Hr.
  assert (Hsound : rootSound env options contextModule st.(heap) st.(directoryTree)).
  { eapply (forEach_invariant
              (fun s => rootSound env options contextModule s.(heap) s.(directoryTree)));
      [| | exact Hscan].
    - intros f s s' Hf Hs Hstep. eapply processFile_rootSound; eassumption.
    - split; simpl.
      + intros k arr v [].
      + intros arr l Harr. discriminate. }
  destruct st.(directoryTree).(layout) as [arr |] eqn:E.
  - inversion H; subst. split; [assumption |]. split; [now exists arr |]. now split.
  - inversion H; subst; simpl. split; [| split; [eexists; reflexivity | now split]].
    destruct Hsound as [Hv _]. split; simpl.
    + now apply viewsNamed_alloc.
    + intros arr l Harr Hin. inversion Harr; subst arr.
      destruct Hin as [Hin | []]. inversion Hin; subst l.
      exists defaultLayout. split; [apply nth_error_alloc_new |].
      left. split; reflexivity.
Qed.

Lemma layoutsFrom_grows (env : Env) (options : Options) (contextModule : RequireContext)
    (h h' : Heap) layout_ :
  grows h h' ->
  layoutsFrom env options contextModule h layout_ ->
  layoutsFrom env options contextModule h' layout_.
Proof.
  intros G H arr l Harr Hl. destruct (H arr l Harr Hl) as [n [Hn Hlay]].
  destruct (G l n Hn) as [n' [Hn' [Hk [Hg _]]]].
  exists n'. split; [assumption |]. unfold layoutNode in *. rewrite Hk, Hg. assumption.
Qed.

Lemma appendSitemapRoute_root (env : Env) (options : Options)
    (contextModule : RequireContext) (d d' : DirectoryNode) (h h' : Heap) :
  appendSitemapRoute d h = (d', h') ->
  rootSound env options contextModule h d ->
  rootSound env options contextModule h' d'
  /\ d'.(layout) = d.(layout)
  /\ (exists arr, In ("_sitemap", arr) d'.(views))
  /\ (forall k arr, In (k, arr) d.(views) -> In (k, arr) d'.(views)).
Proof.
  unfold appendSitemapRoute. intros H [Hv Hl].
  destruct (JS.mapHas d.(views) "_sitemap") eqn:E.
  - inversion H; subst. split; [now split |]. split; [reflexivity |].
    split; [now apply mapHas_In | auto].
  - inversion H; subst; simpl. unfold JS.mapHas in E.
    destruct (JS.mapGet d.(views) "_sitemap") eqn:G; [discriminate |].
    split; [split; simpl |].
    + intros k arr v Hk Hin. apply In_mapSet in Hk. destruct Hk as [[-> ->] | Hk].
      * destruct Hin as [Hin | []]. inversion Hin; subst v.
        exists sitemapRoute. split; [apply nth_error_alloc_new | reflexivity].
      * eapply viewsNamed_alloc; eassumption.
    + now apply layoutsFrom_alloc.
    + split; [reflexivity |]. split; [eexists; apply mapSet_In |].
      intros k arr Hk. now apply In_mapSet_fresh.
Qed.

Lemma appendNotFoundRoute_root (env : Env) (options : Options)
    (contextModule : RequireContext) (d d' : DirectoryNode) (h h' : Heap) :
  appendNotFoundRoute d h = (d', h') ->
  rootSound env options contextModule h d ->
  rootSound env options contextModule h' d'
  /\ d'.(layout) = d.(layout)
  /\ (exists arr, In ("+not-found", arr) d'.(views))
  /\ (forall k arr, In (k, arr) d.(views) -> In (k, arr) d'.(views)).
Proof.
  unfold appendNotFoundRoute. intros H [Hv Hl].
  destruct (JS.mapHas d.(views) "+not-found") eqn:E.
  - inversion H; subst. split; [now split |]. split; [reflexivity |].
    split; [now apply mapHas_In | auto].
  - inversion H; subst; simpl. unfold JS.mapHas in E.
    destruct (JS.mapGet d.(views) "+not-found") eqn:G; [discriminate |].
    split; [split; simpl |].
    + intros k arr v Hk Hin. apply In_mapSet in Hk. destruct Hk as [[-> ->] | Hk].
      * destruct Hin as [Hin | []]. inversion Hin; subst v.
        exists notFoundRoute. split; [apply nth_error_alloc_new | reflexivity].
      * eapply viewsNamed_alloc; eassumption.
    + now apply layoutsFrom_alloc.
    + split; [reflexivity |]. split; [eexists; apply mapSet_In |].
      intros k arr Hk. now apply In_mapSet_fresh.
Qed.

(** The loop over the views gives the layout one child per view name. *)
Lemma hoistViews_children (options : Options) (l : Ref) (eps : list string)
    (pathToRemove : string) (entries : list (string * list (option Ref))) :
  forall h h',
    viewsNamed h entries ->
    forEach (hoistViews options l eps pathToRemove) (JS.mapValues entries) h = OK h' ->
    forall k arr, In (k, arr) entries ->
      exists child p,
        nth_error h' l = Some p
        /\ In (View child) p.(children)
        /\ child.(route) = JS.replace k pathToRemove ""
        /\ child.(dynamic) = generateDynamic (JS.replace k pathToRemove "").
Proof.
  induction entries as [| [k0 arr0] entries IH]; intros h h' Hnamed H k arr Hin;
    [destruct Hin |].
  simpl in H. unbind H as [h1 [H1 H2]].
  unfold hoistViews in H1.
  unbind H1 as [[v |] [Hsel H1]]; [| discriminate].
  unbind H1 as [n [Hn H1]]. apply deref_OK in Hn.
  unbind H1 as [p [Hp H1]]. apply deref_OK in Hp.
  inversion H1; subst h1. clear H1.
  destruct Hin as [Hin | Hin].
  - inversion Hin; subst k0 arr0.
    assert (G : grows (store h l (pushChild p (View (hoistView options eps pathToRemove n)))) h').
    { eapply forEach_grows; [| exact H2]. intros x a b _. apply hoistViews_grows. }
    destruct (G l _ (nth_error_store_same _ _ _ _ Hp)) as [p' [Hp' [_ [_ [_ [more Hmore]]]]]].
    destruct (Hnamed k arr v (or_introl eq_refl) (getMostSpecific_In _ _ _ Hsel))
      as [n' [Hn' Hroute]].
    rewrite Hn in Hn'. inversion Hn'; subst n'.
    exists (hoistView options eps pathToRemove n), p'.
    split; [assumption |]. split.
    + rewrite Hmore. simpl. apply in_or_app. left. apply in_or_app. right. now left.
    + rewrite hoistView_route, hoistView_dynamic, Hroute. split; reflexivity.
  - eapply IH; [| exact H2 | exact Hin].
    eapply viewsNamed_store; [| exact Hp | reflexivity].
    intros k' arr' v' Hk'. apply Hnamed. now right.
Qed.

(** At the root nothing is removed from a route, and the selected layout is
    the only object touched. *)
Lemma hoistLayout_at_root (options : Options) (layout_ : list (option Ref))
    (h : Heap) (l : Ref) (eps' : list string) (pathToRemove' : string) (h' : Heap) :
  hoistLayout options layout_ None [] "" h = OK (l, eps', pathToRemove', h') ->
  In (Some l) layout_
  /\ exists p p',
       nth_error h l = Some p
       /\ h' = store h l p'
       /\ p'.(route) = p.(route)
       /\ pathToRemove' = (if String.eqb p.(route) "" then "" else (p.(route) ++ "/")%string).
Proof.
  unfold hoistLayout. intros H.
  unbind H as [[layout |] [Hsel H]]; [| discriminate].
  simpl in H. unbind H as [p [Hp H]]. apply deref_OK in Hp.
  destruct (entryPoints p) as [own |];
    inversion H; subst;
    (split; [eapply getMostSpecific_In; eassumption |]);
    exists p; eexists; (split; [assumption |]); (split; [reflexivity |]);
    destruct options.(ignoreEntryPoints), options.(unstable_stripLoadRoute);
    simpl; rewrite replace_empty; split; reflexivity.
Qed.

(** A name without a slash is its own route below the root layout. *)
Lemma root_view_route (layoutRoute k : string) :
  hasChar "/" k = false ->
  JS.replace k (if String.eqb layoutRoute "" then "" else (layoutRoute ++ "/")%string) "" = k.
Proof.
  intros Hk. destruct (String.eqb layoutRoute "").
  - apply replace_empty.
  - apply (replace_absent "/"); [| assumption].
    rewrite hasChar_app. simpl. apply orb_true_r.
Qed.

(** What a returned tree is made of. *)
Lemma getRoutes_tree (env : Env) (fuel : nat) (contextModule : RequireContext)
    (options : Options) (root : Ref) (h : Heap) :
  getRoutes env fuel contextModule options = OK (Some (root, h)) ->
  exists t arr n r,
    getDirectoryTree env fuel contextModule options = OK t
    /\ t.(directoryTree).(layout) = Some arr
    /\ In (Some root) arr
    /\ nth_error t.(heap) root = Some n
    /\ layoutNode env options contextModule n
    /\ nth_error h root = Some r
    /\ keeps n r
    /\ (exists child,
          In (View child) r.(children)
          /\ child.(route) = "+not-found"
          /\ child.(dynamic) = Some [notFoundConvention])
    /\ (t.(hasRoutes) || options.(unstable_alwaysIncludeSitemap) = true ->
        exists child, In (View child) r.(children) /\ child.(route) = "_sitemap").
Proof.
  unfold getRoutes. intros H.
  unbind H as [t [Ht H]].
  destruct (getDirectoryTree_root _ _ _ _ _ Ht) as [Hsound [[arr Harr] _]].
  destruct (negb t.(hasLayout) && negb t.(hasRoutes)); [discriminate |].
  set (cond := t.(hasRoutes) || options.(unstable_alwaysIncludeSitemap)) in *.
  destruct (if cond then appendSitemapRoute t.(directoryTree) t.(heap)
            else (t.(directoryTree), t.(heap))) as [d1 h1] eqn:E1.
  assert (S1 : rootSound env options contextModule h1 d1
               /\ d1.(layout) = Some arr
               /\ (cond = true -> exists a, In ("_sitemap", a) d1.(views))
               /\ grows t.(heap) h1).
  { destruct cond.
    - destruct (appendSitemapRoute_root env options contextModule _ _ _ _ E1 Hsound)
        as [Hs [Hl [Hsm _]]].
      split; [assumption |]. split; [congruence |]. split; [auto |].
      unfold appendSitemapRoute in E1. destruct (JS.mapHas _ _); inversion E1; subst.
      + apply grows_refl.
      + apply (alloc_grows t.(heap) sitemapRoute).
    - inversion E1; subst. split; [assumption |]. split; [assumption |].
      split; [discriminate | apply grows_refl]. }
  destruct S1 as [Hs1 [Hl1 [Hsm1 G1]]].
  destruct (appendNotFoundRoute d1 h1) as [d2 h2] eqn:E2.
  destruct (appendNotFoundRoute_root env options contextModule _ _ _ _ E2 Hs1)
    as [Hs2 [Hl2 [[nfarr Hnf] Hkeep]]].
  assert (G2 : grows h1 h2).
  { unfold appendNotFoundRoute in E2. destruct (JS.mapHas _ _); inversion E2; subst.
    - apply grows_refl.
    - apply (alloc_grows h1 notFoundRoute). }
  unbind H as [[root' h'] [Hh H]].
  destruct root' as [root' |]; inversion H; subst root' h'. clear H.
  destruct d2 as [layout2 views2 subs2]. simpl in Hl2, Hnf, Hkeep, Hs2.
  rewrite Hl1 in Hl2. subst layout2.
  simpl in Hh. unbind Hh as [[[[parent1 eps1] ptr1] h3] [H3 Hh]].
  unbind H3 as [[[[l e] q] hh] [Hlay H3]].
  inversion H3; subst parent1 eps1 ptr1 h3. clear H3.
  unbind Hh as [h4 [H4 Hh]].
  unbind Hh as [h5 [H5 Hh]]. inversion Hh; subst l h5. clear Hh.
  assert (G5 : grows h4 h).
  { eapply forEach_grows; [| exact H5].
    intros child a b _ Hb. unbind Hb as [[rt x] [Hx Hb]].
    inversion Hb; subst. eapply hoist_grows; eassumption. }
  pose proof (hoistLayout_grows _ _ _ _ _ _ _ _ _ _ Hlay) as G3.
  apply hoistLayout_at_root in Hlay.
  destruct Hlay as [Hin [p [p' [Hp [-> [Hroute ->]]]]]].
  destruct Hs2 as [Hv2 Hl2].
  destruct (Hl2 arr root eq_refl Hin) as [n2 [Hn2 Hlayout]].
  rewrite Hp in Hn2. inversion Hn2; subst n2. clear Hn2.
  assert (Hviews : viewsNamed (store h2 root p') views2).
  { eapply viewsNamed_store; eassumption. }
  assert (G4 : grows (store h2 root p') h4).
  { eapply forEach_grows; [| exact H4]. intros x a b _. apply hoistViews_grows. }
  (* the node of the root before the synthetic views were added *)
  assert (Hn0 : exists n0, nth_error t.(heap) root = Some n0 /\ keeps n0 p).
  { destruct Hsound as [_ Hl0].
    destruct (Hl0 arr root Harr Hin) as [n0 [Hn0 _]].
    destruct (grows_trans _ _ _ G1 G2 root n0 Hn0) as [x [Hx Hk]].
    rewrite Hp in Hx. inversion Hx; subst x. now exists n0. }
  destruct Hn0 as [n0 [Hn0 Hk0]].
  destruct (grows_trans _ _ _ G3 (grows_trans _ _ _ G4 G5) root p Hp) as [r [Hr Hkr]].
  assert (Hlay0 : layoutNode env options contextModule n0).
  { destruct Hk0 as [Hc [Hg _]]. unfold layoutNode in *. rewrite <- Hc, <- Hg. assumption. }
  exists t, arr, n0, r.
  split; [exact Ht |]. split; [assumption |]. split; [assumption |].
  split; [assumption |]. split; [assumption |]. split; [assumption |].
  split; [eapply keeps_trans; eassumption |].
  assert (Hchild : forall k a, In (k, a) views2 -> hasChar "/" k = false ->
            exists child, In (View child) r.(children)
                          /\ child.(route) = k /\ child.(dynamic) = generateDynamic k).
  { intros k a Hk Hslash.
    destruct (hoistViews_children _ _ _ _ _ _ _ Hviews H4 k a Hk)
      as [child [p4 [Hp4 [Hc [Hcr Hcd]]]]].
    destruct (G5 root p4 Hp4) as [r' [Hr' [_ [_ [_ [more Hmore]]]]]].
    rewrite Hr in Hr'. inversion Hr'; subst r'.
    exists child. split; [rewrite Hmore; apply in_or_app; now left |].
    rewrite Hcr, Hcd, (root_view_route _ k Hslash). split; reflexivity. }
  split.
  - destruct (Hchild "+not-found" nfarr Hnf eq_refl) as [child [Hc [Hcr Hcd]]].
    exists child. split; [assumption |]. split; [assumption |].
    rewrite Hcd. apply generateDynamic_notFound.
  - intros Hcond. destruct (Hsm1 Hcond) as [a Ha].
    destruct (Hchild "_sitemap" a (Hkeep _ _ Ha) eq_refl) as [child [Hc [Hcr _]]].
    exists child. split; assumption.
Qed.

End TreeFacts.

Section ResultFacts.
Context {M : Matchers}.

Lemma hoist_with_layout (directory : DirectoryNode) (options : Options)
    (parent : option Ref) (eps : list string) (pathToRemove : string) (h : Heap)
    (root : option Ref) (h' : Heap) :
  directory.(layout) <> None ->
  hoistRoutesToNearestLayout directory options parent eps pathToRemove h = OK (root, h') ->
  root <> None.
Proof.
  destruct directory as [[arr |] views_ subs]; simpl; intros Hl H; [| contradiction].
  unbind H as [[[[parent1 eps1] ptr1] h1] [H1 H]].
  unbind H1 as [[[[l e] q] hh] [_ H1]]. inversion H1; subst.
  unbind H as [h2 [_ H]].
  unbind H as [h3 [_ H]]. inversion H. discriminate.
Qed.

Lemma appendSitemapRoute_layout (d : DirectoryNode) (h : Heap) :
  (fst (appendSitemapRoute d h)).(layout) = d.(layout).
Proof. unfold appendSitemapRoute. destruct (JS.mapHas _ _); reflexivity. Qed.

Lemma appendNotFoundRoute_layout (d : DirectoryNode) (h : Heap) :
  (fst (appendNotFoundRoute d h)).(layout) = d.(layout).
Proof. unfold appendNotFoundRoute. destruct (JS.mapHas _ _); reflexivity. Qed.

(** [getRoutes] returns [null] exactly when both flags of the scan are
    down. *)
Lemma getRoutes_null (env : Env) (fuel : nat) (contextModule : RequireContext)
    (options : Options) (result : option (Ref * Heap)) :
  getRoutes env fuel contextModule options = OK result ->
  exists t,
    getDirectoryTree env fuel contextModule options = OK t
    /\ (result = None <-> t.(hasLayout) = false /\ t.(hasRoutes) = false).
Proof.
  unfold getRoutes. intros H.
  unbind H as [t [Ht H]]. exists t. split; [assumption |].
  destruct (getDirectoryTree_root _ _ _ _ _ Ht) as [_ [[arr Harr] _]].
  destruct (negb t.(hasLayout) && negb t.(hasRoutes)) eqn:Hflags.
  - inversion H; subst. split; [| reflexivity]. intros _.
    apply andb_true_iff in Hflags. destruct Hflags as [Hl Hr].
    apply negb_true_iff in Hl. apply negb_true_iff in Hr. now split.
  - destruct (if t.(hasRoutes) || options.(unstable_alwaysIncludeSitemap)
              then appendSitemapRoute t.(directoryTree) t.(heap)
              else (t.(directoryTree), t.(heap))) as [d1 h1] eqn:E1.
    assert (Hd1 : d1.(layout) = Some arr).
    { destruct (t.(hasRoutes) || options.(unstable_alwaysIncludeSitemap)).
      - pose proof (appendSitemapRoute_layout t.(directoryTree) t.(heap)) as Hs.
        rewrite E1 in Hs. simpl in Hs. congruence.
      - inversion E1; subst. assumption. }
    destruct (appendNotFoundRoute d1 h1) as [d2 h2] eqn:E2.
    assert (Hd2 : d2.(layout) <> None).
    { pose proof (appendNotFoundRoute_layout d1 h1) as Hs.
      rewrite E2 in Hs. simpl in Hs. congruence. }
    unbind H as [[root h'] [Hh H]].
    apply hoist_with_layout in Hh; [| assumption].
    destruct root as [root |]; [| contradiction].
    inversion H; subst. split; [discriminate |].
    intros [Hl Hr]. rewrite Hl, Hr in Hflags. discriminate.
Qed.

Lemma found_nothing (env : Env) (options : Options) (files : list string) :
  existsb (fun f => isFoundLayout (found env options f)) files = false
  /\ existsb (fun f => isFoundView (found env options f)) files = false
  <-> forall f, In f files -> found env options f = FoundNothing.
Proof.
  induction files as [| f files IH]; simpl.
  - split; [intros _ f [] | split; reflexivity].
  - rewrite !orb_false_iff. split.
    + intros [[Hl Hls] [Hv Hvs]] g [<- | Hg].
      * destruct (found env options f); simpl in *; congruence.
      * apply IH; [split; assumption | assumption].
    + intros H. pose proof (H f (or_introl eq_refl)) as Hf.
      destruct (proj2 IH (fun g Hg => H g (or_intror Hg))) as [Hls Hvs].
      rewrite Hf. simpl. repeat split; assumption.
Qed.

(** A scan that meets no root layout file leaves the root without a
    layout. *)
Lemma scan_without_root_layout (env : Env) (options : Options) (fuel : nat)
    (files : list string) :
  forall st st',
    forEach (processFile env options fuel (getIgnoreList options)) files st = OK st' ->
    (forall f, In f files -> rootLayoutFile env options fuel f = false) ->
    st.(directoryTree).(layout) = None ->
    st'.(directoryTree).(layout) = None.
Proof.
  intros st st' H Hfiles Hst.
  eapply (forEach_invariant_In (fun s => s.(directoryTree).(layout) = None));
    [| exact Hst | exact H].
  intros f s s' Hf Hs Hstep. apply processFile_cases in Hstep.
  destruct Hstep as [[_ ->] | [meta [keys [Hmeta [Hkeys [_ Hstep]]]]]]; [assumption |].
  pose proof (fold_walk_root (map (subdirectoryParts meta) keys) s.(directoryTree))
    as [Hl0 _].
  destruct Hstep as [[Hfound [Hplace _]] | [[_ [-> _]] | [_ [Hplace _]]]].
  - pose proof (Hfiles f Hf) as Hroot. unfold rootLayoutFile in Hroot.
    rewrite Hfound, Hmeta, Hkeys in Hroot. simpl in Hroot.
    eapply (forEach_invariant_In (fun d => d.(layout) = None));
      [| | exact Hplace]; [| congruence].
    intros leaf d d' Hleaf Hd Hat. apply atLeaf_root in Hat.
    destruct Hat as [[-> _] | [_ [Hl _]]]; [| congruence].
    apply in_map_iff in Hleaf. destruct Hleaf as [key [Hkey Hin]].
    assert (Hex : existsb (fun key => Nat.eqb (length (subdirectoryParts meta key)) 0) keys
                  = true).
    { apply existsb_exists. exists key. split; [assumption |]. now rewrite Hkey. }
    congruence.
  - congruence.
  - eapply (forEach_invariant_In (fun d => d.(layout) = None));
      [| | exact Hplace]; [| congruence].
    intros leaf d d' _ Hd Hat. apply atLeaf_root in Hat.
    destruct Hat as [[_ Hat] | [_ [Hl _]]]; [| congruence].
    apply placeView_OK in Hat. subst d'. exact Hd.
Qed.

End ResultFacts.

(** ** The result of [getRoutes] *)

(** C2 fails as stated: with a root layout as the only file and
    [unstable_alwaysIncludeSitemap] unset, the result is not [null] but the
    root layout with the generated [+not-found] view. *)
Lemma root_layout_alone_is_a_tree :
  exists root h r child,
    getRoutes ios 1 ["./_layout.tsx"] defaultOptions = OK (Some (root, h))
    /\ getRoutes ios 1 ["./_layout.tsx"] defaultOptions <> OK None
    /\ nth_error h root = Some r
    /\ r.(contextKey) = "./_layout.tsx"
    /\ r.(children) = [View child]
    /\ child.(route) = "+not-found".
Proof.
  eexists _, _, _, _.
  split; [vm_compute; reflexivity |].
  split; [vm_compute; discriminate |].
  split; [reflexivity |].
  split; [reflexivity |].
  split; reflexivity.
Qed.

(** C2, as the code has it: a run of [getRoutes] that returns, returns
    [null] exactly when the scan finds neither a layout nor a view; a
    returned tree, such as the one of a root layout with no view, has a
    [+not-found] view below its root, and a [_sitemap] view too when
    [unstable_alwaysIncludeSitemap] is set. *)
Theorem getRoutes_null_iff (M : Matchers) (env : Env) (fuel : nat)
    (contextModule : RequireContext) (options : Options) (result : option (Ref * Heap))
    (Hresult : getRoutes env fuel contextModule options = OK result) :
  (result = None <-> forall f, In f contextModule -> found env options f = FoundNothing)
  /\ (forall root h, result = Some (root, h) ->
        exists r,
          nth_error h root = Some r
          /\ (exists child, In (View child) r.(children) /\ child.(route) = "+not-found")
          /\ (options.(unstable_alwaysIncludeSitemap) = true ->
              exists child, In (View child) r.(children) /\ child.(route) = "_sitemap")).
Proof.
  split.
  - destruct (getRoutes_null _ _ _ _ _ Hresult) as [t [Ht Hnull]].
    destruct (getDirectoryTree_root _ _ _ _ _ Ht) as [_ [_ [Hl Hr]]].
    rewrite Hnull, Hl, Hr. apply found_nothing.
  - intros root h ->.
    destruct (getRoutes_tree _ _ _ _ _ _ Hresult)
      as [t [arr [n [r [_ [_ [_ [_ [_ [Hr [_ [[nf [Hnf [Hnfr _]]] Hsm]]]]]]]]]]]].
    exists r. split; [assumption |]. split; [now exists nf |].
    intros Halways. apply Hsm. rewrite Halways. apply orb_true_r.
Qed.

Lemma getRoutes_null_iff_witness :
  exists root h r child,
    getRoutes ios 1 ["./_layout.tsx"] alwaysIncludeSitemap = OK (Some (root, h))
    /\ ~ (forall f, In f ["./_layout.tsx"] -> found ios alwaysIncludeSitemap f = FoundNothing)
    /\ nth_error h root = Some r
    /\ In (View child) r.(children)
    /\ child.(route) = "_sitemap".
Proof.
  destruct (getRoutes ios 1 ["./_layout.tsx"] alwaysIncludeSitemap)
    as [[[root h] |] | e] eqn:E.
  - destruct (getRoutes_null_iff matchers ios 1 ["./_layout.tsx"] alwaysIncludeSitemap
                (Some (root, h)) E) as [Hnull Htree].
    destruct (Htree root h eq_refl) as [r [Hr [_ Hsitemap]]].
    destruct (Hsitemap eq_refl) as [child [Hchild Hroute]].
    exists root, h, r, child.
    split; [reflexivity |]. split; [| repeat split; assumption].
    intros Hnothing. apply Hnull in Hnothing. discriminate.
  - vm_compute in E. discriminate.
  - vm_compute in E. discriminate.
Defined.

(** C9: the root of a returned tree is a layout node, made from a layout
    file of the enumeration or generated; when no file of the enumeration is
    a layout placed in the root directory, the scan creates the default
    layout (context key [./_layout.tsx], generated, empty route) as the only
    candidate of the root, and that node is the root returned. *)
Theorem root_is_a_layout (M : Matchers) (env : Env) (fuel : nat)
    (contextModule : RequireContext) (options : Options) (root : Ref) (h : Heap)
    (Hresult : getRoutes env fuel contextModule options = OK (Some (root, h))) :
  (exists r, nth_error h root = Some r /\ layoutNode env options contextModule r)
  /\ ((forall f, In f contextModule -> rootLayoutFile env options fuel f = false) ->
      exists t r,
        getDirectoryTree env fuel contextModule options = OK t
        /\ t.(directoryTree).(layout) = Some [Some root]
        /\ nth_error t.(heap) root = Some defaultLayout
        /\ nth_error h root = Some r
        /\ r.(contextKey) = "./_layout.tsx"
        /\ r.(generated) = true
        /\ r.(route) = "").
Proof.
  destruct (getRoutes_tree _ _ _ _ _ _ Hresult)
    as [t [arr [n [r [Ht [Harr [Hin [Hn [Hlay [Hr [Hkeeps _]]]]]]]]]]].
  split.
  - exists r. split; [assumption |].
    destruct Hkeeps as [Hc [Hg _]]. unfold layoutNode in *. rewrite Hc, Hg. assumption.
  - intros Hnone. exists t, r. split; [assumption |].
    pose proof Ht as Hscan. unfold getDirectoryTree in Hscan.
    unbind Hscan as [st [Hscan Hdefault]].
    apply scan_without_root_layout in Hscan; [| assumption | reflexivity].
    rewrite Hscan in Hdefault. simpl in Hdefault. inversion Hdefault; subst t.
    simpl in Harr, Hn |- *. inversion Harr; subst arr.
    destruct Hin as [Hin | []]. inversion Hin; subst root.
    rewrite nth_error_alloc_new in Hn. inversion Hn; subst n.
    destruct Hkeeps as [Hc [Hg [He _]]].
    split; [reflexivity |]. split; [apply nth_error_alloc_new |].
    split; [assumption |]. split; [assumption |]. split; [assumption |].
    now apply He.
Qed.

Lemma root_is_a_layout_witness :
  exists root h r,
    getRoutes ios 1 ["./index.tsx"] defaultOptions = OK (Some (root, h))
    /\ nth_error h root = Some r
    /\ layoutNode ios defaultOptions ["./index.tsx"] r
    /\ r.(contextKey) = "./_layout.tsx"
    /\ r.(generated) = true
    /\ r.(route) = "".
Proof.
  destruct (getRoutes ios 1 ["./index.tsx"] defaultOptions) as [[[root h] |] | e] eqn:E.
  - destruct (root_is_a_layout matchers ios 1 ["./index.tsx"] defaultOptions root h E)
      as [[r [Hr Hl]] Hdefault].
    destruct Hdefault as [t [r' [_ [_ [_ [Hr' [Hkey [Hgenerated Hroute]]]]]]]].
    { intros f [<- | []]. reflexivity. }
    rewrite Hr in Hr'. inversion Hr'; subst r'.
    exists root, h, r. repeat split; assumption.
  - vm_compute in E. discriminate.
  - vm_compute in E. discriminate.
Defined.

(** * Further properties *)

(** ** Runs that end well *)

Lemma safely_bind {A B} (G1 : A -> Prop) (G2 : B -> Prop) (Allowed : Error -> Prop)
    (r : Result A) (k : A -> Result B) :
  safely G1 Allowed r ->
  (forall a, G1 a -> safely G2 Allowed (k a)) ->
  safely G2 Allowed (bind r k).
Proof. destruct r as [a | e]; simpl; auto. Qed.

Lemma safely_weaken {A} (G G' : A -> Prop) (Allowed Allowed' : Error -> Prop)
    (r : Result A) :
  safely G Allowed r ->
  (forall a, G a -> G' a) -> (forall e, Allowed e -> Allowed' e) ->
  safely G' Allowed' r.
Proof. destruct r as [a | e]; simpl; auto. Qed.

Lemma forEach_safely {A S} (Inv : S -> Prop) (Allowed : Error -> Prop)
    (body : A -> S -> Result S) (l : list A) :
  (forall x s, In x l -> Inv s -> safely Inv Allowed (body x s)) ->
  forall s, Inv s -> safely Inv Allowed (forEach body l s).
Proof.
  induction l as [| x l IH]; intros Hbody s Hs; simpl; [exact Hs |].
  eapply safely_bind.
  - apply Hbody; [now left | exact Hs].
  - intros s' Hs'. apply IH; [| exact Hs'].
    intros y a Hy. apply Hbody. now right.
Qed.

(** ** Candidate arrays *)

Lemma lastElement_last {A} (arr : list (option A)) : JS.lastElement arr = last arr None.
Proof.
  unfold JS.lastElement, JS.at_.
  induction arr as [| x arr IH]; [reflexivity |].
  destruct arr as [| y arr]; [simpl; now destruct x |].
  replace (length (x :: y :: arr) - 1) with (S (length (y :: arr) - 1)) by (simpl; lia).
  exact IH.
Qed.

Lemma assign_not_empty {A} (arr : list (option A)) (i : nat) (v : A) :
  JS.assign arr i v <> [].
Proof. destruct i, arr; discriminate. Qed.

Lemma last_assign {A} (arr : list (option A)) (i : nat) (v : A) :
  arr = [] \/ last arr None <> None -> last (JS.assign arr i v) None <> None.
Proof.
  revert arr; induction i as [| i IH]; intros [| x arr] H.
  - discriminate.
  - simpl. destruct arr as [| y arr]; [discriminate |].
    destruct H as [H | H]; [discriminate | exact H].
  - simpl. pose proof (assign_not_empty (@nil (option A)) i v) as Hne.
    destruct (JS.assign [] i v) eqn:E; [contradiction |].
    rewrite <- E. apply IH. now left.
  - simpl. pose proof (assign_not_empty arr i v) as Hne.
    destruct (JS.assign arr i v) eqn:E; [contradiction |].
    rewrite <- E. apply IH.
    destruct arr as [| y arr]; [now left | right].
    destruct H as [H | H]; [discriminate | exact H].
Qed.

Lemma endsPopulated_last {A} (arr : list (option A)) :
  endsPopulated arr <-> arr = [] \/ last arr None <> None.
Proof.
  unfold endsPopulated. rewrite lastElement_last. split; intros [H | H]; auto.
  - right. destruct H as [a Ha]. congruence.
  - right. destruct (last arr None) as [a |]; [now exists a | contradiction].
Qed.

Lemma endsPopulated_assign {A} (arr : list (option A)) (i : nat) (v : A) :
  endsPopulated arr -> endsPopulated (JS.assign arr i v).
Proof.
  rewrite !endsPopulated_last. intros H. right. now apply last_assign.
Qed.

Lemma length_assign {A} (arr : list (option A)) (i : nat) (v : A) :
  length (JS.assign arr i v) = Nat.max (length arr) (S i).
Proof.
  revert arr; induction i as [| i IH]; intros [| x arr]; simpl; try reflexivity.
  - destruct (length arr); reflexivity.
  - now rewrite IH.
  - now rewrite IH.
Qed.

Lemma at_assign_other {A} (arr : list (option A)) (i j : nat) (v : A) :
  i <> j -> JS.at_ (JS.assign arr i v) j = JS.at_ arr j.
Proof.
  unfold JS.at_. revert arr j; induction i as [| i IH]; intros [| x arr] [| j] H; simpl;
    try reflexivity; try contradiction.
  - now destruct j.
  - rewrite IH by congruence. now destruct j.
  - apply IH. congruence.
Qed.

Lemma okArray_assign (strict : bool) (n : nat) (arr : list (option Ref)) (i : nat) (v : Ref) :
  arr = [] \/ okArray strict n arr ->
  v < n -> i <= 2 -> (strict = true -> i = 0) ->
  okArray strict n (JS.assign arr i v).
Proof.
  intros Harr Hv Hi Hstrict. unfold okArray.
  split; [apply assign_not_empty |].
  split; [apply endsPopulated_assign; destruct Harr as [-> | [_ [H _]]]; [now left | exact H] |].
  split; [rewrite length_assign; destruct Harr as [-> | [_ [_ [H _]]]]; simpl; lia |].
  split.
  - intros r Hr. apply In_assign in Hr. destruct Hr as [-> | Hr]; [exact Hv |].
    destruct Harr as [-> | [_ [_ [_ [H _]]]]]; [destruct Hr | now apply H].
  - intros Hs. rewrite (Hstrict Hs), at_assign. discriminate.
Qed.

Lemma okArray_mono (strict : bool) (n n' : nat) (arr : list (option Ref)) :
  n <= n' -> okArray strict n arr -> okArray strict n' arr.
Proof.
  intros Hn [H1 [H2 [H3 [H4 H5]]]]. repeat split; auto.
  intros r Hr. specialize (H4 r Hr). lia.
Qed.

(** ** The scan keeps the directory tree well formed *)

Lemma wfDirectory_empty (strict : bool) (n : nat) : wfDirectory strict n emptyDirectory.
Proof. constructor; [discriminate | intros ? ? [] | intros ? ? []]. Qed.

Lemma wfDirectory_mono (strict : bool) (n n' : nat) (d : DirectoryNode) :
  n <= n' -> wfDirectory strict n d -> wfDirectory strict n' d.
Proof.
  intros Hn H. induction H as [l v subs Hl Hv Hs IH].
  constructor; eauto using okArray_mono.
Qed.

Lemma wfDirectory_layout (strict : bool) (n : nat) (d : DirectoryNode) arr :
  wfDirectory strict n d -> d.(layout) = Some arr -> okArray strict n arr.
Proof. intros H. destruct H as [l v subs Hl _ _]. simpl. auto. Qed.

Lemma wfDirectory_views (strict : bool) (n : nat) (d : DirectoryNode) k arr :
  wfDirectory strict n d -> In (k, arr) d.(views) -> okArray strict n arr.
Proof. intros H. destruct H as [l v subs _ Hv _]. simpl. eauto. Qed.

Lemma wfDirectory_subdirectory (strict : bool) (n : nat) (d : DirectoryNode) k c :
  wfDirectory strict n d -> In (k, c) d.(subdirectories) -> wfDirectory strict n c.
Proof. intros H. destruct H as [l v subs _ _ Hs]. simpl. eauto. Qed.

Lemma wfDirectory_child (strict : bool) (n : nat) (d : DirectoryNode) (part : string) :
  wfDirectory strict n d ->
  wfDirectory strict n
    (match JS.mapGet d.(subdirectories) part with
     | Some child => child
     | None => emptyDirectory
     end).
Proof.
  intros H. destruct (JS.mapGet d.(subdirectories) part) as [c |] eqn:E.
  - eapply wfDirectory_subdirectory; [exact H | apply mapGet_In; exact E].
  - apply wfDirectory_empty.
Qed.

Lemma wfDirectory_setSubdirectories (strict : bool) (n : nat) (d c : DirectoryNode)
    (part : string) :
  wfDirectory strict n d -> wfDirectory strict n c ->
  wfDirectory strict n (setSubdirectories d (JS.mapSet d.(subdirectories) part c)).
Proof.
  intros Hd Hc. destruct Hd as [l v subs Hl Hv Hs]. simpl.
  constructor; [exact Hl | exact Hv |].
  intros k x Hin. apply In_mapSet in Hin. destruct Hin as [[_ ->] | Hin]; eauto.
Qed.

Lemma wfDirectory_walk (strict : bool) (n : nat) (path : list string) :
  forall d, wfDirectory strict n d -> wfDirectory strict n (walk d path).
Proof.
  induction path as [| part rest IH]; intros d Hd; simpl; [exact Hd |].
  apply wfDirectory_setSubdirectories; [exact Hd |].
  apply IH. now apply wfDirectory_child.
Qed.

Lemma wfDirectory_fold_walk (strict : bool) (n : nat) (leaves : list (list string)) :
  forall d, wfDirectory strict n d -> wfDirectory strict n (fold_left walk leaves d).
Proof.
  induction leaves as [| p leaves IH]; intros d Hd; simpl; [exact Hd |].
  apply IH. now apply wfDirectory_walk.
Qed.

Lemma atLeaf_safely (strict : bool) (n : nat) (Allowed : Error -> Prop)
    (f : DirectoryNode -> Result DirectoryNode) :
  (forall leaf, wfDirectory strict n leaf ->
     safely (wfDirectory strict n) Allowed (f leaf)) ->
  forall path d, wfDirectory strict n d ->
    safely (wfDirectory strict n) Allowed (atLeaf d path f).
Proof.
  intros Hf. induction path as [| part rest IH]; intros d Hd; simpl; [now apply Hf |].
  eapply safely_bind.
  - apply IH. now apply wfDirectory_child.
  - intros c Hc. simpl. now apply wfDirectory_setSubdirectories.
Qed.

Lemma placeLayout_safely (strict : bool) (h : Heap) (filePath : string) (meta : FileMeta.t)
    (node : Ref) (leaf : DirectoryNode) :
  wfDirectory strict (length h) leaf ->
  node < length h ->
  Z.to_nat meta.(FileMeta.specificity) <= 2 ->
  (strict = true -> Z.to_nat meta.(FileMeta.specificity) = 0) ->
  safely (wfDirectory strict (length h)) scanError
    (placeLayout h filePath meta node leaf).
Proof.
  intros Hleaf Hnode Hrank Hstrict. unfold placeLayout.
  destruct (JS.at_ _ _) as [existing |] eqn:E.
  - assert (Hex : existing < length h).
    { destruct leaf.(layout) as [arr |] eqn:El; [| destruct (Z.to_nat _); discriminate].
      destruct (wfDirectory_layout _ _ _ _ Hleaf El) as [_ [_ [_ [Hrefs _]]]].
      apply Hrefs. eapply at_In. exact E. }
    unfold deref. destruct (nth_error h existing) eqn:En; simpl; [exact I |].
    apply nth_error_None in En. lia.
  - simpl. destruct Hleaf as [l v subs Hl Hv Hs]. simpl.
    constructor; [| exact Hv | exact Hs].
    intros arr Harr. inversion Harr; subst arr.
    apply okArray_assign; try assumption.
    destruct l as [arr |]; [right; now apply Hl | now left].
Qed.

Lemma placeView_safely (strict : bool) (env : Env) (options : Options) (h : Heap)
    (filePath : string) (meta : FileMeta.t) (node : Ref) (leaf : DirectoryNode) :
  wfDirectory strict (length h) leaf ->
  node < length h ->
  Z.to_nat meta.(FileMeta.specificity) <= 2 ->
  (strict = true -> Z.to_nat meta.(FileMeta.specificity) = 0) ->
  safely (wfDirectory strict (length h)) scanError
    (placeView env options h filePath meta node leaf).
Proof.
  intros Hleaf Hnode Hrank Hstrict. unfold placeView.
  assert (Hplaced : wfDirectory strict (length h)
            (setViews leaf
               (JS.mapSet leaf.(views) meta.(FileMeta.name)
                  (JS.assign
                     (match JS.mapGet leaf.(views) meta.(FileMeta.name) with
                      | Some nodes => nodes
                      | None => []
                      end)
                     (Z.to_nat meta.(FileMeta.specificity)) node)))).
  { destruct Hleaf as [l v subs Hl Hv Hs]. simpl.
    constructor; [exact Hl | | exact Hs].
    intros k arr Hin. apply In_mapSet in Hin. destruct Hin as [[_ ->] | Hin]; eauto.
    apply okArray_assign; try assumption.
    destruct (JS.mapGet v meta.(FileMeta.name)) as [nodes |] eqn:E; [right | now left].
    eapply Hv. apply mapGet_In. exact E. }
  destruct (String.eqb _ "production"); [exact Hplaced |].
  destruct (JS.at_ _ _) as [existing |] eqn:E; [| exact Hplaced].
  destruct options.(unstable_improvedErrorMessages); [| exact I].
  assert (Hex : existing < length h).
  { destruct (JS.mapGet leaf.(views) meta.(FileMeta.name)) as [nodes |] eqn:Ev;
      [| destruct (Z.to_nat _); discriminate].
    destruct (wfDirectory_views _ _ _ _ _ Hleaf (mapGet_In _ _ _ Ev))
      as [_ [_ [_ [Hrefs _]]]].
    apply Hrefs. eapply at_In. exact E. }
  unfold deref. destruct (nth_error h existing) eqn:En; simpl; [exact I |].
  apply nth_error_None in En. lia.
Qed.

Lemma childless_alloc (h : Heap) (n : RouteNode) :
  childless h -> n.(children) = [] -> childless (h ++ [n]).
Proof.
  intros Hh Hn. apply Forall_app. split; [exact Hh | now constructor].
Qed.

Section ScanSafety.
Context {M : Matchers}.

(** The rank [getFileMeta] gives, and the errors it raises. *)
Lemma getFileMeta_safely (env : Env) (key : string) (options : Options) :
  safely
    (fun meta =>
       (-1 <= meta.(FileMeta.specificity) <= 2)%Z
       /\ (options.(unstable_platformExtensions) = false ->
           meta.(FileMeta.specificity) = 0%Z))
    scanError (getFileMeta env key options).
Proof.
  unfold getFileMeta. cbv zeta.
  destruct options.(unstable_platformExtensions), options.(unstable_improvedErrorMessages);
    cbn [andb];
    repeat match goal with
           | |- context [if ?c then _ else _] => destruct c
           end;
    simpl; try exact I; split; try lia; try discriminate; reflexivity.
Qed.

Lemma extrapolateGroups_safely (fuel : nat) :
  forall key keys, safely (fun _ => True) scanError (extrapolateGroups fuel key keys).
Proof.
  induction fuel as [| fuel IH]; intros key keys; simpl; [exact I |].
  destruct (truthy (matchGroupName key)) as [m |]; [| exact I].
  destruct (negb _); [exact I |].
  destruct (Nat.eqb _ 1); [exact I |].
  apply (forEach_safely (fun _ => True)); [| exact I].
  intros g ks _ _. apply IH.
Qed.

Lemma processFile_safely (strict : bool) (env : Env) (options : Options) (fuel : nat)
    (filePath : string) (st : DirectoryTree) :
  (strict = true -> options.(unstable_platformExtensions) = false) ->
  scanned strict st ->
  safely (scanned strict) scanError
    (processFile env options fuel (getIgnoreList options) filePath st).
Proof.
  intros Hstrict [Hwf Hchildless]. unfold processFile.
  destruct (existsb _ (getIgnoreList options)); [split; assumption |].
  eapply safely_bind; [apply getFileMeta_safely |].
  intros meta [Hrange Hzero]. cbv beta.
  destruct (meta.(FileMeta.specificity) <? 0)%Z eqn:Eneg; [split; assumption |].
  apply Z.ltb_ge in Eneg.
  assert (Hrank : Z.to_nat meta.(FileMeta.specificity) <= 2) by lia.
  assert (Hrank0 : strict = true -> Z.to_nat meta.(FileMeta.specificity) = 0).
  { intros Hs. rewrite (Hzero (Hstrict Hs)). reflexivity. }
  eapply safely_bind; [apply extrapolateGroups_safely |].
  intros keys _. cbv beta zeta. unfold alloc.
  set (h := st.(heap) ++ [fileNode options filePath meta]).
  assert (Hlen : length h = S (length st.(heap))).
  { unfold h. rewrite length_app. simpl. lia. }
  assert (Hnode : length st.(heap) < length h) by lia.
  assert (Hwalk : wfDirectory strict (length h)
            (fold_left walk (map (subdirectoryParts meta) keys) st.(directoryTree))).
  { apply wfDirectory_fold_walk. eapply wfDirectory_mono; [| exact Hwf]. lia. }
  assert (Hh : childless h) by (apply childless_alloc; [assumption | reflexivity]).
  destruct meta.(FileMeta.isLayout).
  - eapply safely_bind.
    + apply (forEach_safely (wfDirectory strict (length h))); [| exact Hwalk].
      intros leaf d _ Hd. apply atLeaf_safely; [| exact Hd].
      intros x Hx. now apply placeLayout_safely.
    + intros d Hd. split; assumption.
  - destruct meta.(FileMeta.isApi); [split; assumption |].
    eapply safely_bind.
    + apply (forEach_safely (wfDirectory strict (length h))); [| exact Hwalk].
      intros leaf d _ Hd. apply atLeaf_safely; [| exact Hd].
      intros x Hx. now apply placeView_safely.
    + intros d Hd. split; assumption.
Qed.

(** The scan ends in a well-formed tree with a root layout over a store
    without children, or in one of its own errors. *)
Lemma getDirectoryTree_safely (strict : bool) (env : Env) (fuel : nat)
    (contextModule : RequireContext) (options : Options) :
  (strict = true -> options.(unstable_platformExtensions) = false) ->
  safely (fun t => scanned strict t /\ t.(directoryTree).(layout) <> None) scanError
    (getDirectoryTree env fuel contextModule options).
Proof.
  intros Hstrict. unfold getDirectoryTree.
  eapply safely_bind.
  - apply (forEach_safely (scanned strict)).
    + intros f st _ Hst. now apply processFile_safely.
    + split; [apply wfDirectory_empty | constructor].
  - intros st [Hwf Hchildless]. cbv beta.
    destruct st.(directoryTree).(layout) as [arr |] eqn:E.
    + simpl. split; [split; assumption | congruence].
    + simpl. split; [| discriminate]. split; simpl.
      * rewrite length_app. simpl.
        destruct Hwf as [l v subs Hl Hv Hs]. simpl.
        constructor.
        -- intros arr Harr. inversion Harr; subst arr.
           apply (okArray_assign strict _ [] 0); [now left | lia | lia | reflexivity].
        -- intros k arr Hin. eapply okArray_mono; [| eapply Hv; exact Hin]. lia.
        -- intros k d Hin. eapply wfDirectory_mono; [| eapply Hs; exact Hin]. lia.
      * apply childless_alloc; [assumption | reflexivity].
Qed.

End ScanSafety.

(** ** Hoisting a well-formed tree *)

Lemma length_store (h : Heap) (r : Ref) (n : RouteNode) : length (store h r n) = length h.
Proof.
  revert r; induction h as [| x h IH]; intros [| r]; simpl; try reflexivity.
  now rewrite IH.
Qed.

Lemma deref_valid (h : Heap) (r : Ref) : r < length h -> exists n, deref h r = OK n.
Proof.
  intros H. unfold deref. destruct (nth_error h r) as [n |] eqn:E; [now exists n |].
  apply nth_error_None in E. lia.
Qed.

Lemma appendSitemapRoute_scanned (strict : bool) (d d' : DirectoryNode) (h h' : Heap) :
  appendSitemapRoute d h = (d', h') ->
  wfDirectory strict (length h) d -> childless h ->
  wfDirectory strict (length h') d' /\ childless h' /\ d'.(layout) = d.(layout).
Proof.
  unfold appendSitemapRoute. intros H Hwf Hc.
  destruct (JS.mapHas d.(views) "_sitemap"); inversion H; subst; [auto |].
  split; [| split; [apply childless_alloc; [assumption | reflexivity] | reflexivity]].
  rewrite length_app. simpl. destruct Hwf as [l v subs Hl Hv Hs]. simpl.
  constructor.
  - intros arr Harr. eapply okArray_mono; [| apply Hl; exact Harr]. lia.
  - intros k arr Hin. apply In_mapSet in Hin. destruct Hin as [[_ ->] | Hin].
    + apply (okArray_assign strict _ [] 0); [now left | lia | lia | reflexivity].
    + eapply okArray_mono; [| eapply Hv; exact Hin]. lia.
  - intros k c Hin. eapply wfDirectory_mono; [| eapply Hs; exact Hin]. lia.
Qed.

Lemma appendNotFoundRoute_scanned (strict : bool) (d d' : DirectoryNode) (h h' : Heap) :
  appendNotFoundRoute d h = (d', h') ->
  wfDirectory strict (length h) d -> childless h ->
  wfDirectory strict (length h') d' /\ childless h' /\ d'.(layout) = d.(layout).
Proof.
  unfold appendNotFoundRoute. intros H Hwf Hc.
  destruct (JS.mapHas d.(views) "+not-found"); inversion H; subst; [auto |].
  split; [| split; [apply childless_alloc; [assumption | reflexivity] | reflexivity]].
  rewrite length_app. simpl. destruct Hwf as [l v subs Hl Hv Hs]. simpl.
  constructor.
  - intros arr Harr. eapply okArray_mono; [| apply Hl; exact Harr]. lia.
  - intros k arr Hin. apply In_mapSet in Hin. destruct Hin as [[_ ->] | Hin].
    + apply (okArray_assign strict _ [] 0); [now left | lia | lia | reflexivity].
    + eapply okArray_mono; [| eapply Hv; exact Hin]. lia.
  - intros k c Hin. eapply wfDirectory_mono; [| eapply Hs; exact Hin]. lia.
Qed.

Section HoistSafety.
Context {M : Matchers}.

Lemma getMostSpecific_safely (strict : bool) (arr : list (option Ref)) (h : Heap) :
  okArray strict (length h) arr ->
  safely (fun o => exists r, o = Some r /\ r < length h) (hoistError strict)
    (getMostSpecific arr h).
Proof.
  intros [Hne [Hends [_ [Hrefs Hstrict]]]]. unfold getMostSpecific.
  destruct Hends as [-> | [a Ha]]; [contradiction |]. rewrite Ha.
  pose proof (Hrefs a (lastElement_In _ _ Ha)) as Hlt.
  destruct (JS.at_ arr 0) as [x |] eqn:E0; simpl.
  - now exists a.
  - destruct (deref_valid h a Hlt) as [n Hn]. rewrite Hn. simpl. split.
    + destruct strict; [| reflexivity]. now destruct (Hstrict eq_refl).
    + now exists n.(contextKey).
Qed.

Lemma hoistLayout_safely (strict : bool) (options : Options) (arr : list (option Ref))
    (parent : option Ref) (eps : list string) (pathToRemove : string) (h : Heap) :
  okArray strict (length h) arr ->
  (forall p, parent = Some p -> p < length h) ->
  safely (fun res => fst (fst (fst res)) < length h /\ length (snd res) = length h)
    (hoistError strict) (hoistLayout options arr parent eps pathToRemove h).
Proof.
  intros Harr Hparent. unfold hoistLayout.
  eapply safely_bind; [now apply getMostSpecific_safely |].
  intros o [l [-> Hl]]. cbv beta iota.
  assert (Hpush : safely (fun h1 => length h1 = length h) (hoistError strict)
            (match parent with
             | Some parent0 =>
                 let* p := deref h parent0 in
                 OK (store h parent0 (pushChild p (Layout l)))
             | None => OK h
             end)).
  { destruct parent as [p |]; [| reflexivity].
    destruct (deref_valid h p (Hparent p eq_refl)) as [n Hn]. rewrite Hn. simpl.
    apply length_store. }
  eapply safely_bind; [exact Hpush |].
  intros h1 Hh1. cbv beta in Hh1. cbv beta zeta.
  destruct (deref_valid h1 l) as [p Hp]; [rewrite Hh1; exact Hl |]. rewrite Hp. simpl.
  destruct (entryPoints p); simpl; rewrite length_store; split; assumption.
Qed.

Lemma hoistViews_safely (strict : bool) (options : Options) (parent : Ref)
    (eps : list string) (pathToRemove : string) (routes : list (option Ref)) (h : Heap) :
  okArray strict (length h) routes ->
  parent < length h ->
  safely (fun h' => length h' = length h) (hoistError strict)
    (hoistViews options parent eps pathToRemove routes h).
Proof.
  intros Harr Hparent. unfold hoistViews.
  eapply safely_bind; [now apply getMostSpecific_safely |].
  intros o [v [-> Hv]]. cbv beta iota.
  destruct (deref_valid h v Hv) as [n Hn]. rewrite Hn. simpl.
  destruct (deref_valid h parent Hparent) as [p Hp]. rewrite Hp. simpl.
  apply length_store.
Qed.

(** Hoisting a well-formed tree ends in a store of the same size, or in the
    missing-fallback error. *)
Lemma hoist_safely (strict : bool) (directory : DirectoryNode) :
  forall options parent eps pathToRemove h,
    wfDirectory strict (length h) directory ->
    (forall p, parent = Some p -> p < length h) ->
    safely
      (fun res => length (snd res) = length h
                  /\ forall r, fst res = Some r -> r < length h)
      (hoistError strict)
      (hoistRoutesToNearestLayout directory options parent eps pathToRemove h).
Proof.
  induction directory as [layout_ views_ subs IH] using DirectoryNode_nested_ind.
  intros options parent eps pathToRemove h Hwf Hparent. simpl.
  eapply (safely_bind
            (fun res => length (snd res) = length h
                        /\ forall p, fst (fst (fst res)) = Some p -> p < length h)).
  - destruct layout_ as [arr |]; [| simpl; auto].
    eapply safely_bind.
    + apply hoistLayout_safely; [| exact Hparent].
      eapply wfDirectory_layout; [exact Hwf | reflexivity].
    + intros [[[l e] q] h1] [Hl Hh1]. simpl in *. split; [exact Hh1 |].
      intros p Hp. inversion Hp; subst. exact Hl.
  - intros [[[parent1 eps1] ptr1] h1] [Hh1 Hp1]. simpl in Hh1, Hp1.
    destruct parent1 as [parent1 |]; [| simpl; split; [exact Hh1 | discriminate]].
    specialize (Hp1 parent1 eq_refl).
    eapply (safely_bind (fun h2 => length h2 = length h)).
    + apply (forEach_safely (fun h2 => length h2 = length h)); [| exact Hh1].
      intros routes h2 Hin Hh2. unfold JS.mapValues in Hin.
      apply in_map_iff in Hin. destruct Hin as [[k arr] [Heq Hin]]. simpl in Heq. subst arr.
      eapply safely_weaken.
      * apply (hoistViews_safely strict); [| rewrite Hh2; exact Hp1].
        rewrite Hh2. eapply wfDirectory_views; [exact Hwf | exact Hin].
      * intros a Ha. cbv beta in Ha. congruence.
      * auto.
    + intros h2 Hh2. cbv beta.
      eapply (safely_bind (fun h3 => length h3 = length h)).
      * apply (forEach_safely (fun h3 => length h3 = length h)); [| exact Hh2].
        intros [k child] h3 Hin Hh3. simpl.
        rewrite Forall_forall in IH. specialize (IH (k, child) Hin). simpl in IH.
        eapply safely_bind.
        -- apply IH.
           ++ rewrite Hh3. eapply wfDirectory_subdirectory; [exact Hwf | exact Hin].
           ++ intros p Hp. inversion Hp; subst. rewrite Hh3. exact Hp1.
        -- intros [rt h4] [Hh4 _]. simpl in *. congruence.
      * intros h3 Hh3. simpl. split; [exact Hh3 |].
        intros r Hr. inversion Hr; subst. exact Hp1.
Qed.

(** After a scan that returned, [getRoutes] returns or raises the
    missing-fallback error. *)
Lemma getRoutes_after_scan (strict : bool) (env : Env) (fuel : nat)
    (contextModule : RequireContext) (options : Options) (t : DirectoryTree) :
  getDirectoryTree env fuel contextModule options = OK t ->
  scanned strict t ->
  safely (fun _ => True) (hoistError strict) (getRoutes env fuel contextModule options).
Proof.
  intros Ht [Hwf Hc]. unfold getRoutes. rewrite Ht. simpl.
  destruct (negb t.(hasLayout) && negb t.(hasRoutes)); [exact I |].
  destruct (if t.(hasRoutes) || options.(unstable_alwaysIncludeSitemap)
            then appendSitemapRoute t.(directoryTree) t.(heap)
            else (t.(directoryTree), t.(heap))) as [d1 h1] eqn:E1.
  assert (H1 : wfDirectory strict (length h1) d1 /\ childless h1).
  { destruct (t.(hasRoutes) || options.(unstable_alwaysIncludeSitemap)).
    - destruct (appendSitemapRoute_scanned strict _ _ _ _ E1 Hwf Hc) as [? [? _]]. now split.
    - inversion E1; subst. now split. }
  destruct H1 as [Hwf1 Hc1].
  destruct (appendNotFoundRoute d1 h1) as [d2 h2] eqn:E2.
  destruct (appendNotFoundRoute_scanned strict _ _ _ _ E2 Hwf1 Hc1) as [Hwf2 _].
  eapply safely_bind.
  - apply (hoist_safely strict); [exact Hwf2 | discriminate].
  - intros [root h3] _. exact I.
Qed.

End HoistSafety.

(** ** The shape of hoisted nodes *)

Lemma NoDup_setAdd (keys : list string) (k : string) :
  NoDup keys -> NoDup (JS.setAdd keys k).
Proof.
  intros H. unfold JS.setAdd. destruct (JS.inList keys k) eqn:E; [exact H |].
  apply NoDup_app; [exact H | repeat constructor; intros [] |].
  intros x Hx [Hk | []]. subst x.
  apply (proj2 (inList_In keys k)) in Hx. congruence.
Qed.

Lemma NoDup_fold_setAdd (l acc : list string) :
  NoDup acc -> NoDup (fold_left JS.setAdd l acc).
Proof.
  revert acc; induction l as [| x l IH]; intros acc H; simpl; [exact H |].
  apply IH. now apply NoDup_setAdd.
Qed.

Lemma In_fold_setAdd (l acc : list string) (x : string) :
  In x (fold_left JS.setAdd l acc) <-> In x acc \/ In x l.
Proof.
  revert acc; induction l as [| y l IH]; intros acc; simpl; [tauto |].
  rewrite IH. unfold JS.setAdd. destruct (JS.inList acc y) eqn:E.
  - apply inList_In in E. split; [tauto |]. intros [H | [<- | H]]; auto.
  - rewrite in_app_iff. simpl. tauto.
Qed.

Lemma nth_error_store_domain (h : Heap) (r l : Ref) (x n : RouteNode) :
  nth_error (store h r x) l = Some n -> exists m, nth_error h l = Some m.
Proof.
  intros H. assert (Hl : l < length h).
  { rewrite <- (length_store h r x). apply nth_error_Some. congruence. }
  destruct (nth_error h l) as [m |] eqn:E; [now exists m |].
  apply nth_error_None in E. lia.
Qed.

Section ShapeFacts.
Context {M : Matchers}.
Variable options : Options.

Lemma hoistedLayout_pushChild (n : RouteNode) (c : Child) :
  hoistedLayout options n -> hoistedLayout options (pushChild n c).
Proof. intros H. exact H. Qed.

Lemma hoistView_hoisted (eps : list string) (pathToRemove : string) (node : RouteNode) :
  hoistedView options (hoistView options eps pathToRemove node).
Proof.
  unfold hoistedView, hoistView.
  destruct options.(ignoreEntryPoints), options.(unstable_stripLoadRoute); simpl;
    (split; [reflexivity |]); (split; [| try discriminate; reflexivity]);
    try reflexivity;
    eexists; (split; [reflexivity |]); apply NoDup_fold_setAdd; constructor.
Qed.

Lemma settles_refl (h : Heap) : settles options h h.
Proof. intros r n H. exists n. split; [exact H | auto]. Qed.

Lemma settles_trans (a b c : Heap) :
  settles options a b -> settles options b c -> settles options a c.
Proof.
  intros Hab Hbc r n H. destruct (Hab r n H) as [n' [H' K]].
  destruct (Hbc r n' H') as [n'' [H'' K']]. exists n''. split; [exact H'' | auto].
Qed.

Lemma store_settles (h : Heap) (r : Ref) (p p' : RouteNode) :
  nth_error h r = Some p ->
  (hoistedLayout options p -> hoistedLayout options p') ->
  settles options h (store h r p').
Proof.
  intros Hp K r' n H. destruct (Nat.eq_dec r r') as [<- | Hne].
  - exists p'. split; [eapply nth_error_store_same; exact Hp |].
    rewrite Hp in H. inversion H; subst. exact K.
  - exists n. split; [now rewrite nth_error_store_other | auto].
Qed.

(** A store step that keeps hoisted layouts hoisted keeps the children
    already in the store tidy. *)
Lemma tidy_store (exempt exempt' : option Ref) (h : Heap) (r : Ref) (p p' : RouteNode) :
  tidy options exempt h ->
  nth_error h r = Some p ->
  (hoistedLayout options p -> hoistedLayout options p') ->
  (forall l, exempt = Some l -> exempt' = Some l) ->
  (forall c, In c p'.(children) ->
     In c p.(children)
     \/ match c with
        | inl l => exempt' = Some l /\ exists m, nth_error h l = Some m
        | inr v => hoistedView options v
        end) ->
  tidy options exempt' (store h r p').
Proof.
  intros Htidy Hp Hkeep Hexempt Hchildren.
  assert (Hmove : forall l,
            (exists m, nth_error h l = Some m /\ (exempt = Some l \/ hoistedLayout options m)) ->
            exists m, nth_error (store h r p') l = Some m
                      /\ (exempt' = Some l \/ hoistedLayout options m)).
  { intros l [m [Hm Hok]]. destruct (Nat.eq_dec r l) as [<- | Hne].
    - exists p'. split; [eapply nth_error_store_same; exact Hp |].
      rewrite Hp in Hm. inversion Hm; subst m.
      destruct Hok as [He | Hq]; [left; now apply Hexempt | right; now apply Hkeep].
    - exists m. split; [now rewrite nth_error_store_other |].
      destruct Hok as [He | Hq]; [left; now apply Hexempt | now right]. }
  assert (Hold : forall n c, nth_error h r = Some n \/ (exists r0, nth_error h r0 = Some n) ->
            In c n.(children) ->
            match c with
            | inl l => exists m, nth_error (store h r p') l = Some m
                                 /\ (exempt' = Some l \/ hoistedLayout options m)
            | inr v => hoistedView options v
            end).
  { intros n c Hn Hc.
    assert (Hr0 : exists r0, nth_error h r0 = Some n).
    { destruct Hn as [Hn | Hn]; [now exists r | exact Hn]. }
    destruct Hr0 as [r0 Hr0]. pose proof (Htidy r0 n c Hr0 Hc) as Hc'.
    destruct c as [l | v]; [now apply Hmove | exact Hc']. }
  intros r0 n c Hn Hc. destruct (Nat.eq_dec r r0) as [<- | Hne].
  - rewrite (nth_error_store_same _ _ _ _ Hp) in Hn. inversion Hn; subst n.
    destruct (Hchildren c Hc) as [Hin | Hnew]; [apply (Hold p c); auto |].
    destruct c as [l | v]; [| exact Hnew].
    destruct Hnew as [He [m Hm]].
    destruct (Nat.eq_dec r l) as [<- | Hne].
    + exists p'. split; [eapply nth_error_store_same; exact Hp | now left].
    + exists m. split; [now rewrite nth_error_store_other | now left].
  - rewrite nth_error_store_other in Hn by assumption.
    apply (Hold n c); [right; now exists r0 | exact Hc].
Qed.

Lemma childless_tidy (h : Heap) : childless h -> tidy options None h.
Proof.
  intros Hc r n c Hn Hin. unfold childless in Hc. rewrite Forall_forall in Hc.
  rewrite (Hc n (nth_error_In _ _ Hn)) in Hin. destruct Hin.
Qed.

Lemma hoistViews_tidy (parent : Ref) (eps : list string) (pathToRemove : string)
    (routes : list (option Ref)) (h h' : Heap) :
  tidy options None h ->
  hoistViews options parent eps pathToRemove routes h = OK h' ->
  tidy options None h' /\ settles options h h'.
Proof.
  unfold hoistViews. intros Htidy H.
  unbind H as [[v |] [_ H]]; [| discriminate].
  unbind H as [n [_ H]].
  unbind H as [p [Hp H]]. apply deref_OK in Hp. inversion H; subst h'. split.
  - eapply tidy_store; [exact Htidy | exact Hp | auto | auto |].
    intros c Hc. simpl in Hc. apply in_app_or in Hc.
    destruct Hc as [Hc | [<- | []]]; [now left | right].
    apply hoistView_hoisted.
  - eapply store_settles; [exact Hp | auto].
Qed.

Lemma hoistLayout_tidy (layout_ : list (option Ref)) (parent : option Ref)
    (eps : list string) (pathToRemove : string) (h : Heap)
    (l : Ref) (eps' : list string) (pathToRemove' : string) (h' : Heap) :
  tidy options None h ->
  hoistLayout options layout_ parent eps pathToRemove h = OK (l, eps', pathToRemove', h') ->
  tidy options None h' /\ settles options h h'
  /\ exists m, nth_error h' l = Some m /\ hoistedLayout options m.
Proof.
  unfold hoistLayout. intros Htidy H.
  unbind H as [[layout |] [_ H]]; [| discriminate].
  unbind H as [h1 [H1 H]].
  unbind H as [p1 [Hp1 H]]. apply deref_OK in Hp1.
  assert (Hstep1 : tidy options (Some layout) h1 /\ settles options h h1).
  { destruct parent as [parent |].
    - unbind H1 as [pp [Hpp H1]]. apply deref_OK in Hpp. inversion H1; subst h1.
      destruct (nth_error_store_domain _ _ _ _ _ Hp1) as [m Hm]. split.
      + eapply tidy_store; [exact Htidy | exact Hpp | auto | discriminate |].
        intros c Hc. simpl in Hc. apply in_app_or in Hc.
        destruct Hc as [Hc | [<- | []]]; [now left | right].
        split; [reflexivity | now exists m].
      + eapply store_settles; [exact Hpp | auto].
    - inversion H1; subst h1. split; [| apply settles_refl].
      intros r n c Hn Hc. specialize (Htidy r n c Hn Hc).
      destruct c as [x | v]; [| exact Htidy].
      destruct Htidy as [m [Hm [He | Hq]]]; [discriminate |].
      exists m. split; [exact Hm | now right]. }
  destruct Hstep1 as [Htidy1 Hsettles1].
  assert (Hfinal : forall p',
            hoistedLayout options p' -> p'.(children) = p1.(children) ->
            (l, eps', pathToRemove', h')
            = (layout, eps', pathToRemove', store h1 layout p') ->
            tidy options None h' /\ settles options h h'
            /\ exists m, nth_error h' l = Some m /\ hoistedLayout options m).
  { intros p' Hq Hch Heq. inversion Heq; subst l h'. split; [| split].
    - intros r n c Hn Hc.
      assert (Hx : tidy options (Some layout) (store h1 layout p')).
      { eapply tidy_store; [exact Htidy1 | exact Hp1 | auto | auto |].
        intros c0 Hc0. left. now rewrite <- Hch. }
      specialize (Hx r n c Hn Hc). destruct c as [x | v]; [| exact Hx].
      destruct Hx as [m [Hm [He | Hm']]]; [| exists m; split; [exact Hm | now right]].
      inversion He; subst x.
      rewrite (nth_error_store_same _ _ _ _ Hp1) in Hm. inversion Hm; subst m.
      exists p'. split; [eapply nth_error_store_same; exact Hp1 | now right].
    - eapply settles_trans; [exact Hsettles1 |].
      eapply store_settles; [exact Hp1 | auto].
    - exists p'. split; [eapply nth_error_store_same; exact Hp1 | exact Hq]. }
  destruct (entryPoints (setDynamic _ _)) as [own |] eqn:Eown;
    inversion H; subst;
    (eapply Hfinal; [| | reflexivity]);
    try (destruct options.(ignoreEntryPoints), options.(unstable_stripLoadRoute);
         reflexivity);
    unfold hoistedLayout;
    destruct options.(ignoreEntryPoints), options.(unstable_stripLoadRoute);
    simpl in *; repeat split; try reflexivity; try discriminate; try assumption.
Qed.

(** Hoisting keeps the store tidy and hoists the layout it returns. *)
Lemma hoist_tidy (directory : DirectoryNode) :
  forall parent eps pathToRemove h root h',
    tidy options None h ->
    hoistRoutesToNearestLayout directory options parent eps pathToRemove h = OK (root, h') ->
    tidy options None h' /\ settles options h h'
    /\ (directory.(layout) <> None ->
        exists l m, root = Some l /\ nth_error h' l = Some m /\ hoistedLayout options m).
Proof.
  induction directory as [layout_ views_ subs IH] using DirectoryNode_nested_ind.
  intros parent eps pathToRemove h root h' Htidy H. simpl in H.
  unbind H as [[[[parent1 eps1] ptr1] h1] [H1 H]].
  assert (S1 : tidy options None h1 /\ settles options h h1
               /\ (layout_ <> None ->
                   exists l m, parent1 = Some l /\ nth_error h1 l = Some m
                               /\ hoistedLayout options m)).
  { destruct layout_ as [arr |].
    - unbind H1 as [[[[l e] q] hh] [Hl H1]]. inversion H1; subst.
      destruct (hoistLayout_tidy _ _ _ _ _ _ _ _ _ Htidy Hl) as [Ht [Hs [m [Hm Hq]]]].
      split; [exact Ht |]. split; [exact Hs |]. intros _. now exists l, m.
    - inversion H1; subst. split; [exact Htidy |]. split; [apply settles_refl |].
      intros Hc. contradiction. }
  destruct S1 as [Htidy1 [Hsettles1 Hroot1]].
  destruct parent1 as [parent1 |].
  2:{ inversion H; subst. split; [exact Htidy1 |]. split; [exact Hsettles1 |].
      intros Hl. destruct (Hroot1 Hl) as [l [m [Hc _]]]. discriminate. }
  unbind H as [h2 [H2 H]].
  unbind H as [h3 [H3 H]]. inversion H; subst root h3. clear H.
  assert (S2 : tidy options None h2 /\ settles options h1 h2).
  { eapply (forEach_invariant_In (fun x => tidy options None x /\ settles options h1 x));
      [| split; [exact Htidy1 | apply settles_refl] | exact H2].
    intros routes a b _ [Ha Hsa] Hb.
    destruct (hoistViews_tidy _ _ _ _ _ _ Ha Hb) as [Hb1 Hb2].
    split; [exact Hb1 | eapply settles_trans; eassumption]. }
  destruct S2 as [Htidy2 Hsettles2].
  assert (S3 : tidy options None h' /\ settles options h2 h').
  { eapply (forEach_invariant_In (fun x => tidy options None x /\ settles options h2 x));
      [| split; [exact Htidy2 | apply settles_refl] | exact H3].
    intros child a b Hin [Ha Hsa] Hb.
    unbind Hb as [[rt x] [Hx Hb]]. inversion Hb; subst x.
    rewrite Forall_forall in IH.
    destruct (IH child Hin _ _ _ _ _ _ Ha Hx) as [Hb1 [Hb2 _]].
    split; [exact Hb1 | eapply settles_trans; eassumption]. }
  destruct S3 as [Htidy3 Hsettles3].
  split; [exact Htidy3 |].
  split; [eapply settles_trans; [exact Hsettles1 | eapply settles_trans; eassumption] |].
  intros Hl. destruct (Hroot1 Hl) as [l [m [Hc [Hm Hq]]]]. inversion Hc; subst l.
  destruct (settles_trans _ _ _ Hsettles2 Hsettles3 parent1 m Hm) as [m' [Hm' Hq']].
  exists parent1, m'. split; [reflexivity |]. split; [exact Hm' | now apply Hq'].
Qed.

End ShapeFacts.

(** ** Where an error comes from *)

Lemma forEach_Throw {A S} (body : A -> S -> Result S) (l : list A) (e : Error) :
  forall s, forEach body l s = Throw e -> exists x s', In x l /\ body x s' = Throw e.
Proof.
  induction l as [| x l IH]; intros s H; simpl in H; [discriminate |].
  destruct (body x s) as [s1 |] eqn:E; simpl in H.
  - destruct (IH _ H) as [y [s' [Hy Hs']]]. exists y, s'. split; [now right | exact Hs'].
  - inversion H; subst. exists x, s. split; [now left | exact E].
Qed.

Lemma atLeaf_Throw (f : DirectoryNode -> Result DirectoryNode) (path : list string)
    (e : Error) :
  forall d, atLeaf d path f = Throw e -> exists leaf, f leaf = Throw e.
Proof.
  induction path as [| part rest IH]; intros d H; simpl in H; [now exists d |].
  destruct (atLeaf _ rest f) as [c |] eqn:E; simpl in H; [discriminate |].
  inversion H; subst. eapply IH. exact E.
Qed.

Lemma bind_Throw {A B} (r : Result A) (k : A -> Result B) (e : Error) :
  bind r k = Throw e -> r = Throw e \/ exists a, r = OK a /\ k a = Throw e.
Proof.
  destruct r as [a | e']; simpl; intros H.
  - right. now exists a.
  - left. inversion H. reflexivity.
Qed.

Section ErrorFacts.
Context {M : Matchers}.

Lemma getFileMeta_Throw (env : Env) (key : string) (options : Options) (e : Error) :
  getFileMeta env key options = Throw e -> scanErrorOf env options e.
Proof.
  unfold getFileMeta. cbv zeta.
  destruct options.(unstable_platformExtensions) eqn:Hext,
           options.(unstable_improvedErrorMessages) eqn:Himp;
    cbn [andb];
    repeat match goal with
           | |- context [if ?c then _ else _] => destruct c
           end;
    simpl; intros H; inversion H; subst; simpl; assumption.
Qed.

Lemma extrapolateGroups_Throw (env : Env) (options : Options) (fuel : nat) :
  forall key keys e,
    extrapolateGroups fuel key keys = Throw e -> scanErrorOf env options e.
Proof.
  intros key keys e H.
  pose proof (extrapolateGroups_safely fuel key keys) as Hs. rewrite H in Hs. simpl in Hs.
  assert (Hshape : forall f k ks err, extrapolateGroups f k ks = Throw err ->
            err = RangeError \/ exists g k', err = DuplicateGroupName g k').
  { clear. induction f as [| f IH]; intros k ks err H; simpl in H.
    - inversion H. now left.
    - destruct (truthy (matchGroupName k)) as [m |]; [| discriminate].
      destruct (negb _); [inversion H; right; eauto |].
      destruct (Nat.eqb _ 1); [discriminate |].
      apply forEach_Throw in H. destruct H as [g [s' [_ Hg]]]. eapply IH. exact Hg. }
  destruct (Hshape _ _ _ _ H) as [-> | [g [k' ->]]]; exact I.
Qed.

Lemma placeLayout_Throw (env : Env) (options : Options) (h : Heap) (filePath : string)
    (meta : FileMeta.t) (node : Ref) (leaf : DirectoryNode) (e : Error) :
  placeLayout h filePath meta node leaf = Throw e ->
  e = TypeError \/ exists a b c, e = LayoutConflict a b c.
Proof.
  unfold placeLayout. destruct (JS.at_ _ _) as [existing |]; [| discriminate].
  unfold deref. destruct (nth_error h existing); simpl; intros H; inversion H; eauto.
Qed.

Lemma placeView_Throw (env : Env) (options : Options) (h : Heap) (filePath : string)
    (meta : FileMeta.t) (node : Ref) (leaf : DirectoryNode) (e : Error) :
  placeView env options h filePath meta node leaf = Throw e ->
  e = TypeError
  \/ (env.(NODE_ENV) <> "production"
      /\ ((options.(unstable_improvedErrorMessages) = false
           /\ exists a, e = MultipleFilesMatch a)
          \/ (options.(unstable_improvedErrorMessages) = true
              /\ exists a b c, e = RouteConflict a b c))).
Proof.
  unfold placeView. destruct (String.eqb _ "production") eqn:Emode; [discriminate |].
  apply String.eqb_neq in Emode.
  destruct (JS.at_ _ _) as [existing |]; [| discriminate].
  destruct options.(unstable_improvedErrorMessages).
  - unfold deref. destruct (nth_error h existing); simpl; intros H; inversion H; subst.
    + right. split; [exact Emode |]. right. split; [reflexivity | eauto].
    + now left.
  - intros H. inversion H; subst. right. split; [exact Emode |].
    left. split; [reflexivity | eauto].
Qed.

(** Every error of the scan agrees with the mode and the options. *)
Lemma getDirectoryTree_Throw (env : Env) (fuel : nat) (contextModule : RequireContext)
    (options : Options) (e : Error) :
  getDirectoryTree env fuel contextModule options = Throw e -> scanErrorOf env options e.
Proof.
  intros H.
  assert (Hscan : scanError e).
  { pose proof (getDirectoryTree_safely false env fuel contextModule options) as Hs.
    rewrite H in Hs. apply Hs. discriminate. }
  unfold getDirectoryTree in H. apply bind_Throw in H.
  destruct H as [H | [st [_ H]]].
  2:{ destruct st.(directoryTree).(layout); discriminate. }
  apply forEach_Throw in H. destruct H as [f [st [_ H]]].
  unfold processFile in H.
  destruct (existsb _ (getIgnoreList options)); [discriminate |].
  apply bind_Throw in H. destruct H as [H | [meta [_ H]]];
    [eapply getFileMeta_Throw; exact H |].
  destruct (meta.(FileMeta.specificity) <? 0)%Z; [discriminate |].
  apply bind_Throw in H. destruct H as [H | [keys [_ H]]];
    [eapply extrapolateGroups_Throw; exact H |].
  unfold alloc in H. destruct meta.(FileMeta.isLayout).
  - apply bind_Throw in H. destruct H as [H | [d [_ H]]]; [| discriminate].
    apply forEach_Throw in H. destruct H as [leaf [d [_ H]]].
    apply atLeaf_Throw in H. destruct H as [x H].
    apply (placeLayout_Throw env options) in H.
    destruct H as [-> | [a [b [c ->]]]]; [destruct Hscan | exact I].
  - destruct meta.(FileMeta.isApi); [discriminate |].
    apply bind_Throw in H. destruct H as [H | [d [_ H]]]; [| discriminate].
    apply forEach_Throw in H. destruct H as [leaf [d [_ H]]].
    apply atLeaf_Throw in H. destruct H as [x H].
    apply placeView_Throw in H.
    destruct H as [-> | [Hmode [[Himp [a ->]] | [Himp [a [b [c ->]]]]]]];
      [destruct Hscan | split; assumption | split; assumption].
Qed.

(** A scan that fails makes [getRoutes] fail the same way. *)
Lemma getRoutes_scan_Throw (env : Env) (fuel : nat) (contextModule : RequireContext)
    (options : Options) (e : Error) :
  getDirectoryTree env fuel contextModule options = Throw e ->
  getRoutes env fuel contextModule options = Throw e.
Proof. intros H. unfold getRoutes. now rewrite H. Qed.

Lemma getDirectoryTree_scanned (strict : bool) (env : Env) (fuel : nat)
    (contextModule : RequireContext) (options : Options) (t : DirectoryTree) :
  (strict = true -> options.(unstable_platformExtensions) = false) ->
  getDirectoryTree env fuel contextModule options = OK t ->
  scanned strict t.
Proof.
  intros Hstrict H.
  pose proof (getDirectoryTree_safely strict env fuel contextModule options Hstrict) as Hs.
  rewrite H in Hs. apply Hs.
Qed.

End ErrorFacts.


(** ** What a run of [getRoutes] can raise *)

(** X1: an error of the scan tells the mode and the options it was raised
    under: a view conflict is raised outside production only, worded by
    [unstable_improvedErrorMessages], as is the error of a base name wrapped
    in parentheses; the platform-extension error needs the extensions
    disabled; the scan raises neither a [TypeError] nor the missing-fallback
    error; and [getRoutes] fails with the error of its scan. *)
Theorem scan_errors_follow_options (M : Matchers) (env : Env) (fuel : nat)
    (contextModule : RequireContext) (options : Options) (e : Error)
    (Hscan : getDirectoryTree env fuel contextModule options = Throw e) :
  scanErrorOf env options e
  /\ getRoutes env fuel contextModule options = Throw e.
Proof.
  split.
  - eapply getDirectoryTree_Throw. exact Hscan.
  - apply getRoutes_scan_Throw. exact Hscan.
Qed.

Lemma scan_errors_follow_options_witness :
  scanErrorOf ios defaultOptions (MultipleFilesMatch "a")
  /\ getRoutes ios 1 ["./a.tsx"; "./a.js"] defaultOptions = Throw (MultipleFilesMatch "a").
Proof.
  apply (scan_errors_follow_options matchers ios 1 ["./a.tsx"; "./a.js"] defaultOptions).
  vm_compute. reflexivity.
Defined.

(** X2: [getRoutes] fails in two ways only: with the error of its scan, or,
    after a scan that returned and with platform extensions enabled, with
    the missing-fallback error of a candidate array whose rank 0 is a hole.
    With the extensions disabled a scan that returns makes [getRoutes]
    return, and reading a property of [undefined] never happens. *)
Theorem getRoutes_fails_as_scan_or_fallback (M : Matchers) (env : Env) (fuel : nat)
    (contextModule : RequireContext) (options : Options) (e : Error)
    (Hfails : getRoutes env fuel contextModule options = Throw e) :
  getDirectoryTree env fuel contextModule options = Throw e
  \/ (exists t contextKey_,
        getDirectoryTree env fuel contextModule options = OK t
        /\ options.(unstable_platformExtensions) = true
        /\ e = NoFallbackPlatformRoute contextKey_).
Proof.
  destruct (getDirectoryTree env fuel contextModule options) as [t | e'] eqn:Ht.
  - right.
    destruct options.(unstable_platformExtensions) eqn:Hext.
    + assert (Hs : scanned false t).
      { eapply getDirectoryTree_scanned; [discriminate | exact Ht]. }
      pose proof (getRoutes_after_scan false _ _ _ _ _ Ht Hs) as H.
      rewrite Hfails in H. destruct H as [_ [c Hc]]. now exists t, c.
    + assert (Hs : scanned true t).
      { eapply getDirectoryTree_scanned; [intros _; exact Hext | exact Ht]. }
      pose proof (getRoutes_after_scan true _ _ _ _ _ Ht Hs) as H.
      rewrite Hfails in H. destruct H as [H _]. discriminate.
  - left. unfold getRoutes in Hfails. rewrite Ht in Hfails. simpl in Hfails.
    inversion Hfails. reflexivity.
Qed.

Lemma getRoutes_fails_as_scan_or_fallback_witness :
  exists t contextKey_,
    getDirectoryTree ios 1 ["./index.android.tsx"; "./index.ios.tsx"] platformExtensions = OK t
    /\ NoFallbackPlatformRoute "./index.ios.tsx" = NoFallbackPlatformRoute contextKey_.
Proof.
  destruct (getRoutes_fails_as_scan_or_fallback matchers ios 1
              ["./index.android.tsx"; "./index.ios.tsx"] platformExtensions
              (NoFallbackPlatformRoute "./index.ios.tsx"))
    as [H | [t [c [Ht [_ Hc]]]]].
  - vm_compute. reflexivity.
  - vm_compute in H. discriminate.
  - now exists t, c.
Defined.

(** ** The candidate arrays of a scanned tree *)

Lemma wfDirectory_directoryAt (strict : bool) (n : nat) (path : list string) :
  forall d leaf, wfDirectory strict n d -> directoryAt d path = Some leaf ->
    wfDirectory strict n leaf.
Proof.
  induction path as [| part rest IH]; intros d leaf Hwf H; simpl in H.
  - inversion H; subst. exact Hwf.
  - destruct (JS.mapGet d.(subdirectories) part) as [child |] eqn:E; [| discriminate].
    eapply IH; [| exact H].
    pose proof (wfDirectory_child strict n d part Hwf) as Hc. now rewrite E in Hc.
Qed.

(** X3: in every directory of a scanned tree, the candidates of the layout
    and of each view name form an array that is not empty, ends in a
    populated slot, has at most the three ranks 0, 1 and 2, and holds
    objects of the store only; with platform extensions disabled its rank 0
    is populated. *)
Theorem scan_candidate_arrays (M : Matchers) (env : Env) (fuel : nat)
    (contextModule : RequireContext) (options : Options) (t : DirectoryTree)
    (path : list string) (leaf : DirectoryNode)
    (Hscan : getDirectoryTree env fuel contextModule options = OK t)
    (Hleaf : directoryAt t.(directoryTree) path = Some leaf) :
  forall arr,
    leaf.(layout) = Some arr \/ (exists name_, In (name_, arr) leaf.(views)) ->
    arr <> []
    /\ (exists last_, JS.lastElement arr = Some last_)
    /\ length arr <= 3
    /\ (forall r, In (Some r) arr -> exists n, nth_error t.(heap) r = Some n)
    /\ (options.(unstable_platformExtensions) = false -> JS.at_ arr 0 <> None).
Proof.
  intros arr Harr.
  assert (Hwf : wfDirectory (negb options.(unstable_platformExtensions))
                  (length t.(heap)) leaf).
  { eapply wfDirectory_directoryAt; [| exact Hleaf].
    apply (getDirectoryTree_scanned _ env fuel contextModule options t); [| exact Hscan].
    intros H. now apply negb_true_iff in H. }
  assert (Hok : okArray (negb options.(unstable_platformExtensions)) (length t.(heap)) arr).
  { inversion Hwf as [l v s Hl Hv Hs Heq]. subst leaf. simpl in Harr.
    destruct Harr as [Harr | [k Hk]]; [now apply Hl | eapply Hv; exact Hk]. }
  destruct Hok as [Hne [Hends [Hlen [Hrefs Hzero]]]].
  split; [exact Hne |].
  split; [destruct Hends as [-> | Hends]; [contradiction | exact Hends] |].
  split; [exact Hlen |].
  split.
  - intros r Hr. apply Hrefs in Hr.
    destruct (nth_error t.(heap) r) as [n |] eqn:E; [now exists n |].
    apply nth_error_None in E. lia.
  - intros Hext. apply Hzero. now rewrite Hext.
Qed.

Lemma scan_candidate_arrays_witness :
  exists t leaf,
    getDirectoryTree ios 1 ["./a/index.tsx"; "./a/index.ios.tsx"] platformExtensions = OK t
    /\ directoryAt t.(directoryTree) ["a"] = Some leaf
    /\ forall arr, In ("a/index", arr) leaf.(views) ->
         length arr <= 3 /\ exists last_, JS.lastElement arr = Some last_.
Proof.
  destruct (getDirectoryTree ios 1 ["./a/index.tsx"; "./a/index.ios.tsx"] platformExtensions)
    as [t | e] eqn:E; [| vm_compute in E; discriminate].
  destruct (directoryAt t.(directoryTree) ["a"]) as [leaf |] eqn:El.
  - exists t, leaf. split; [reflexivity |]. split; [exact El |].
    intros arr Harr.
    destruct (scan_candidate_arrays matchers ios 1 _ platformExtensions t ["a"] leaf E El arr)
      as [_ [Hlast [Hlen _]]].
    + right. now exists "a/index".
    + split; assumption.
  - vm_compute in E. inversion E; subst t. vm_compute in El. discriminate.
Defined.

(** ** The nodes of a returned tree *)

Section TreeShape.
Context {M : Matchers}.

Lemma getRoutes_tidy (env : Env) (fuel : nat) (contextModule : RequireContext)
    (options : Options) (root : Ref) (h : Heap) :
  getRoutes env fuel contextModule options = OK (Some (root, h)) ->
  tidy options None h
  /\ exists r, nth_error h root = Some r /\ hoistedLayout options r.
Proof.
  intros H. unfold getRoutes in H.
  destruct (getDirectoryTree env fuel contextModule options) as [t |] eqn:Ht;
    [| discriminate].
  pose proof (getDirectoryTree_safely false env fuel contextModule options) as Hs.
  rewrite Ht in Hs. destruct Hs as [[Hwf Hc] Hlayout]; [discriminate |].
  simpl in H.
  destruct (negb t.(hasLayout) && negb t.(hasRoutes)); [discriminate |].
  destruct (if t.(hasRoutes) || options.(unstable_alwaysIncludeSitemap)
            then appendSitemapRoute t.(directoryTree) t.(heap)
            else (t.(directoryTree), t.(heap))) as [d1 h1] eqn:E1.
  assert (H1 : wfDirectory false (length h1) d1 /\ childless h1
               /\ d1.(layout) = t.(directoryTree).(layout)).
  { destruct (t.(hasRoutes) || options.(unstable_alwaysIncludeSitemap)).
    - apply (appendSitemapRoute_scanned false _ _ _ _ E1 Hwf Hc).
    - inversion E1; subst. repeat split; assumption. }
  destruct H1 as [Hwf1 [Hc1 Hl1]].
  destruct (appendNotFoundRoute d1 h1) as [d2 h2] eqn:E2.
  destruct (appendNotFoundRoute_scanned false _ _ _ _ E2 Hwf1 Hc1) as [_ [Hc2 Hl2]].
  unbind H as [[root' h'] [Hh Hr]].
  destruct root' as [root' |]; inversion Hr; subst root' h'.
  destruct (hoist_tidy options d2 None [] "" h2 (Some root) h (childless_tidy options h2 Hc2) Hh)
    as [Htidy [_ Hroot]].
  split; [exact Htidy |].
  destruct Hroot as [l [m [Hl [Hm Hhoisted]]]].
  { rewrite Hl2, Hl1. exact Hlayout. }
  inversion Hl; subst l. now exists m.
Qed.

End TreeShape.

(** X4: in a returned tree the [dynamic] of the root, of every layout below
    it and of every view is computed from the route the node ends with:
    it is [generateDynamic] of that route; and every layout among the
    children of a node is an object of the store. *)
Theorem dynamic_follows_route (M : Matchers) (env : Env) (fuel : nat)
    (contextModule : RequireContext) (options : Options) (root : Ref) (h : Heap)
    (Hresult : getRoutes env fuel contextModule options = OK (Some (root, h))) :
  (exists r, nth_error h root = Some r /\ r.(dynamic) = generateDynamic r.(route))
  /\ (forall parent p l, nth_error h parent = Some p -> In (Layout l) p.(children) ->
        exists n, nth_error h l = Some n /\ n.(dynamic) = generateDynamic n.(route))
  /\ (forall parent p v, nth_error h parent = Some p -> In (View v) p.(children) ->
        v.(dynamic) = generateDynamic v.(route)).
Proof.
  destruct (getRoutes_tidy env fuel contextModule options root h Hresult)
    as [Htidy [r [Hr Hhoisted]]].
  split; [exists r; split; [exact Hr | apply Hhoisted] |].
  split.
  - intros parent p l Hp Hl.
    destruct (Htidy parent p (Layout l) Hp Hl) as [m [Hm [Hex | Hh]]]; [discriminate |].
    exists m. split; [exact Hm | apply Hh].
  - intros parent p v Hp Hv.
    apply (Htidy parent p (View v) Hp Hv).
Qed.

Lemma dynamic_follows_route_witness :
  exists root h r v,
    getRoutes ios 1 ["./[id].tsx"] defaultOptions = OK (Some (root, h))
    /\ nth_error h root = Some r
    /\ In (View v) r.(children)
    /\ v.(contextKey) = "./[id].tsx"
    /\ v.(dynamic) = generateDynamic v.(route).
Proof.
  destruct (getRoutes ios 1 ["./[id].tsx"] defaultOptions) as [[[root h] |] | e] eqn:E.
  - destruct (dynamic_follows_route matchers ios 1 ["./[id].tsx"] defaultOptions root h E)
      as [_ [_ Hviews]].
    destruct (nth_error h root) as [r |] eqn:Er;
      [| vm_compute in E; inversion E; subst; discriminate].
    destruct r.(children) as [| [l | v] cs] eqn:Ec;
      try (vm_compute in E; inversion E; subst; vm_compute in Er; inversion Er; subst;
           discriminate).
    exists root, h, r, v. split; [reflexivity |]. split; [exact Er |].
    split; [rewrite Ec; now left |].
    split.
    + vm_compute in E. inversion E; subst. vm_compute in Er. inversion Er; subst.
      simpl in Ec. inversion Ec. reflexivity.
    + apply (Hviews root r v Er). rewrite Ec. now left.
  - vm_compute in E. discriminate.
  - vm_compute in E. discriminate.
Defined.

(** X5: the options on entry points and loaders reach every node of a
    returned tree: the root and every layout below it have no entry points
    of their own left; a view has none under [ignoreEntryPoints], and else
    a list of entry points free of duplicates; under
    [unstable_stripLoadRoute] no layout and no view has a [loadRoute]. *)
Theorem options_reach_every_node (M : Matchers) (env : Env) (fuel : nat)
    (contextModule : RequireContext) (options : Options) (root : Ref) (h : Heap)
    (Hresult : getRoutes env fuel contextModule options = OK (Some (root, h))) :
  (exists r, nth_error h root = Some r
             /\ r.(entryPoints) = None
             /\ (options.(unstable_stripLoadRoute) = true -> r.(loadRoute) = None))
  /\ (forall parent p l, nth_error h parent = Some p -> In (Layout l) p.(children) ->
        exists n, nth_error h l = Some n
                  /\ n.(entryPoints) = None
                  /\ (options.(unstable_stripLoadRoute) = true -> n.(loadRoute) = None))
  /\ (forall parent p v, nth_error h parent = Some p -> In (View v) p.(children) ->
        (if options.(ignoreEntryPoints) then v.(entryPoints) = None
         else exists l, v.(entryPoints) = Some l /\ NoDup l)
        /\ (options.(unstable_stripLoadRoute) = true -> v.(loadRoute) = None)).
Proof.
  destruct (getRoutes_tidy env fuel contextModule options root h Hresult)
    as [Htidy [r [Hr [He [_ Hl]]]]].
  split; [exists r; repeat split; assumption |].
  split.
  - intros parent p l Hp Hin.
    destruct (Htidy parent p (Layout l) Hp Hin) as [m [Hm [Hex | [He' [_ Hl']]]]];
      [discriminate |].
    exists m. repeat split; assumption.
  - intros parent p v Hp Hin.
    destruct (Htidy parent p (View v) Hp Hin) as [_ [He' Hl']].
    split; assumption.
Qed.

Lemma options_reach_every_node_witness :
  exists root h r,
    getRoutes ios 1 ["./_layout.tsx"; "./index.tsx"] defaultOptions = OK (Some (root, h))
    /\ nth_error h root = Some r
    /\ r.(entryPoints) = None.
Proof.
  destruct (getRoutes ios 1 ["./_layout.tsx"; "./index.tsx"] defaultOptions)
    as [[[root h] |] | e] eqn:E.
  - destruct (options_reach_every_node matchers ios 1 ["./_layout.tsx"; "./index.tsx"]
                defaultOptions root h E) as [[r [Hr [He _]]] _].
    exists root, h, r. repeat split; assumption.
  - vm_compute in E. discriminate.
  - vm_compute in E. discriminate.
Defined.


(** ** Files the scan passes over *)

Lemma forEach_filter {A S} (body : A -> S -> Result S) (keep : A -> bool) (l : list A) :
  (forall x s, keep x = false -> body x s = OK s) ->
  forall s, forEach body l s = forEach body (filter keep l) s.
Proof.
  intros Hskip. induction l as [| x l IH]; intros s; simpl; [reflexivity |].
  destruct (keep x) eqn:E; simpl.
  - destruct (body x s); simpl; [apply IH | reflexivity].
  - rewrite (Hskip x s E). simpl. apply IH.
Qed.

Section SkipFacts.
Context {M : Matchers}.

Lemma processFile_skipped (env : Env) (options : Options) (fuel : nat) (filePath : string)
    (st : DirectoryTree) :
  skippedFile env options filePath = true ->
  processFile env options fuel (getIgnoreList options) filePath st = OK st.
Proof.
  unfold skippedFile, processFile.
  destruct (existsb (fun regex => regex filePath) (getIgnoreList options)); [reflexivity |].
  simpl. destruct (getFileMeta env filePath options) as [meta |]; [| discriminate].
  simpl. intros ->. reflexivity.
Qed.

Lemma getDirectoryTree_skipped (env : Env) (fuel : nat) (contextModule : RequireContext)
    (options : Options) :
  getDirectoryTree env fuel contextModule options
  = getDirectoryTree env fuel
      (filter (fun f => negb (skippedFile env options f)) contextModule) options.
Proof.
  unfold getDirectoryTree. cbv zeta.
  rewrite (forEach_filter _ (fun f => negb (skippedFile env options f))); [reflexivity |].
  intros f st Hf. apply processFile_skipped. now apply negb_false_iff in Hf.
Qed.

Lemma ignored_skipped (env : Env) (options : Options) (filePath : string)
    (regex : string -> bool) :
  In regex (getIgnoreList options) -> regex filePath = true ->
  skippedFile env options filePath = true.
Proof.
  intros Hin Hr. unfold skippedFile.
  assert (H : existsb (fun regex => regex filePath) (getIgnoreList options) = true).
  { apply existsb_exists. now exists regex. }
  now rewrite H.
Qed.

End SkipFacts.

(** X6: the files the scan passes over leave no trace: without patterns
    of its own in the [ignore] option (the two patterns the code adds are
    literals without flags, made anew at every call), [getRoutes] gives the
    same result, or the same error, with those files removed from the
    enumeration.  The files passed over are those a pattern of the ignore
    list matches when it is tested (the root [+html] file, the API routes
    unless [preserveApiRoutes] is set, and the patterns of the [ignore]
    option) and the variants of another platform, whose rank is negative. *)
Theorem skipped_files_leave_no_trace (M : Matchers) (env : Env) (fuel : nat)
    (contextModule : RequireContext) (options : Options) :
  (options.(ignore) = [] ->
   getRoutes env fuel contextModule options
   = getRoutes env fuel (filter (fun f => negb (skippedFile env options f)) contextModule)
       options)
  /\ (forall f, matchesHtml f = true -> skippedFile env options f = true)
  /\ (forall f, options.(preserveApiRoutes) = false -> matchesApi f = true ->
        skippedFile env options f = true)
  /\ (forall f regex, In regex options.(ignore) -> regex f = true ->
        skippedFile env options f = true)
  /\ (forall f meta, getFileMeta env f options = OK meta ->
        (meta.(FileMeta.specificity) < 0)%Z -> skippedFile env options f = true).
Proof.
  split; [| split; [| split; [| split]]].
  - intros _. unfold getRoutes. now rewrite <- getDirectoryTree_skipped.
  - intros f Hf. apply (ignored_skipped env options f matchesHtml); [| exact Hf].
    unfold getIgnoreList. cbv zeta.
    destruct (negb options.(preserveApiRoutes)); [apply in_or_app; left |]; now left.
  - intros f Hp Hf. apply (ignored_skipped env options f matchesApi); [| exact Hf].
    unfold getIgnoreList. cbv zeta. rewrite Hp. simpl. right.
    apply in_or_app. right. now left.
  - intros f regex Hin Hf. apply (ignored_skipped env options f regex); [| exact Hf].
    unfold getIgnoreList. cbv zeta.
    destruct (negb options.(preserveApiRoutes)); [apply in_or_app; left |]; now right.
  - intros f meta Hmeta Hneg. unfold skippedFile. rewrite Hmeta.
    apply Z.ltb_lt in Hneg. rewrite Hneg. apply orb_true_r.
Qed.

Lemma skipped_files_leave_no_trace_witness :
  getRoutes ios 1 ["./index.tsx"; "./+html.tsx"; "./hello+api.ts"; "./index.android.tsx"]
    platformExtensions
  = getRoutes ios 1
      (filter (fun f => negb (skippedFile ios platformExtensions f))
         ["./index.tsx"; "./+html.tsx"; "./hello+api.ts"; "./index.android.tsx"])
      platformExtensions.
Proof.
  exact (proj1 (skipped_files_leave_no_trace matchers ios 1
                  ["./index.tsx"; "./+html.tsx"; "./hello+api.ts"; "./index.android.tsx"]
                  platformExtensions) eq_refl).
Defined.

(** ** The failures and the fields of [getFileMeta] *)

Section MetaFields.
Context {M : Matchers}.

Lemma getFileMeta_fields (env : Env) (filePath : string) (options : Options)
    (meta : FileMeta.t) :
  getFileMeta env filePath options = OK meta ->
  meta.(FileMeta.key) = removeLeadingDotSlash filePath
  /\ meta.(FileMeta.parts) = JS.split meta.(FileMeta.key) "/"
  /\ meta.(FileMeta.dirname) = JS.join (JS.sliceInit meta.(FileMeta.parts)) "/"
  /\ meta.(FileMeta.filename) = last meta.(FileMeta.parts) EmptyString
  /\ meta.(FileMeta.isLayout) = JS.startsWith meta.(FileMeta.filename) "_layout."
  /\ meta.(FileMeta.isApi) = matchesApi meta.(FileMeta.key)
  /\ meta.(FileMeta.filepathWithoutExtensions) = removeSupportedExtensions meta.(FileMeta.key).
Proof.
  unfold getFileMeta. cbv zeta.
  destruct (JS.startsWith _ "(" && JS.endsWith _ ")");
    [destruct options.(unstable_improvedErrorMessages); discriminate |].
  intros H. unbind H as [[specificity name_] [_ H]].
  inversion H; subst meta. simpl. repeat split.
Qed.

End MetaFields.

(** X7: [getFileMeta] throws in two cases and no other: when the base name
    without its extensions is wrapped in parentheses, with the error the option
    [unstable_improvedErrorMessages] selects and before the platform is
    looked at; and when platform extensions are disabled and the last
    dot-segment of the base name is a known platform. *)
Theorem getFileMeta_fails_iff (M : Matchers) (env : Env) (key : string) (options : Options) :
  ((exists e, getFileMeta env key options = Throw e)
   <-> groupWrapped key = true
       \/ (options.(unstable_platformExtensions) = false
           /\ In (platformOf key) validPlatforms))
  /\ (groupWrapped key = true ->
      getFileMeta env key options
      = Throw (if options.(unstable_improvedErrorMessages)
               then InvalidGroupRoute (removeLeadingDotSlash key)
               else DeprecatedLayoutRoute (removeLeadingDotSlash key)
                      (removeSupportedExtensions (removeLeadingDotSlash key))))
  /\ (groupWrapped key = false ->
      options.(unstable_platformExtensions) = false ->
      In (platformOf key) validPlatforms ->
      getFileMeta env key options = Throw InvalidPlatformExtension).
Proof.
  assert (Hwrapped : groupWrapped key = true ->
            getFileMeta env key options
            = Throw (if options.(unstable_improvedErrorMessages)
                     then InvalidGroupRoute (removeLeadingDotSlash key)
                     else DeprecatedLayoutRoute (removeLeadingDotSlash key)
                            (removeSupportedExtensions (removeLeadingDotSlash key)))).
  { unfold getFileMeta, groupWrapped. cbv zeta. intros ->.
    destruct options.(unstable_improvedErrorMessages); reflexivity. }
  assert (Hplatform : groupWrapped key = false ->
            options.(unstable_platformExtensions) = false ->
            In (platformOf key) validPlatforms ->
            getFileMeta env key options = Throw InvalidPlatformExtension).
  { unfold getFileMeta, groupWrapped, platformOf. cbv zeta. intros -> -> Hin.
    apply inList_In in Hin. rewrite Hin. reflexivity. }
  split; [| split; assumption].
  split.
  - intros [e He].
    destruct (groupWrapped key) eqn:Hw; [now left | right].
    destruct options.(unstable_platformExtensions) eqn:Hext.
    + destruct (getFileMeta_ranks env key options Hext Hw) as [meta [Hmeta _]].
      rewrite Hmeta in He. discriminate.
    + split; [reflexivity |].
      apply inList_In.
      destruct (JS.inList validPlatforms (platformOf key)) eqn:Hin; [reflexivity |].
      exfalso. revert He. unfold getFileMeta, groupWrapped, platformOf in *. cbv zeta.
      rewrite Hw, Hext, Hin. discriminate.
  - intros [Hw | [Hext Hin]].
    + eexists. apply Hwrapped. exact Hw.
    + destruct (groupWrapped key) eqn:Hw.
      * eexists. apply Hwrapped. reflexivity.
      * eexists. apply Hplatform; [reflexivity | exact Hext | exact Hin].
Qed.

Lemma getFileMeta_fails_iff_witness :
  getFileMeta ios "./settings/(tabs).tsx" defaultOptions
  = Throw (DeprecatedLayoutRoute "settings/(tabs).tsx" "settings/(tabs)")
  /\ getFileMeta ios "./index.web.tsx" defaultOptions = Throw InvalidPlatformExtension.
Proof.
  split.
  - apply (proj1 (proj2 (getFileMeta_fails_iff matchers ios "./settings/(tabs).tsx"
                           defaultOptions))).
    reflexivity.
  - apply (proj2 (proj2 (getFileMeta_fails_iff matchers ios "./index.web.tsx"
                           defaultOptions))).
    + reflexivity.
    + reflexivity.
    + vm_compute. tauto.
Defined.

(** ** Paths and their segments *)

Lemma append_assoc_ (a b c : string) : ((a ++ b) ++ c = a ++ (b ++ c))%string.
Proof. induction a as [| x a IH]; simpl; [reflexivity | now rewrite IH]. Qed.

Lemma join_split (s : string) (sep : ascii) :
  JS.join (JS.split s sep) (String sep EmptyString) = s.
Proof.
  induction s as [| c s IH]; simpl; [reflexivity |].
  destruct (Ascii.eqb c sep) eqn:E.
  - apply Ascii.eqb_eq in E. subst c.
    destruct (JS.split s sep) as [| x xs] eqn:Es; [now apply split_nonempty in Es |].
    change (JS.join (EmptyString :: x :: xs) (String sep EmptyString))
      with (String sep (JS.join (x :: xs) (String sep EmptyString))).
    now rewrite IH.
  - destruct (JS.split s sep) as [| x xs] eqn:Es; [now apply split_nonempty in Es |].
    destruct xs as [| y ys]; simpl in IH |- *; now rewrite IH.
Qed.

Lemma split_app (a b : string) (sep : ascii) :
  JS.split (a ++ String sep b) sep = JS.split a sep ++ JS.split b sep.
Proof.
  induction a as [| c a IH]; simpl.
  - now rewrite Ascii.eqb_refl.
  - destruct (Ascii.eqb c sep); [now rewrite IH |].
    rewrite IH.
    destruct (JS.split a sep) as [| x xs] eqn:Es; [now apply split_nonempty in Es |].
    reflexivity.
Qed.

Lemma split_no_separator (s : string) (sep : ascii) :
  forall part, In part (JS.split s sep) -> hasChar sep part = false.
Proof.
  induction s as [| c s IH]; simpl.
  - intros part [<- | []]. reflexivity.
  - destruct (Ascii.eqb c sep) eqn:E.
    + intros part [<- | H]; [reflexivity | now apply IH].
    + destruct (JS.split s sep) as [| x xs] eqn:Es; [now apply split_nonempty in Es |].
      intros part [<- | H].
      * unfold hasChar. simpl. rewrite Ascii.eqb_sym, E. simpl.
        apply (IH x). now left.
      * apply IH. now right.
Qed.

Lemma hasChar_separator (c : ascii) (a b : string) : hasChar c (a ++ String c b) = true.
Proof.
  unfold hasChar. induction a as [| x a IH]; cbn [append list_ascii_of_string existsb].
  - now rewrite Ascii.eqb_refl.
  - rewrite IH. apply orb_true_r.
Qed.

Lemma last_In {A} (l : list A) (d : A) : l <> [] -> In (last l d) l.
Proof.
  induction l as [| x l IH]; intros H; [contradiction |].
  destruct l as [| y l]; [now left |].
  right. apply IH. discriminate.
Qed.

Lemma join_sliceInit_last (l : list string) (sep : string) :
  2 <= length l ->
  JS.join l sep = (JS.join (JS.sliceInit l) sep ++ sep ++ last l EmptyString)%string.
Proof.
  induction l as [| x l IH]; intros H; [simpl in H; lia |].
  destruct l as [| y l]; [simpl in H; lia |].
  destruct l as [| z l]; [reflexivity |].
  change (JS.join (x :: y :: z :: l) sep)
    with (x ++ sep ++ JS.join (y :: z :: l) sep)%string.
  rewrite IH by (simpl; lia).
  change (JS.sliceInit (x :: y :: z :: l)) with (x :: JS.sliceInit (y :: z :: l)).
  change (last (x :: y :: z :: l) EmptyString) with (last (y :: z :: l) EmptyString).
  destruct (JS.sliceInit (y :: z :: l)) as [| u us] eqn:Eu; [discriminate |].
  change (JS.join (x :: u :: us) sep) with (x ++ sep ++ JS.join (u :: us) sep)%string.
  now rewrite !append_assoc_.
Qed.

(** X8: the fields [getFileMeta] returns recompose the path: the key is the
    path without its leading [./]; its parts joined by [/] give the key
    back; the file name holds no [/]; and the key is the file name alone,
    with an empty directory name, when it holds no [/], and else the
    directory name, a [/] and the file name. *)
Theorem getFileMeta_recomposes (M : Matchers) (env : Env) (filePath : string)
    (options : Options) (meta : FileMeta.t)
    (Hmeta : getFileMeta env filePath options = OK meta) :
  meta.(FileMeta.key) = removeLeadingDotSlash filePath
  /\ JS.join meta.(FileMeta.parts) "/" = meta.(FileMeta.key)
  /\ hasChar "/" meta.(FileMeta.filename) = false
  /\ (if hasChar "/" meta.(FileMeta.key)
      then meta.(FileMeta.key)
           = (meta.(FileMeta.dirname) ++ "/" ++ meta.(FileMeta.filename))%string
      else meta.(FileMeta.dirname) = EmptyString
           /\ meta.(FileMeta.filename) = meta.(FileMeta.key)).
Proof.
  destruct (getFileMeta_fields env filePath options meta Hmeta)
    as [Hkey [Hparts [Hdir [Hfile _]]]].
  split; [exact Hkey |].
  assert (Hjoin : JS.join meta.(FileMeta.parts) "/" = meta.(FileMeta.key)).
  { rewrite Hparts. apply join_split. }
  split; [exact Hjoin |].
  assert (Hnone : hasChar "/" meta.(FileMeta.filename) = false).
  { rewrite Hfile. apply (split_no_separator meta.(FileMeta.key)).
    rewrite Hparts. apply last_In, split_nonempty. }
  split; [exact Hnone |].
  destruct (hasChar "/" meta.(FileMeta.key)) eqn:Hslash.
  - destruct meta.(FileMeta.parts) as [| x [| y l]] eqn:Ep.
    + symmetry in Hparts. now apply split_nonempty in Hparts.
    + simpl in Hjoin, Hfile. rewrite <- Hjoin, <- Hfile in Hslash. congruence.
    + rewrite <- Hjoin, Hdir, Hfile. apply join_sliceInit_last. simpl. lia.
  - destruct meta.(FileMeta.parts) as [| x [| y l]] eqn:Ep.
    + symmetry in Hparts. now apply split_nonempty in Hparts.
    + simpl in Hjoin, Hfile, Hdir. rewrite Hdir, Hfile. now split.
    + exfalso. rewrite <- Hjoin in Hslash.
      change (JS.join (x :: y :: l) "/") with (x ++ String "/" (JS.join (y :: l) "/"))%string
        in Hslash.
      rewrite hasChar_separator in Hslash. discriminate.
Qed.

Lemma getFileMeta_recomposes_witness :
  exists meta,
    getFileMeta ios "./a/b/c.tsx" defaultOptions = OK meta
    /\ meta.(FileMeta.key) = "a/b/c.tsx"
    /\ meta.(FileMeta.key)
       = (meta.(FileMeta.dirname) ++ "/" ++ meta.(FileMeta.filename))%string.
Proof.
  destruct (getFileMeta ios "./a/b/c.tsx" defaultOptions) as [meta | e] eqn:E;
    [| vm_compute in E; discriminate].
  destruct (getFileMeta_recomposes matchers ios "./a/b/c.tsx" defaultOptions meta E)
    as [Hkey [_ [_ Hsplit]]].
  exists meta. split; [reflexivity |]. split; [exact Hkey |].
  rewrite Hkey in Hsplit |- *. exact Hsplit.
Defined.


(** ** Group lists *)

Lemma length_fold_setAdd (l acc : list string) :
  length (fold_left JS.setAdd l acc) <= length acc + length l.
Proof.
  revert acc. induction l as [| x l IH]; intros acc; simpl; [lia |].
  specialize (IH (JS.setAdd acc x)). unfold JS.setAdd in *.
  destruct (JS.inList acc x); [lia |].
  rewrite length_app in IH. simpl in IH. lia.
Qed.

Lemma fold_setAdd_full (l acc : list string) :
  length (fold_left JS.setAdd l acc) = length acc + length l -> NoDup l.
Proof.
  revert acc. induction l as [| x l IH]; intros acc H; [constructor |].
  simpl in H. unfold JS.setAdd in H at 2.
  destruct (JS.inList acc x) eqn:E.
  - pose proof (length_fold_setAdd l acc). lia.
  - assert (Hl : length (fold_left JS.setAdd l (acc ++ [x])) = length (acc ++ [x]) + length l).
    { rewrite length_app. simpl. lia. }
    constructor; [| eapply IH; exact Hl].
    intros Hx.
    assert (Hnd : NoDup (x :: l) -> False).
    { intros Hnd. inversion Hnd; contradiction. }
    clear IH H Hnd.
    (* a member added twice leaves the set one short *)
    assert (Hshort : forall l' acc', In x acc' -> In x l' ->
              length (fold_left JS.setAdd l' acc') < length acc' + length l').
    { clear. induction l' as [| y l' IH]; intros acc' Ha Hl'; [destruct Hl' |].
      simpl. destruct Hl' as [-> | Hl'].
      - rewrite (setAdd_present acc' x Ha).
        pose proof (length_fold_setAdd l' acc'). lia.
      - specialize (IH (JS.setAdd acc' y) (setAdd_incl acc' y x Ha) Hl').
        unfold JS.setAdd in *. destruct (JS.inList acc' y); [lia |].
        rewrite length_app in IH. simpl in IH. lia. }
    specialize (Hshort l (acc ++ [x])).
    assert (Hin : In x (acc ++ [x])) by (apply in_or_app; right; now left).
    specialize (Hshort Hin Hx). lia.
Qed.

Lemma setAdd_extends (keys : list string) (k : string) :
  exists more, JS.setAdd keys k = keys ++ more.
Proof.
  unfold JS.setAdd. destruct (JS.inList keys k).
  - exists []. now rewrite app_nil_r.
  - now exists [k].
Qed.

Lemma forEach_fold {A S} (body : A -> S -> Result S) (f : S -> A -> S) (l : list A) :
  (forall x s, In x l -> body x s = OK (f s x)) ->
  forall s, forEach body l s = OK (fold_left f l s).
Proof.
  induction l as [| x l IH]; intros Hbody s; simpl; [reflexivity |].
  rewrite (Hbody x s (or_introl eq_refl)). simpl.
  apply IH. intros y s' Hy. apply Hbody. now right.
Qed.

(** A loop whose body is replaced by one that agrees with it on every
    outcome but [avoid] has the same outcome, unless that is [avoid]. *)
Lemma forEach_agree {A S} (body body' : A -> S -> Result S) (avoid : Error) (l : list A) :
  (forall x s, body x s <> Throw avoid -> body' x s = body x s) ->
  forall s, forEach body l s <> Throw avoid -> forEach body' l s = forEach body l s.
Proof.
  intros Hbody. induction l as [| x l IH]; intros s H; simpl in *; [reflexivity |].
  destruct (body x s) as [s1 | e] eqn:E; simpl in H.
  - rewrite (Hbody x s) by (rewrite E; discriminate). rewrite E. simpl. now apply IH.
  - rewrite (Hbody x s) by (rewrite E; exact H). rewrite E. reflexivity.
Qed.

Section GroupLists.
Context {M : Matchers}.

Lemma extrapolateGroups_duplicate (fuel : nat) (key m : string) (keys : list string) :
  truthy (matchGroupName key) = Some m ->
  ~ NoDup (JS.split m ",") ->
  extrapolateGroups (S fuel) key keys = Throw (DuplicateGroupName (JS.split m ",") key).
Proof.
  intros Hm Hdup. simpl. rewrite Hm.
  destruct (Nat.eqb (length (JS.newSet (JS.split m ","))) (length (JS.split m ","))) eqn:E;
    [| reflexivity].
  exfalso. apply Hdup. apply Nat.eqb_eq in E.
  apply (fold_setAdd_full _ []). exact E.
Qed.

Lemma extrapolateGroups_reports (fuel : nat) :
  forall key keys groups key',
    extrapolateGroups fuel key keys = Throw (DuplicateGroupName groups key') ->
    exists m, truthy (matchGroupName key') = Some m
              /\ groups = JS.split m "," /\ ~ NoDup groups.
Proof.
  induction fuel as [| fuel IH]; intros key keys groups key' H; simpl in H;
    [discriminate |].
  destruct (truthy (matchGroupName key)) as [m |] eqn:Hm; [| discriminate].
  destruct (Nat.eqb (length (JS.newSet (JS.split m ","))) (length (JS.split m ","))) eqn:E;
    simpl in H.
  - destruct (Nat.eqb _ 1); [discriminate |].
    apply forEach_Throw in H. destruct H as [g [s' [_ Hg]]]. eapply IH. exact Hg.
  - inversion H; subst groups key'. exists m. split; [exact Hm |]. split; [reflexivity |].
    intros Hnd. apply Nat.eqb_neq in E. apply E.
    unfold JS.newSet. rewrite (newSet_distinct _ [] Hnd) by (intros x _ []). reflexivity.
Qed.

Lemma forEach_extends {A} (body : A -> list string -> Result (list string)) (l : list A) :
  (forall x keys keys', In x l -> body x keys = OK keys' ->
     (exists more, keys' = keys ++ more) /\ (NoDup keys -> NoDup keys')) ->
  forall keys keys', forEach body l keys = OK keys' ->
    (exists more, keys' = keys ++ more) /\ (NoDup keys -> NoDup keys').
Proof.
  induction l as [| x l IH]; intros Hbody keys keys' H; simpl in H.
  - inversion H; subst. split; [exists []; now rewrite app_nil_r | trivial].
  - unbind H as [k1 [H1 H2]].
    destruct (Hbody x keys k1 (or_introl eq_refl) H1) as [[m1 ->] Hn1].
    destruct (IH (fun y a b Hy => Hbody y a b (or_intror Hy)) _ _ H2) as [[m2 ->] Hn2].
    split; [exists (m1 ++ m2); now rewrite app_assoc | auto].
Qed.

Lemma extrapolateGroups_extends (fuel : nat) :
  forall key keys keys', extrapolateGroups fuel key keys = OK keys' ->
    (exists more, keys' = keys ++ more) /\ (NoDup keys -> NoDup keys').
Proof.
  induction fuel as [| fuel IH]; intros key keys keys' H; simpl in H; [discriminate |].
  assert (Hadd : forall k, (exists more, JS.setAdd keys k = keys ++ more)
                           /\ (NoDup keys -> NoDup (JS.setAdd keys k))).
  { intros k. split; [apply setAdd_extends | apply NoDup_setAdd]. }
  destruct (truthy (matchGroupName key)) as [m |].
  - destruct (negb _); [discriminate |].
    destruct (Nat.eqb _ 1).
    + inversion H; subst. apply Hadd.
    + eapply forEach_extends; [| exact H]. intros g a b _. apply IH.
  - inversion H; subst. apply Hadd.
Qed.

Lemma extrapolateGroups_S (fuel : nat) (key : string) (keys : list string) :
  extrapolateGroups (S fuel) key keys
  = match truthy (matchGroupName key) with
    | None => OK (JS.setAdd keys key)
    | Some match_ =>
        if negb (Nat.eqb (length (JS.newSet (JS.split match_ ",")))
                   (length (JS.split match_ ",")))
        then Throw (DuplicateGroupName (JS.split match_ ",") key)
        else if Nat.eqb (length (JS.split match_ ",")) 1
        then OK (JS.setAdd keys key)
        else
          forEach
            (fun group keys =>
               extrapolateGroups fuel (JS.replace key match_ (JS.trim group)) keys)
            (JS.split match_ ",") keys
    end.
Proof. reflexivity. Qed.

Lemma extrapolateGroups_more_fuel (fuel : nat) :
  forall key keys,
    extrapolateGroups fuel key keys <> Throw RangeError ->
    extrapolateGroups (S fuel) key keys = extrapolateGroups fuel key keys.
Proof.
  induction fuel as [| fuel IH]; intros key keys H; [now contradiction H |].
  rewrite (extrapolateGroups_S (S fuel)). rewrite (extrapolateGroups_S fuel) in H |- *.
  destruct (truthy (matchGroupName key)) as [m |]; [| reflexivity].
  destruct (negb _); [reflexivity |].
  destruct (Nat.eqb _ 1); [reflexivity |].
  apply (forEach_agree _ _ RangeError); [| exact H].
  intros g s Hg. now apply IH.
Qed.

End GroupLists.

(** X9: the duplicate-group error is raised for a key whose list holds a
    member twice as written, and for no other: a list with a repeated
    member fails at once, before any member is expanded, and an error that
    comes out of an expansion names a key that has such a list, with the
    members of that list. *)
Theorem duplicate_group_error (M : Matchers) (fuel : nat) (key : string)
    (keys : list string) :
  (forall m, truthy (matchGroupName key) = Some m -> ~ NoDup (JS.split m ",") ->
     extrapolateGroups (S fuel) key keys
     = Throw (DuplicateGroupName (JS.split m ",") key))
  /\ (forall groups key',
        extrapolateGroups fuel key keys = Throw (DuplicateGroupName groups key') ->
        exists m, truthy (matchGroupName key') = Some m
                  /\ groups = JS.split m "," /\ ~ NoDup groups).
Proof.
  split.
  - intros m. apply extrapolateGroups_duplicate.
  - apply extrapolateGroups_reports.
Qed.

Lemma duplicate_group_error_witness :
  extrapolateGroups 1 "(a,b,a)/x.tsx" []
  = Throw (DuplicateGroupName ["a"; "b"; "a"] "(a,b,a)/x.tsx").
Proof.
  apply (proj1 (duplicate_group_error matchers 0 "(a,b,a)/x.tsx" []) "a,b,a").
  - reflexivity.
  - vm_compute. intros H. inversion H as [| x l Hx Hl]; subst. apply Hx. simpl. tauto.
Defined.

(** X10: an expansion that returns only adds to the set it was given: the
    result starts with the keys already there, in their order, holds at
    least one key, and is free of duplicates when the given set is. *)
Theorem expansion_extends_its_set (M : Matchers) (fuel : nat) (key : string)
    (keys keys' : list string)
    (Hexpands : extrapolateGroups fuel key keys = OK keys') :
  (exists more, keys' = keys ++ more)
  /\ keys' <> []
  /\ (NoDup keys -> NoDup keys').
Proof.
  destruct (extrapolateGroups_extends fuel key keys keys' Hexpands) as [Hmore Hnd].
  split; [exact Hmore |]. split; [| exact Hnd].
  eapply extrapolateGroups_nonempty. exact Hexpands.
Qed.

Lemma expansion_extends_its_set_witness :
  exists keys',
    extrapolateGroups 2 "(a,b)/x.tsx" ["(a)/x.tsx"] = OK keys'
    /\ (exists more, keys' = ["(a)/x.tsx"] ++ more)
    /\ NoDup keys'.
Proof.
  destruct (extrapolateGroups 2 "(a,b)/x.tsx" ["(a)/x.tsx"]) as [keys' | e] eqn:E;
    [| vm_compute in E; discriminate].
  destruct (expansion_extends_its_set matchers 2 "(a,b)/x.tsx" ["(a)/x.tsx"] keys' E)
    as [Hmore [_ Hnd]].
  exists keys'. split; [reflexivity |]. split; [exact Hmore |].
  apply Hnd. constructor; [intros [] | constructor].
Defined.

(** X11: a list of several members, distinct as written, whose rewritten
    keys hold no further list of several members, expands member by member
    in the order of the list: each rewritten key
    [key.replace(list, member.trim())] is added to the set in turn. *)
Theorem list_expands_member_by_member (M : Matchers) (fuel : nat) (key m : string)
    (keys : list string)
    (Hlist : truthy (matchGroupName key) = Some m)
    (Hdistinct : NoDup (JS.split m ","))
    (Hseveral : 2 <= length (JS.split m ","))
    (Hplain : forall g, In g (JS.split m ",") ->
       truthy (matchGroupName (JS.replace key m (JS.trim g))) = None
       \/ exists m', truthy (matchGroupName (JS.replace key m (JS.trim g))) = Some m'
                     /\ length (JS.split m' ",") = 1) :
  extrapolateGroups (S (S fuel)) key keys
  = OK (fold_left (fun keys g => JS.setAdd keys (JS.replace key m (JS.trim g)))
          (JS.split m ",") keys).
Proof.
  remember (S fuel) as n eqn:En. cbn [extrapolateGroups]. rewrite Hlist.
  unfold JS.newSet. rewrite (newSet_distinct _ [] Hdistinct) by (intros x _ []).
  simpl app. rewrite Nat.eqb_refl. cbn [negb].
  destruct (Nat.eqb (length (JS.split m ",")) 1) eqn:E1.
  { apply Nat.eqb_eq in E1. lia. }
  apply forEach_fold. intros g s Hg. rewrite En.
  apply extrapolateGroups_single. apply Hplain. exact Hg.
Qed.

Lemma list_expands_member_by_member_witness :
  extrapolateGroups 2 "(a, b ,c)/x.tsx" []
  = OK ["(a)/x.tsx"; "(b)/x.tsx"; "(c)/x.tsx"].
Proof.
  apply (list_expands_member_by_member matchers 0 "(a, b ,c)/x.tsx" "a, b ,c" []).
  - reflexivity.
  - vm_compute. repeat constructor; simpl; intuition discriminate.
  - vm_compute. lia.
  - intros g Hg. vm_compute in Hg.
    destruct Hg as [<- | [<- | [<- | []]]]; right; eexists; split; reflexivity.
Defined.


(** ** The depth of the expansion *)

Section Depth.
Context {M : Matchers}.

Lemma processFile_more_fuel (env : Env) (options : Options) (fuel : nat)
    (ignoreList : list (string -> bool)) (filePath : string) (st : DirectoryTree) :
  processFile env options fuel ignoreList filePath st <> Throw RangeError ->
  processFile env options (S fuel) ignoreList filePath st
  = processFile env options fuel ignoreList filePath st.
Proof.
  unfold processFile.
  destruct (existsb _ ignoreList); [reflexivity |].
  destruct (getFileMeta env filePath options) as [meta | e]; [| reflexivity].
  cbn [bind]. destruct (meta.(FileMeta.specificity) <? 0)%Z; [reflexivity |].
  intros H.
  rewrite extrapolateGroups_more_fuel; [reflexivity |].
  intros E. apply H. rewrite E. reflexivity.
Qed.

Lemma getDirectoryTree_more_fuel (env : Env) (fuel : nat) (contextModule : RequireContext)
    (options : Options) :
  getDirectoryTree env fuel contextModule options <> Throw RangeError ->
  getDirectoryTree env (S fuel) contextModule options
  = getDirectoryTree env fuel contextModule options.
Proof.
  unfold getDirectoryTree. cbv zeta. intros H.
  rewrite (forEach_agree (processFile env options fuel (getIgnoreList options))
             (processFile env options (S fuel) (getIgnoreList options)) RangeError);
    [reflexivity | |].
  - intros f st. apply processFile_more_fuel.
  - intros E. apply H. rewrite E. reflexivity.
Qed.

Lemma getRoutes_more_fuel (env : Env) (fuel : nat) (contextModule : RequireContext)
    (options : Options) :
  getRoutes env fuel contextModule options <> Throw RangeError ->
  getRoutes env (S fuel) contextModule options = getRoutes env fuel contextModule options.
Proof.
  unfold getRoutes. intros H.
  rewrite getDirectoryTree_more_fuel; [reflexivity |].
  intros E. apply H. rewrite E. reflexivity.
Qed.

End Depth.

(** X12: the depth the expansion of group lists may recurse to matters to
    the outcome in one way only: a run that does not overflow gives the
    same tree, or the same error, at every larger depth. *)
Theorem outcome_independent_of_depth (M : Matchers) (env : Env) (fuel fuel' : nat)
    (contextModule : RequireContext) (options : Options)
    (Hdepth : fuel <= fuel')
    (Hfits : getRoutes env fuel contextModule options <> Throw RangeError) :
  getRoutes env fuel' contextModule options = getRoutes env fuel contextModule options.
Proof.
  induction Hdepth as [| fuel' Hle IH]; [reflexivity |].
  rewrite getRoutes_more_fuel; [exact IH |].
  rewrite IH. exact Hfits.
Qed.

Lemma outcome_independent_of_depth_witness :
  getRoutes ios 7 ["./(a,b)/x.tsx"] defaultOptions
  = getRoutes ios 2 ["./(a,b)/x.tsx"] defaultOptions.
Proof.
  apply (outcome_independent_of_depth matchers ios 2 7 ["./(a,b)/x.tsx"] defaultOptions).
  - lia.
  - vm_compute. discriminate.
Defined.

(** ** Dynamic conventions *)

Lemma filterSome_app {A} (l l' : list (option A)) :
  filterSome (l ++ l') = filterSome l ++ filterSome l'.
Proof.
  induction l as [| [a |] l IH]; simpl; [reflexivity | now rewrite IH | exact IH].
Qed.

Lemma filterSome_In {A B} (f : A -> option B) (l : list A) (b : B) :
  In b (filterSome (map f l)) -> exists a, In a l /\ f a = Some b.
Proof.
  induction l as [| x l IH]; simpl; [intros [] |].
  destruct (f x) as [y |] eqn:E.
  - intros [<- | H]; [exists x; split; [now left | exact E] |].
    destruct (IH H) as [a [Ha Hf]]. exists a. split; [now right | exact Hf].
  - intros H. destruct (IH H) as [a [Ha Hf]]. exists a. split; [now right | exact Hf].
Qed.

Lemma length_filterSome {A} (l : list (option A)) : length (filterSome l) <= length l.
Proof. induction l as [| [a |] l IH]; simpl; lia. Qed.

Section Conventions.
Context {M : Matchers}.

Lemma conventions_generateDynamic (path : string) :
  conventions (generateDynamic path) = filterSome (map dynamicOfPart (JS.split path "/")).
Proof.
  unfold generateDynamic. cbv zeta.
  destruct (filterSome (map dynamicOfPart (JS.split path "/"))); reflexivity.
Qed.

Lemma generateDynamic_None (path : string) :
  generateDynamic path = None <-> conventions (generateDynamic path) = [].
Proof.
  split; [intros ->; reflexivity |].
  destruct (generateDynamic path) as [l |] eqn:E; [| reflexivity].
  simpl. intros ->. now apply generateDynamic_not_empty in E.
Qed.

Lemma dynamicOfPart_Some (part : string) (d : DynamicConvention) :
  dynamicOfPart part = Some d ->
  d.(name) <> EmptyString
  /\ ((part = "+not-found" /\ d = notFoundConvention)
      \/ (part <> "+not-found" /\ d.(notFound) = None
          /\ ((d.(deep) = true /\ matchDeepDynamicRouteName part = Some d.(name))
              \/ (d.(deep) = false /\ matchDeepDynamicRouteName part = None
                  /\ matchDynamicName part = Some d.(name))))).
Proof.
  unfold dynamicOfPart.
  destruct (String.eqb part "+not-found") eqn:E.
  - apply String.eqb_eq in E. intros H. inversion H; subst d.
    split; [discriminate | left; now split].
  - apply String.eqb_neq in E. cbv zeta.
    destruct (matchDeepDynamicRouteName part) as [[| c n] |]; simpl.
    + discriminate.
    + intros H. inversion H; subst d. simpl.
      split; [discriminate | right]. repeat split; [exact E |]. left. now split.
    + destruct (matchDynamicName part) as [[| c n] |]; simpl; try discriminate.
      intros H. inversion H; subst d. simpl.
      split; [discriminate | right]. repeat split; [exact E |]. right. repeat split.
Qed.

End Conventions.

(** X13: the conventions of a path are those of its parts in order: for a
    path made of two paths joined by [/], the sequence is the sequence of
    the first followed by the sequence of the second, so the joined path
    has no dynamic segment exactly when neither has one. *)
Theorem generateDynamic_concatenates (M : Matchers) (a b : string) :
  conventions (generateDynamic (a ++ "/" ++ b))
  = conventions (generateDynamic a) ++ conventions (generateDynamic b)
  /\ (generateDynamic (a ++ "/" ++ b) = None
      <-> generateDynamic a = None /\ generateDynamic b = None).
Proof.
  assert (H : conventions (generateDynamic (a ++ "/" ++ b))
              = conventions (generateDynamic a) ++ conventions (generateDynamic b)).
  { rewrite !conventions_generateDynamic.
    change (a ++ "/" ++ b)%string with (a ++ String "/" b)%string.
    now rewrite split_app, map_app, filterSome_app. }
  split; [exact H |].
  rewrite !generateDynamic_None, H. split.
  - apply app_eq_nil.
  - intros [-> ->]. reflexivity.
Qed.

(** X14: every convention of a path comes from one of its segments and has
    a name that is not empty: the not-found marker gives the not-found
    convention whatever the matchers say; any other segment gives a deep
    convention named by the catch-all matcher when that one matches, and
    else a convention that is not deep, named by the dynamic-name matcher;
    and there are no more conventions than segments. *)
Theorem generateDynamic_entries (M : Matchers) (path : string)
    (l : list DynamicConvention)
    (Hdynamic : generateDynamic path = Some l) :
  length l <= length (JS.split path "/")
  /\ forall d, In d l ->
       d.(name) <> EmptyString
       /\ exists part,
            In part (JS.split path "/")
            /\ ((part = "+not-found" /\ d = notFoundConvention)
                \/ (part <> "+not-found" /\ d.(notFound) = None
                    /\ ((d.(deep) = true /\ matchDeepDynamicRouteName part = Some d.(name))
                        \/ (d.(deep) = false /\ matchDeepDynamicRouteName part = None
                            /\ matchDynamicName part = Some d.(name))))).
Proof.
  pose proof (conventions_generateDynamic path) as Hc. rewrite Hdynamic in Hc. simpl in Hc.
  split.
  - rewrite Hc. etransitivity; [apply length_filterSome |]. now rewrite length_map.
  - intros d Hd. rewrite Hc in Hd.
    destruct (filterSome_In _ _ _ Hd) as [part [Hpart Hof]].
    destruct (dynamicOfPart_Some part d Hof) as [Hname Hcases].
    split; [exact Hname |]. exists part. split; assumption.
Qed.

Lemma generateDynamic_entries_witness :
  exists l,
    generateDynamic "[user]/[...rest]/+not-found" = Some l
    /\ length l <= 3
    /\ forall d, In d l -> d.(name) <> EmptyString.
Proof.
  destruct (generateDynamic "[user]/[...rest]/+not-found") as [l |] eqn:E;
    [| vm_compute in E; discriminate].
  destruct (generateDynamic_entries matchers "[user]/[...rest]/+not-found" l E)
    as [Hlen Hall].
  exists l. split; [reflexivity |]. split; [exact Hlen |].
  intros d Hd. apply (Hall d Hd).
Defined.

(** ** Placing a candidate and selecting one *)

(** X15: a candidate written into an array at a rank at least as high as
    every rank the array has is the one [getMostSpecific] selects; written
    at a lower rank it leaves the selection as it was; both provided rank 0
    is populated once it is written. *)
Theorem placed_candidate_precedence (arr : list (option Ref)) (h : Heap) (i : nat) (v : Ref)
    (Hfallback : i = 0 \/ JS.at_ arr 0 <> None) :
  (length arr <= S i -> getMostSpecific (JS.assign arr i v) h = OK (Some v))
  /\ (S i < length arr ->
      getMostSpecific (JS.assign arr i v) h = OK (JS.lastElement arr)).
Proof.
  assert (Hzero : exists a, JS.at_ (JS.assign arr i v) 0 = Some a).
  { destruct Hfallback as [-> | H0].
    - exists v. apply at_assign.
    - destruct i as [| i]; [exists v; apply at_assign |].
      rewrite at_assign_other by discriminate.
      destruct (JS.at_ arr 0) as [a |]; [now exists a | contradiction]. }
  destruct Hzero as [a Ha].
  unfold getMostSpecific. cbv zeta. rewrite Ha.
  unfold JS.lastElement. rewrite length_assign.
  split; intros Hlen.
  - replace (Nat.max (length arr) (S i) - 1) with i by lia.
    now rewrite at_assign.
  - replace (Nat.max (length arr) (S i) - 1) with (length arr - 1) by lia.
    rewrite at_assign_other by lia. reflexivity.
Qed.

Lemma placed_candidate_precedence_witness :
  getMostSpecific (JS.assign [Some 0] 2 1) [] = OK (Some 1)
  /\ getMostSpecific (JS.assign [Some 0; None; Some 2] 1 1) [] = OK (Some 2).
Proof.
  split.
  - assert (H : 2 = 0 \/ JS.at_ [Some 0] 0 <> (None : option Ref)) by (right; discriminate).
    apply (proj1 (placed_candidate_precedence [Some 0] [] 2 1 H)). simpl. lia.
  - assert (H : 1 = 0 \/ JS.at_ [Some 0; None; Some 2] 0 <> (None : option Ref))
      by (right; discriminate).
    apply (proj2 (placed_candidate_precedence [Some 0; None; Some 2] [] 1 1 H)). simpl. lia.
Defined.

(** ** The generated views *)

Lemma mapGet_mapSet_other {V} (m : list (string * V)) (k0 k : string) (v : V) :
  k <> k0 -> JS.mapGet (JS.mapSet m k0 v) k = JS.mapGet m k.
Proof.
  intros Hk. induction m as [| [k' v'] m IH]; simpl.
  - destruct (String.eqb k k0) eqn:E; [apply String.eqb_eq in E; contradiction | reflexivity].
  - destruct (String.eqb k0 k') eqn:E0; simpl.
    + apply String.eqb_eq in E0. subst k'.
      destruct (String.eqb k k0) eqn:E; [apply String.eqb_eq in E; contradiction |].
      reflexivity.
    + destruct (String.eqb k k'); [reflexivity | exact IH].
Qed.

Lemma mapHas_mapSet {V} (m : list (string * V)) (k : string) (v : V) :
  JS.mapHas (JS.mapSet m k v) k = true.
Proof. unfold JS.mapHas. now rewrite mapGet_mapSet. Qed.

(** X16: the two generated views yield to authored ones and are added at
    most once: after [appendSitemapRoute] or [appendNotFoundRoute] the root
    has candidates under the name; the candidates it already had under that
    name are kept, with the directory and the store unchanged; a second run
    changes nothing; and the candidates of every other name, the layout and
    the subdirectories are as before. *)
Theorem generated_views_yield (d : DirectoryNode) (h : Heap) :
  (JS.mapHas (fst (appendSitemapRoute d h)).(views) "_sitemap" = true
   /\ (JS.mapHas d.(views) "_sitemap" = true -> appendSitemapRoute d h = (d, h))
   /\ appendSitemapRoute (fst (appendSitemapRoute d h)) (snd (appendSitemapRoute d h))
      = appendSitemapRoute d h
   /\ (forall k, k <> "_sitemap" ->
         JS.mapGet (fst (appendSitemapRoute d h)).(views) k = JS.mapGet d.(views) k)
   /\ (fst (appendSitemapRoute d h)).(layout) = d.(layout)
   /\ (fst (appendSitemapRoute d h)).(subdirectories) = d.(subdirectories))
  /\ (JS.mapHas (fst (appendNotFoundRoute d h)).(views) "+not-found" = true
      /\ (JS.mapHas d.(views) "+not-found" = true -> appendNotFoundRoute d h = (d, h))
      /\ appendNotFoundRoute (fst (appendNotFoundRoute d h)) (snd (appendNotFoundRoute d h))
         = appendNotFoundRoute d h
      /\ (forall k, k <> "+not-found" ->
            JS.mapGet (fst (appendNotFoundRoute d h)).(views) k = JS.mapGet d.(views) k)
      /\ (fst (appendNotFoundRoute d h)).(layout) = d.(layout)
      /\ (fst (appendNotFoundRoute d h)).(subdirectories) = d.(subdirectories)).
Proof.
  split.
  - unfold appendSitemapRoute.
    destruct (JS.mapHas d.(views) "_sitemap") eqn:E; simpl.
    + rewrite E. repeat split. 
    + rewrite !mapHas_mapSet. destruct d; simpl.
      split; [reflexivity |]. split; [discriminate |]. split; [reflexivity |].
      split; [| split; reflexivity].
      intros k Hk. now apply mapGet_mapSet_other.
  - unfold appendNotFoundRoute.
    destruct (JS.mapHas d.(views) "+not-found") eqn:E; simpl.
    + rewrite E. repeat split.
    + rewrite !mapHas_mapSet. destruct d; simpl.
      split; [reflexivity |]. split; [discriminate |]. split; [reflexivity |].
      split; [| split; reflexivity].
      intros k Hk. now apply mapGet_mapSet_other.
Qed.

(** ** What the scan reports and stores *)

(** X18: the flags of a scan count the files of the enumeration: it
    reports a layout exactly when some file is found as a layout, and
    routes exactly when some file is found as a view; the root of the
    scanned tree has a layout array either way, so the generated root layout
    does not set the layout flag. *)
Theorem scan_flags_count_files (M : Matchers) (env : Env) (fuel : nat)
    (contextModule : RequireContext) (options : Options) (t : DirectoryTree)
    (Hscan : getDirectoryTree env fuel contextModule options = OK t) :
  t.(hasLayout) = existsb (fun f => isFoundLayout (found env options f)) contextModule
  /\ t.(hasRoutes) = existsb (fun f => isFoundView (found env options f)) contextModule
  /\ exists arr, t.(directoryTree).(layout) = Some arr.
Proof.
  destruct (getDirectoryTree_root env fuel contextModule options t Hscan)
    as [_ [Harr [Hl Hr]]].
  repeat split; assumption.
Qed.

Lemma scan_flags_count_files_witness :
  exists t,
    getDirectoryTree ios 1 ["./index.tsx"] defaultOptions = OK t
    /\ t.(hasLayout) = false
    /\ t.(hasRoutes) = true
    /\ exists arr, t.(directoryTree).(layout) = Some arr.
Proof.
  destruct (getDirectoryTree ios 1 ["./index.tsx"] defaultOptions) as [t | e] eqn:E;
    [| vm_compute in E; discriminate].
  destruct (scan_flags_count_files matchers ios 1 ["./index.tsx"] defaultOptions t E)
    as [Hl [Hr Harr]].
  exists t. split; [reflexivity |]. repeat split; assumption.
Defined.

Section StoreFacts.
Context {M : Matchers}.

Lemma processFile_heap (env : Env) (options : Options) (fuel : nat)
    (ignoreList : list (string -> bool)) (filePath : string) (st st' : DirectoryTree) :
  processFile env options fuel ignoreList filePath st = OK st' ->
  st'.(heap) = st.(heap)
  \/ exists meta,
       getFileMeta env filePath options = OK meta
       /\ st'.(heap) = st.(heap) ++ [fileNode options filePath meta].
Proof.
  unfold processFile. intros H.
  destruct (existsb _ ignoreList); [inversion H; now left |].
  unbind H as [meta [Hmeta H]].
  destruct (meta.(FileMeta.specificity) <? 0)%Z; [inversion H; now left |].
  unbind H as [keys [_ H]].
  right. exists meta. split; [exact Hmeta |].
  unfold alloc in H.
  destruct meta.(FileMeta.isLayout).
  - unbind H as [d [_ H]]. inversion H. reflexivity.
  - destruct meta.(FileMeta.isApi).
    + inversion H. reflexivity.
    + unbind H as [d [_ H]]. inversion H. reflexivity.
Qed.

Lemma getDirectoryTree_heap (env : Env) (fuel : nat) (contextModule : RequireContext)
    (options : Options) (t : DirectoryTree) :
  getDirectoryTree env fuel contextModule options = OK t ->
  Forall (scannedNode env options contextModule) t.(heap).
Proof.
  unfold getDirectoryTree. cbv zeta. intros H.
  unbind H as [st [Hscan H]].
  assert (Hst : Forall (scannedNode env options contextModule) st.(heap)).
  { refine (forEach_invariant_In
              (fun s => Forall (scannedNode env options contextModule) s.(heap))
              _ contextModule _ st _ _ Hscan); [| constructor].
    intros f a b Hf Ha Hb.
    destruct (processFile_heap _ _ _ _ _ _ _ Hb) as [-> | [meta [Hmeta ->]]];
      [exact Ha |].
    apply Forall_app. split; [exact Ha |].
    constructor; [| constructor]. right. now exists f, meta. }
  destruct st.(directoryTree).(layout).
  - inversion H; subst. exact Hst.
  - unfold alloc in H. inversion H; subst. simpl.
    apply Forall_app. split; [exact Hst |].
    constructor; [now left | constructor].
Qed.

End StoreFacts.

(** X19: every object of the store of a scan is the generated root layout
    or the node of one file of the enumeration: its context key is the path
    of the file, its route the name [getFileMeta] gives the file, its only
    entry point the file, its loader the require of the file under the
    option [ignoreRequireErrors], and it has no children and no [dynamic]
    yet. *)
Theorem scan_stores_file_nodes (M : Matchers) (env : Env) (fuel : nat)
    (contextModule : RequireContext) (options : Options) (t : DirectoryTree)
    (r : Ref) (n : RouteNode)
    (Hscan : getDirectoryTree env fuel contextModule options = OK t)
    (Hnode : nth_error t.(heap) r = Some n) :
  n = defaultLayout
  \/ exists filePath meta,
       In filePath contextModule
       /\ getFileMeta env filePath options = OK meta
       /\ n.(contextKey) = filePath
       /\ n.(route) = meta.(FileMeta.name)
       /\ n.(entryPoints) = Some [filePath]
       /\ n.(loadRoute) = Some (RequireFile filePath options.(ignoreRequireErrors))
       /\ n.(children) = []
       /\ n.(dynamic) = None
       /\ n.(generated) = false.
Proof.
  pose proof (getDirectoryTree_heap env fuel contextModule options t Hscan) as Hall.
  rewrite Forall_forall in Hall.
  destruct (Hall n (nth_error_In _ _ Hnode)) as [-> | [f [meta [Hf [Hmeta ->]]]]];
    [now left | right].
  exists f, meta. repeat split; assumption.
Qed.

Lemma scan_stores_file_nodes_witness :
  exists t n,
    getDirectoryTree ios 1 ["./a/b.tsx"] defaultOptions = OK t
    /\ nth_error t.(heap) 0 = Some n
    /\ n.(contextKey) = "./a/b.tsx"
    /\ n.(route) = "a/b".
Proof.
  destruct (getDirectoryTree ios 1 ["./a/b.tsx"] defaultOptions) as [t | e] eqn:E;
    [| vm_compute in E; discriminate].
  destruct (nth_error t.(heap) 0) as [n |] eqn:En;
    [| vm_compute in E; inversion E; subst t; discriminate].
  exists t, n. split; [reflexivity |]. split; [exact En |].
  destruct (scan_stores_file_nodes matchers ios 1 ["./a/b.tsx"] defaultOptions t 0 n E En)
    as [Hd | [f [meta [Hf [Hmeta [Hkey [Hroute _]]]]]]].
  - vm_compute in E. inversion E; subst t. vm_compute in En. inversion En; subst n.
    discriminate.
  - destruct Hf as [<- | []]. vm_compute in Hmeta. inversion Hmeta; subst meta.
    split; assumption.
Defined.

(** ** Package managers *)

(** X21: [resolvePackageManager] prefers the manager the process was
    started with, and probes none when there is one; with none it answers
    the first of [yarn], [pnpm] and [bun] whose version command succeeds,
    and [npm] when none does, without probing [npm]: hosts that agree on
    the current manager and on the three probes get the same answer. *)
Theorem resolvePackageManager_priority (host : PackageManager.Host) :
  (forall currentManager,
     host.(PackageManager.resolveCurrentPackageManager) = Some currentManager ->
     currentManager <> EmptyString ->
     PackageManager.resolvePackageManager host = currentManager)
  /\ (truthy host.(PackageManager.resolveCurrentPackageManager) = None ->
      PackageManager.resolvePackageManager host
      = match find (PackageManager.isPackageManagerAvailable host) ["yarn"; "pnpm"; "bun"] with
        | Some manager => manager
        | None => "npm"
        end)
  /\ (forall host',
        host'.(PackageManager.resolveCurrentPackageManager)
        = host.(PackageManager.resolveCurrentPackageManager) ->
        (forall manager, In manager ["yarn"; "pnpm"; "bun"] ->
           host'.(PackageManager.execSync) (manager ++ " --version")
           = host.(PackageManager.execSync) (manager ++ " --version")) ->
        PackageManager.resolvePackageManager host'
        = PackageManager.resolvePackageManager host).
Proof.
  split; [| split].
  - intros c Hc Hne. unfold PackageManager.resolvePackageManager. rewrite Hc.
    destruct c; [contradiction | reflexivity].
  - intros Hnone. unfold PackageManager.resolvePackageManager. rewrite Hnone. simpl.
    destruct (PackageManager.isPackageManagerAvailable host "yarn"); [reflexivity |].
    destruct (PackageManager.isPackageManagerAvailable host "pnpm"); [reflexivity |].
    destruct (PackageManager.isPackageManagerAvailable host "bun"); reflexivity.
  - intros host' Hcur Hprobe.
    unfold PackageManager.resolvePackageManager, PackageManager.isPackageManagerAvailable.
    rewrite Hcur.
    rewrite (Hprobe "yarn") by (simpl; tauto).
    rewrite (Hprobe "pnpm") by (simpl; tauto).
    rewrite (Hprobe "bun") by (simpl; tauto).
    reflexivity.
Qed.

(** X22: the run command tells the manager and the script: for the four
    names of a package manager, two run commands are equal only when the
    managers are the same and the scripts are the same; any other name is
    run as [npm]. *)
Theorem formatRunCommand_unambiguous (packageManager packageManager' cmd cmd' : string) :
  (In packageManager PackageManager.names ->
   In packageManager' PackageManager.names ->
   PackageManager.formatRunCommand packageManager cmd
   = PackageManager.formatRunCommand packageManager' cmd' ->
   packageManager = packageManager' /\ cmd = cmd')
  /\ (~ In packageManager PackageManager.names ->
      PackageManager.formatRunCommand packageManager cmd
      = PackageManager.formatRunCommand "npm" cmd).
Proof.
  split.
  - intros Hname Hname' Hsame.
    unfold PackageManager.names in *. simpl in Hname, Hname'.
    destruct Hname as [<- | [<- | [<- | [<- | []]]]];
      destruct Hname' as [<- | [<- | [<- | [<- | []]]]];
      unfold PackageManager.formatRunCommand in Hsame; simpl in Hsame;
      try discriminate;
      (split; [reflexivity | now inversion Hsame]).
  - intros Hother. unfold PackageManager.formatRunCommand.
    destruct (String.eqb packageManager "pnpm") eqn:E1.
    { apply String.eqb_eq in E1. exfalso. apply Hother. subst. simpl. tauto. }
    destruct (String.eqb packageManager "yarn") eqn:E2.
    { apply String.eqb_eq in E2. exfalso. apply Hother. subst. simpl. tauto. }
    destruct (String.eqb packageManager "bun") eqn:E3.
    { apply String.eqb_eq in E3. exfalso. apply Hother. subst. simpl. tauto. }
    reflexivity.
Qed.

Lemma formatRunCommand_unambiguous_witness :
  PackageManager.formatRunCommand "deno" "start" = "npm run start".
Proof.
  apply (proj2 (formatRunCommand_unambiguous "deno" "deno" "start" "start")).
  simpl. intros [H | [H | [H | [H | []]]]]; discriminate.
Defined.

(** X23: when the process was started with no package manager,
    [formatSelfCommand] runs the CLI with [npx] as soon as [yarn] is
    installed, whatever else is; with [pnpx] when [yarn] is missing and
    [pnpm] is installed; with [bunx] when of the three only [bun] is
    installed; and with [npx] when none is. *)
Theorem formatSelfCommand_runner (CLI_NAME : string) (host : PackageManager.Host) :
  truthy host.(PackageManager.resolveCurrentPackageManager) = None ->
  (PackageManager.isPackageManagerAvailable host "yarn" = true ->
   PackageManager.formatSelfCommand CLI_NAME host = ("npx " ++ CLI_NAME)%string)
  /\ (PackageManager.isPackageManagerAvailable host "yarn" = false ->
      PackageManager.isPackageManagerAvailable host "pnpm" = true ->
      PackageManager.formatSelfCommand CLI_NAME host = ("pnpx " ++ CLI_NAME)%string)
  /\ (PackageManager.isPackageManagerAvailable host "yarn" = false ->
      PackageManager.isPackageManagerAvailable host "pnpm" = false ->
      PackageManager.isPackageManagerAvailable host "bun" = true ->
      PackageManager.formatSelfCommand CLI_NAME host = ("bunx " ++ CLI_NAME)%string)
  /\ (PackageManager.isPackageManagerAvailable host "yarn" = false ->
      PackageManager.isPackageManagerAvailable host "pnpm" = false ->
      PackageManager.isPackageManagerAvailable host "bun" = false ->
      PackageManager.formatSelfCommand CLI_NAME host = ("npx " ++ CLI_NAME)%string).
Proof.
  intros Hnone.
  unfold PackageManager.formatSelfCommand, PackageManager.resolvePackageManager.
  rewrite Hnone. cbv zeta.
  repeat split; intros; repeat match goal with H : _ = _ :> bool |- _ => rewrite H end;
    reflexivity.
Qed.

Lemma formatSelfCommand_runner_witness :
  PackageManager.formatSelfCommand "create-expo"
    {| PackageManager.resolveCurrentPackageManager := None;
       PackageManager.execSync := fun command => String.eqb command "pnpm --version" |}
  = "pnpx create-expo".
Proof.
  refine (proj1 (proj2 (formatSelfCommand_runner "create-expo"
                          {| PackageManager.resolveCurrentPackageManager := None;
                             PackageManager.execSync :=
                               fun command => String.eqb command "pnpm --version" |}
                          eq_refl)) eq_refl eq_refl).
Defined.


(** * The builder under conflicts *)



(** ** Directories reached by a path, before and after a placement *)

Lemma atLeaf_walk (path : list string) :
  forall d, atLeaf d path (fun leaf => OK leaf) = OK (walk d path).
Proof.
  induction path as [| part rest IH]; intros d; simpl; [reflexivity |].
  now rewrite IH.
Qed.





(** ** The loop over the leaves of one file *)

Section Placements.
Variables (strict : bool) (n : nat).
Variable place : DirectoryNode -> Result DirectoryNode.
Hypothesis place_subdirectories :
  forall x y, place x = OK y -> y.(subdirectories) = x.(subdirectories).

(** A placement that fails on a directory whose slot is [taken], and fails
    with a [Conflict] only: the loop fails with one as soon as one of the
    leaves has its slot taken. *)
Section Refused.
Variable taken : DirectoryNode -> Prop.
Variable Conflict : Error -> Prop.
Hypothesis taken_by_slots :
  forall x y, y.(layout) = x.(layout) -> y.(views) = x.(views) -> taken x -> taken y.
Hypothesis place_refuses : forall x, taken x -> exists e, place x = Throw e.
Hypothesis place_safely :
  forall x, wfDirectory strict n x -> safely (wfDirectory strict n) Conflict (place x).


End Refused.

(** A placement that never fails and leaves the directory [slotted]: after
    the loop every leaf is. *)
Section Granted.
Variable slotted : DirectoryNode -> Prop.
Hypothesis slotted_by_slots :
  forall x y, y.(layout) = x.(layout) -> y.(views) = x.(views) -> slotted x -> slotted y.
Hypothesis place_grants : forall x, exists y, place x = OK y /\ slotted y.



End Granted.

End Placements.


(** ** One more file, on the state the earlier files left *)


Section LaterFile.
Context {M : Matchers}.
Variables (env : Env) (options : Options) (fuel : nat).




Variables (filePath : string) (st : DirectoryTree) (meta : FileMeta.t) (keys : list string).
Hypothesis Hscanned : scanned false st.
Hypothesis Hkept : existsb (fun regex => regex filePath) (getIgnoreList options) = false.
Hypothesis Hmeta : getFileMeta env filePath options = OK meta.
Hypothesis Hrank : (0 <= meta.(FileMeta.specificity))%Z.
Hypothesis Hkeys : extrapolateGroups fuel meta.(FileMeta.key) [] = OK keys.

Local Abbreviation h := (st.(heap) ++ [fileNode options filePath meta]).
Local Abbreviation node := (length st.(heap)).
Local Abbreviation leaves := (map (subdirectoryParts meta) keys).
Local Abbreviation directory := (fold_left walk leaves st.(directoryTree)).







Variables (key : string) (leaf : DirectoryNode) (existing : Ref).
Hypothesis Hkey : In key keys.
Hypothesis Hleaf : directoryAt st.(directoryTree) (subdirectoryParts meta key) = Some leaf.








End LaterFile.





(** * The tree, in terms of the scan *)

(** ** Layouts and views do not share objects *)

Lemma sortedRefs_empty (PL PV : Ref -> Prop) : sortedRefs PL PV emptyDirectory.
Proof. constructor; [discriminate | intros ? ? ? [] | intros ? ? []]. Qed.

Lemma sortedRefs_mono (PL PV PL' PV' : Ref -> Prop) (d : DirectoryNode) :
  (forall r, PL r -> PL' r) -> (forall r, PV r -> PV' r) ->
  sortedRefs PL PV d -> sortedRefs PL' PV' d.
Proof.
  intros Hl Hv H. induction H as [l v subs Hl0 Hv0 Hs IH].
  constructor; eauto.
Qed.

Lemma sortedRefs_child (PL PV : Ref -> Prop) (d : DirectoryNode) (part : string) :
  sortedRefs PL PV d ->
  sortedRefs PL PV
    (match JS.mapGet d.(subdirectories) part with
     | Some child => child
     | None => emptyDirectory
     end).
Proof.
  intros H. destruct (JS.mapGet d.(subdirectories) part) as [c |] eqn:E.
  - destruct H as [l v subs _ _ Hs]. eapply Hs. apply mapGet_In. exact E.
  - apply sortedRefs_empty.
Qed.

Lemma sortedRefs_setSubdirectories (PL PV : Ref -> Prop) (d c : DirectoryNode)
    (part : string) :
  sortedRefs PL PV d -> sortedRefs PL PV c ->
  sortedRefs PL PV (setSubdirectories d (JS.mapSet d.(subdirectories) part c)).
Proof.
  intros Hd Hc. destruct Hd as [l v subs Hl Hv Hs]. simpl.
  constructor; [exact Hl | exact Hv |].
  intros k x Hin. apply In_mapSet in Hin. destruct Hin as [[_ ->] | Hin]; eauto.
Qed.

Lemma atLeaf_sortedRefs (PL PV : Ref -> Prop) (f : DirectoryNode -> Result DirectoryNode) :
  (forall leaf leaf', sortedRefs PL PV leaf -> f leaf = OK leaf' -> sortedRefs PL PV leaf') ->
  forall path d d',
    sortedRefs PL PV d -> atLeaf d path f = OK d' -> sortedRefs PL PV d'.
Proof.
  intros Hf. induction path as [| part rest IH]; intros d d' Hd H; simpl in H;
    [eapply Hf; eassumption |].
  unbind H as [c [Hc H]]. inversion H; subst d'.
  apply sortedRefs_setSubdirectories; [exact Hd |].
  eapply IH; [| exact Hc]. now apply sortedRefs_child.
Qed.

Lemma fold_walk_sortedRefs (PL PV : Ref -> Prop) (leaves : list (list string)) :
  forall d, sortedRefs PL PV d -> sortedRefs PL PV (fold_left walk leaves d).
Proof.
  induction leaves as [| p leaves IH]; intros d Hd; simpl; [exact Hd |].
  apply IH.
  eapply (atLeaf_sortedRefs PL PV (fun leaf => OK leaf));
    [| exact Hd | apply atLeaf_walk].
  intros leaf leaf' Hl E. now inversion E; subst.
Qed.

Lemma placeLayout_sortedRefs (PL PV : Ref -> Prop) (h : Heap) (filePath : string)
    (meta : FileMeta.t) (node : Ref) (leaf leaf' : DirectoryNode) :
  PL node -> sortedRefs PL PV leaf ->
  placeLayout h filePath meta node leaf = OK leaf' -> sortedRefs PL PV leaf'.
Proof.
  intros Hnode Hleaf. unfold placeLayout.
  destruct (JS.at_ _ _) as [x |].
  - unfold deref. destruct (nth_error h x); discriminate.
  - intros H. inversion H; subst leaf'. destruct Hleaf as [l v subs Hl Hv Hs]. simpl.
    constructor; [| exact Hv | exact Hs].
    intros arr r Harr Hr. inversion Harr; subst arr.
    apply In_assign in Hr. destruct Hr as [-> | Hr]; [exact Hnode |].
    destruct l as [arr |]; [eapply Hl; [reflexivity | exact Hr] | destruct Hr].
Qed.

Lemma placeView_sortedRefs (PL PV : Ref -> Prop) (env : Env) (options : Options) (h : Heap)
    (filePath : string) (meta : FileMeta.t) (node : Ref) (leaf leaf' : DirectoryNode) :
  PV node -> sortedRefs PL PV leaf ->
  placeView env options h filePath meta node leaf = OK leaf' -> sortedRefs PL PV leaf'.
Proof.
  intros Hnode Hleaf. unfold placeView. cbv zeta.
  assert (Hplaced : forall x,
            x = setViews leaf
                  (JS.mapSet leaf.(views) meta.(FileMeta.name)
                     (JS.assign
                        (match JS.mapGet leaf.(views) meta.(FileMeta.name) with
                         | Some nodes => nodes
                         | None => []
                         end)
                        (Z.to_nat meta.(FileMeta.specificity)) node)) ->
            sortedRefs PL PV x).
  { intros x ->. destruct Hleaf as [l v subs Hl Hv Hs]. simpl.
    constructor; [exact Hl | | exact Hs].
    intros k arr r Hin Hr. apply In_mapSet in Hin.
    destruct Hin as [[_ ->] | Hin]; [| eapply Hv; eassumption].
    apply In_assign in Hr. destruct Hr as [-> | Hr]; [exact Hnode |].
    destruct (JS.mapGet v meta.(FileMeta.name)) as [nodes |] eqn:E; [| destruct Hr].
    eapply Hv; [apply mapGet_In; exact E | exact Hr]. }
  destruct (String.eqb _ "production");
    [intros H; inversion H; now apply Hplaced |].
  destruct (JS.at_ _ _) as [x |]; [| intros H; inversion H; now apply Hplaced].
  destruct options.(unstable_improvedErrorMessages); [| discriminate].
  unfold deref. destruct (nth_error h x); discriminate.
Qed.

Lemma isLayoutObject_alloc (h : Heap) (n : RouteNode) (r : Ref) :
  isLayoutObject h r -> isLayoutObject (h ++ [n]) r.
Proof. intros [x [Hx Hl]]. exists x. split; [now apply nth_error_alloc_old | exact Hl]. Qed.

Lemma isViewObject_alloc (h : Heap) (n : RouteNode) (r : Ref) :
  isViewObject h r -> isViewObject (h ++ [n]) r.
Proof. intros [x [Hx Hl]]. exists x. split; [now apply nth_error_alloc_old | exact Hl]. Qed.

Lemma sortedRefs_alloc (h : Heap) (n : RouteNode) (d : DirectoryNode) :
  sortedRefs (isLayoutObject h) (isViewObject h) d ->
  sortedRefs (isLayoutObject (h ++ [n])) (isViewObject (h ++ [n])) d.
Proof.
  apply sortedRefs_mono; intros r; [apply isLayoutObject_alloc | apply isViewObject_alloc].
Qed.

Lemma In_filterSome {A} (l : list (option A)) (a : A) : In a (filterSome l) <-> In (Some a) l.
Proof.
  induction l as [| [x |] l IH]; simpl; [tauto | |].
  - rewrite IH. split; intros [H | H]; auto; left; congruence.
  - rewrite IH. split; [auto | intros [H | H]; [discriminate | exact H]].
Qed.

Lemma sortedRefs_layoutRefs (PL PV : Ref -> Prop) (d : DirectoryNode) (l : Ref) :
  sortedRefs PL PV d -> In l (layoutRefs d) -> PL l.
Proof.
  intros H. induction H as [layout_ v subs Hl Hv Hs IH]. simpl. intros Hin.
  apply in_app_or in Hin. destruct Hin as [Hin | Hin].
  - apply In_filterSome in Hin. destruct layout_ as [arr |]; [| destruct Hin].
    eapply Hl; [reflexivity | exact Hin].
  - apply in_flat_map in Hin. destruct Hin as [[k c] [Hc Hin]].
    eapply IH; eassumption.
Qed.

Section SortedScan.
Context {M : Matchers}.
Variables (env : Env) (options : Options) (fuel : nat).

Lemma layoutFile_isLayout (filePath : string) (meta : FileMeta.t) :
  getFileMeta env filePath options = OK meta ->
  layoutFile filePath = meta.(FileMeta.isLayout).
Proof.
  intros H.
  destruct (getFileMeta_fields env filePath options meta H)
    as [Hkey [Hparts [_ [Hfile [Hlayout _]]]]].
  unfold layoutFile. now rewrite Hlayout, Hfile, Hparts, Hkey.
Qed.

Lemma processFile_sortedRefs (filePath : string) (st st' : DirectoryTree) :
  sortedRefs (isLayoutObject st.(heap)) (isViewObject st.(heap)) st.(directoryTree) ->
  processFile env options fuel (getIgnoreList options) filePath st = OK st' ->
  sortedRefs (isLayoutObject st'.(heap)) (isViewObject st'.(heap)) st'.(directoryTree).
Proof.
  intros Hst. unfold processFile.
  destruct (existsb _ (getIgnoreList options)); [intros H; now inversion H; subst |].
  intros H. unbind H as [meta [Hmeta H]].
  destruct (meta.(FileMeta.specificity) <? 0)%Z; [now inversion H; subst |].
  unbind H as [keys [_ H]]. unfold alloc in H.
  pose proof (layoutFile_isLayout filePath meta Hmeta) as Hkind.
  set (h := st.(heap) ++ [fileNode options filePath meta]) in *.
  assert (Hwalk : sortedRefs (isLayoutObject h) (isViewObject h)
                    (fold_left walk (map (subdirectoryParts meta) keys) st.(directoryTree))).
  { apply fold_walk_sortedRefs. now apply sortedRefs_alloc. }
  assert (Hnode : nth_error h (length st.(heap)) = Some (fileNode options filePath meta))
    by apply nth_error_alloc_new.
  destruct meta.(FileMeta.isLayout) eqn:El.
  - unbind H as [d [Hd H]]. inversion H; subst st'. simpl.
    refine (forEach_invariant_In (sortedRefs (isLayoutObject h) (isViewObject h))
              _ _ _ d _ Hwalk Hd).
    intros leaf a b _ Ha Hb.
    eapply atLeaf_sortedRefs; [| exact Ha | exact Hb].
    intros x y Hx Hy. eapply placeLayout_sortedRefs; [| exact Hx | exact Hy].
    eexists. split; [exact Hnode | exact Hkind].
  - destruct meta.(FileMeta.isApi); [inversion H; subst st'; exact Hwalk |].
    unbind H as [d [Hd H]]. inversion H; subst st'. simpl.
    refine (forEach_invariant_In (sortedRefs (isLayoutObject h) (isViewObject h))
              _ _ _ d _ Hwalk Hd).
    intros leaf a b _ Ha Hb.
    eapply atLeaf_sortedRefs; [| exact Ha | exact Hb].
    intros x y Hx Hy. eapply placeView_sortedRefs; [| exact Hx | exact Hy].
    eexists. split; [exact Hnode | exact Hkind].
Qed.

Lemma getDirectoryTree_sortedRefs (contextModule : RequireContext) (t : DirectoryTree) :
  getDirectoryTree env fuel contextModule options = OK t ->
  sortedRefs (isLayoutObject t.(heap)) (isViewObject t.(heap)) t.(directoryTree).
Proof.
  unfold getDirectoryTree. cbv zeta. intros H.
  unbind H as [st [Hscan H]].
  assert (Hst : sortedRefs (isLayoutObject st.(heap)) (isViewObject st.(heap))
                  st.(directoryTree)).
  { refine (forEach_invariant_In
              (fun s => sortedRefs (isLayoutObject s.(heap)) (isViewObject s.(heap))
                          s.(directoryTree))
              _ contextModule _ st _ _ Hscan); [| apply sortedRefs_empty].
    intros f a b _ Ha Hb. eapply processFile_sortedRefs; eassumption. }
  destruct st.(directoryTree).(layout) as [arr |] eqn:El;
    [inversion H; subst t; exact Hst |].
  unfold alloc in H. inversion H; subst t. simpl.
  apply (sortedRefs_alloc _ defaultLayout) in Hst.
  destruct Hst as [l v subs Hl Hv Hs]. simpl.
  constructor; [| exact Hv | exact Hs].
  intros arr r Harr Hr. inversion Harr; subst arr.
  destruct Hr as [Hr | []]. inversion Hr; subst r.
  exists defaultLayout. split; [apply nth_error_alloc_new | reflexivity].
Qed.

End SortedScan.

Lemma appendSitemapRoute_sortedRefs (d d' : DirectoryNode) (h h' : Heap) :
  appendSitemapRoute d h = (d', h') ->
  sortedRefs (isLayoutObject h) (isViewObject h) d ->
  sortedRefs (isLayoutObject h') (isViewObject h') d'.
Proof.
  unfold appendSitemapRoute. destruct (JS.mapHas d.(views) "_sitemap").
  - intros H. now inversion H; subst.
  - unfold alloc. intros H Hd. inversion H; subst d' h'.
    apply (sortedRefs_alloc _ sitemapRoute) in Hd.
    destruct Hd as [l v subs Hl Hv Hs]. simpl.
    constructor; [exact Hl | | exact Hs].
    intros k arr r Hin Hr. apply In_mapSet in Hin.
    destruct Hin as [[_ ->] | Hin]; [| eapply Hv; eassumption].
    destruct Hr as [Hr | []]. inversion Hr; subst r.
    exists sitemapRoute. split; [apply nth_error_alloc_new | reflexivity].
Qed.

Lemma appendNotFoundRoute_sortedRefs (d d' : DirectoryNode) (h h' : Heap) :
  appendNotFoundRoute d h = (d', h') ->
  sortedRefs (isLayoutObject h) (isViewObject h) d ->
  sortedRefs (isLayoutObject h') (isViewObject h') d'.
Proof.
  unfold appendNotFoundRoute. destruct (JS.mapHas d.(views) "+not-found").
  - intros H. now inversion H; subst.
  - unfold alloc. intros H Hd. inversion H; subst d' h'.
    apply (sortedRefs_alloc _ notFoundRoute) in Hd.
    destruct Hd as [l v subs Hl Hv Hs]. simpl.
    constructor; [exact Hl | | exact Hs].
    intros k arr r Hin Hr. apply In_mapSet in Hin.
    destruct Hin as [[_ ->] | Hin]; [| eapply Hv; eassumption].
    destruct Hr as [Hr | []]. inversion Hr; subst r.
    exists notFoundRoute. split; [apply nth_error_alloc_new | reflexivity].
Qed.


(** ** Steps of the hoister, in terms of the store it started from *)

Lemma advances_refl (T : Ref -> Prop) (h : Heap) : advances T h h.
Proof. intros r n H. exists n. split; [exact H | auto]. Qed.

Lemma advances_trans (T1 T2 : Ref -> Prop) (a b c : Heap) :
  advances T1 a b -> advances T2 b c -> advances (fun r => T1 r \/ T2 r) a c.
Proof.
  intros Hab Hbc r n H. destruct (Hab r n H) as [n1 [H1 [Hc1 Hk1]]].
  destruct (Hbc r n1 H1) as [n2 [H2 [Hc2 Hk2]]].
  exists n2. split; [exact H2 |]. split; [auto |].
  intros Hnot.
  destruct Hk1 as [Hr1 Hx1]; [tauto |]. destruct Hk2 as [Hr2 Hx2]; [tauto |].
  split; congruence.
Qed.

Lemma advances_weaken (T T' : Ref -> Prop) (h h' : Heap) :
  (forall r, T r -> T' r) -> advances T h h' -> advances T' h h'.
Proof.
  intros HT H r n Hn. destruct (H r n Hn) as [n' [Hn' [Hc Hk]]].
  exists n'. split; [exact Hn' |]. split; [exact Hc | auto].
Qed.

Lemma advances_push (h : Heap) (p : Ref) (P : RouteNode) (c : Child) :
  nth_error h p = Some P ->
  advances (fun _ => False) h (store h p (pushChild P c)).
Proof.
  intros Hp r n Hn. destruct (Nat.eq_dec p r) as [<- | Hne].
  - rewrite Hp in Hn. inversion Hn; subst n.
    exists (pushChild P c). split; [eapply nth_error_store_same; exact Hp |].
    split; [| now split].
    intros x Hx. simpl. apply in_or_app. now left.
  - exists n. split; [now rewrite nth_error_store_other | auto].
Qed.

Lemma advances_restyle (h : Heap) (l : Ref) (L L' : RouteNode) :
  nth_error h l = Some L ->
  L'.(children) = L.(children) ->
  advances (fun r => r = l) h (store h l L').
Proof.
  intros Hl Hc r n Hn. destruct (Nat.eq_dec l r) as [<- | Hne].
  - rewrite Hl in Hn. inversion Hn; subst n.
    exists L'. split; [eapply nth_error_store_same; exact Hl |].
    split; [now rewrite Hc | intros Hnot; now contradiction Hnot].
  - exists n. split; [now rewrite nth_error_store_other | auto].
Qed.

Lemma grows_advances (h h' : Heap) : grows h h' -> advances (fun _ => True) h h'.
Proof.
  intros G r n Hn. destruct (G r n Hn) as [n' [Hn' [_ [_ [_ [more Hmore]]]]]].
  exists n'. split; [exact Hn' |]. split; [| tauto].
  intros c Hc. rewrite Hmore. apply in_or_app. now left.
Qed.

Section Described.
Context {M : Matchers}.
Variables (options : Options) (h0 : Heap) (root : Ref).

Lemma handed_advances (T : Ref -> Prop) (h h' : Heap) (p : Ref) (e : list string) :
  advances T h h' -> handed h0 h root p e -> handed h0 h' root p e.
Proof.
  intros Ha H. induction H as [r0 Hr0 | p e P l l0 Hp IH HP Hl Hl0].
  - now constructor.
  - destruct (Ha p P HP) as [P' [HP' [Hc _]]].
    eapply handed_child; [exact IH | exact HP' | now apply Hc | exact Hl0].
Qed.

Lemma describedChild_advances (T : Ref -> Prop) (h h' : Heap) (p : Ref) (c : Child) :
  advances T h h' ->
  (forall l, c = inl l -> ~ T l) ->
  describedChild options h0 h root p c -> describedChild options h0 h' root p c.
Proof.
  intros Ha Hc [p0 [e [Hp0 [He Hd]]]].
  exists p0, e. split; [exact Hp0 |]. split; [eapply handed_advances; eassumption |].
  destruct c as [l | v]; [| exact Hd].
  destruct Hd as [l0 [m [Hl0 [Hm [Hr Hk]]]]].
  destruct (Ha l m Hm) as [m' [Hm' [_ Hkeep]]].
  destruct Hkeep as [Hr' Hk']; [now apply Hc |].
  exists l0, m'. repeat split; congruence.
Qed.

(** A step that adds described children and changes the route of no
    object that is a layout child yet keeps the store described. *)
Lemma described_step (T : Ref -> Prop) (h h' : Heap) :
  described options h0 h root ->
  advances T h h' ->
  (forall r Q l, nth_error h r = Some Q -> In (Layout l) Q.(children) -> ~ T l) ->
  (forall r Q c, nth_error h' r = Some Q -> In c Q.(children) ->
     (exists Q0, nth_error h r = Some Q0 /\ In c Q0.(children))
     \/ describedChild options h0 h' root r c) ->
  described options h0 h' root.
Proof.
  intros Hd Ha Hfresh Hnew r Q c Hr Hc.
  destruct (Hnew r Q c Hr Hc) as [[Q0 [HQ0 Hc0]] | Hdesc]; [| exact Hdesc].
  eapply describedChild_advances; [exact Ha | | eapply Hd; eassumption].
  intros l ->. eapply Hfresh; eassumption.
Qed.

Lemma hoistView_from (eps : list string) (pathToRemove : string) (n0 : RouteNode) :
  (hoistView options eps pathToRemove n0).(route) = JS.replace n0.(route) pathToRemove ""
  /\ (hoistView options eps pathToRemove n0).(contextKey) = n0.(contextKey).
Proof.
  unfold hoistView.
  destruct options.(ignoreEntryPoints), options.(unstable_stripLoadRoute); split; reflexivity.
Qed.

(** One turn of the loop over the views. *)
Lemma hoistViews_described (p : Ref) (p0 : RouteNode) (eps : list string)
    (routes : list (option Ref)) (h h' : Heap) :
  nth_error h0 p = Some p0 ->
  handed h0 h root p eps ->
  (forall v, In (Some v) routes ->
     exists n0, nth_error h0 v = Some n0 /\ layoutFile n0.(contextKey) = false
                /\ nth_error h v = Some n0) ->
  described options h0 h root ->
  hoistViews options p eps (prefixOf p0.(route)) routes h = OK h' ->
  described options h0 h' root
  /\ advances (fun _ => False) h h'
  /\ (forall r, r <> p -> nth_error h' r = nth_error h r)
  /\ (forall r Q l, nth_error h' r = Some Q -> In (Layout l) Q.(children) ->
        exists Q0, nth_error h r = Some Q0 /\ In (Layout l) Q0.(children)).
Proof.
  intros Hp0 Hhand Hviews Hd H. unfold hoistViews in H.
  unbind H as [[v |] [Hsel H]]; [| discriminate].
  unbind H as [n [Hn H]]. apply deref_OK in Hn.
  unbind H as [P [HP H]]. apply deref_OK in HP. inversion H; subst h'. clear H.
  destruct (Hviews v (getMostSpecific_In _ _ _ Hsel)) as [n0 [Hn0 [Hkind Hsame]]].
  rewrite Hsame in Hn. inversion Hn; subst n.
  pose proof (advances_push h p P (View (hoistView options eps (prefixOf p0.(route)) n0)) HP)
    as Ha.
  assert (Hold : forall r Q c,
            nth_error (store h p (pushChild P
                         (View (hoistView options eps (prefixOf p0.(route)) n0)))) r
            = Some Q ->
            In c Q.(children) ->
            (exists Q0, nth_error h r = Some Q0 /\ In c Q0.(children))
            \/ (r = p /\ c = View (hoistView options eps (prefixOf p0.(route)) n0))).
  { intros r Q c Hr Hc. destruct (Nat.eq_dec p r) as [<- | Hne].
    - rewrite (nth_error_store_same _ _ _ _ HP) in Hr. inversion Hr; subst Q.
      simpl in Hc. apply in_app_or in Hc.
      destruct Hc as [Hc | [<- | []]]; [left; now exists P | right; now split].
    - rewrite nth_error_store_other in Hr by exact Hne. left. now exists Q. }
  split; [| split; [exact Ha | split]].
  - eapply described_step; [exact Hd | exact Ha | auto |].
    intros r Q c Hr Hc. destruct (Hold r Q c Hr Hc) as [Ho | [-> ->]]; [now left | right].
    exists p0, eps. split; [exact Hp0 |].
    split; [eapply handed_advances; eassumption |].
    exists n0. split; [eapply nth_error_In; exact Hn0 | now split].
  - intros r Hne. now rewrite nth_error_store_other by congruence.
  - intros r Q l Hr Hl. destruct (Hold r Q (Layout l) Hr Hl) as [Ho | [_ Hc]];
      [exact Ho | discriminate].
Qed.

(** The loop over the views of a directory. *)
Lemma views_described (p : Ref) (p0 : RouteNode) (eps : list string)
    (views_ : list (list (option Ref))) :
  nth_error h0 p = Some p0 ->
  layoutFile p0.(contextKey) = true ->
  forall h h',
    handed h0 h root p eps ->
    (forall routes v, In routes views_ -> In (Some v) routes ->
       exists n0, nth_error h0 v = Some n0 /\ layoutFile n0.(contextKey) = false
                  /\ nth_error h v = Some n0) ->
    described options h0 h root ->
    forEach (hoistViews options p eps (prefixOf p0.(route))) views_ h = OK h' ->
    described options h0 h' root
    /\ advances (fun _ => False) h h'
    /\ (forall r, r <> p -> nth_error h' r = nth_error h r)
    /\ (forall r Q l, nth_error h' r = Some Q -> In (Layout l) Q.(children) ->
          exists Q0, nth_error h r = Some Q0 /\ In (Layout l) Q0.(children)).
Proof.
  intros Hp0 Hkind.
  induction views_ as [| routes views_ IH]; intros h h' Hhand Hviews Hd H; simpl in H.
  - inversion H; subst h'. split; [exact Hd |]. split; [apply advances_refl |].
    split; [reflexivity |]. intros r Q l Hr Hl. now exists Q.
  - unbind H as [h1 [H1 H]].
    destruct (hoistViews_described p p0 eps routes h h1 Hp0 Hhand
                (fun v Hv => Hviews routes v (or_introl eq_refl) Hv) Hd H1)
      as [Hd1 [Ha1 [Hf1 Hn1]]].
    destruct (IH h1 h') as [Hd2 [Ha2 [Hf2 Hn2]]]; try assumption.
    + eapply handed_advances; eassumption.
    + intros rs v Hrs Hv.
      destruct (Hviews rs v (or_intror Hrs) Hv) as [n0 [Hn0 [Hk Hsame]]].
      exists n0. split; [exact Hn0 |]. split; [exact Hk |].
      rewrite Hf1; [exact Hsame |].
      intros ->. rewrite Hp0 in Hn0. inversion Hn0; subst n0. congruence.
    + split; [exact Hd2 |].
      split; [apply (advances_weaken (fun _ => False \/ False));
              [tauto | eapply advances_trans; eassumption] |].
      split.
      * intros r Hr. rewrite Hf2, Hf1 by exact Hr. reflexivity.
      * intros r Q l Hr Hl. destruct (Hn2 r Q l Hr Hl) as [Q1 [HQ1 Hl1]].
        eapply Hn1; eassumption.
Qed.

End Described.


Lemma NoDup_app_inv {A} (l l' : list A) :
  NoDup (l ++ l') -> NoDup l /\ NoDup l' /\ forall a, In a l -> ~ In a l'.
Proof.
  induction l as [| x l IH]; simpl; intros H.
  - split; [constructor | split; [exact H | intros a []]].
  - inversion H as [| y ys Hx Hnd]; subst.
    destruct (IH Hnd) as [Hl [Hl' Hdis]].
    split; [constructor; [| exact Hl]; intros Hin; apply Hx, in_or_app; now left |].
    split; [exact Hl' |].
    intros a [<- | Ha]; [intros Hin; apply Hx, in_or_app; now right | now apply Hdis].
Qed.

Section Hoisted.
Context {M : Matchers}.
Variables (options : Options) (h0 : Heap) (root : Ref).

(** The two writes of the layout block: the layout becomes a child of its
    parent, and gets its route. *)
Lemma layout_step_described (p l : Ref) (p0 P l0 m : RouteNode) (eps : list string)
    (h : Heap) :
  nth_error h0 p = Some p0 ->
  nth_error h0 l = Some l0 ->
  nth_error h p = Some P ->
  nth_error h l = Some l0 ->
  l <> p ->
  m.(route) = JS.replace l0.(route) (prefixOf p0.(route)) "" ->
  m.(contextKey) = l0.(contextKey) ->
  m.(children) = l0.(children) ->
  handed h0 h root p eps ->
  (forall r Q, nth_error h r = Some Q -> ~ In (Layout l) Q.(children)) ->
  described options h0 h root ->
  described options h0 (store (store h p (pushChild P (Layout l))) l m) root
  /\ handed h0 (store (store h p (pushChild P (Layout l))) l m) root l
       (eps ++ ownEntryPoints l0)
  /\ advances (fun r => r = l) h (store (store h p (pushChild P (Layout l))) l m)
  /\ (forall r, r <> p -> r <> l ->
        nth_error (store (store h p (pushChild P (Layout l))) l m) r = nth_error h r)
  /\ (forall r Q x,
        nth_error (store (store h p (pushChild P (Layout l))) l m) r = Some Q ->
        In (Layout x) Q.(children) ->
        (exists Q0, nth_error h r = Some Q0 /\ In (Layout x) Q0.(children)) \/ x = l).
Proof.
  intros Hp0 Hl0 HP HL Hne Hroute Hkey Hchildren Hhand Hfresh Hd.
  set (ha := store h p (pushChild P (Layout l))).
  set (h1 := store ha l m).
  assert (HaL : nth_error ha l = Some l0).
  { unfold ha. rewrite nth_error_store_other by congruence. exact HL. }
  assert (HaP : nth_error ha p = Some (pushChild P (Layout l))).
  { unfold ha. eapply nth_error_store_same. exact HP. }
  assert (H1L : nth_error h1 l = Some m).
  { unfold h1. eapply nth_error_store_same. exact HaL. }
  assert (H1P : nth_error h1 p = Some (pushChild P (Layout l))).
  { unfold h1. rewrite nth_error_store_other by exact Hne. exact HaP. }
  assert (Ha : advances (fun r => r = l) h h1).
  { apply (advances_weaken (fun r => False \/ r = l)); [tauto |].
    eapply advances_trans; [apply advances_push; exact HP |].
    eapply advances_restyle; [exact HaL | exact Hchildren]. }
  assert (Hhand1 : handed h0 h1 root p eps) by (eapply handed_advances; eassumption).
  assert (Hold : forall r Q c, nth_error h1 r = Some Q -> In c Q.(children) ->
            (exists Q0, nth_error h r = Some Q0 /\ In c Q0.(children))
            \/ (r = p /\ c = Layout l)).
  { intros r Q c Hr Hc. destruct (Nat.eq_dec r l) as [-> | Hrl].
    - rewrite H1L in Hr. inversion Hr; subst Q. rewrite Hchildren in Hc.
      left. now exists l0.
    - unfold h1 in Hr. rewrite nth_error_store_other in Hr by congruence.
      destruct (Nat.eq_dec r p) as [-> | Hrp].
      + rewrite HaP in Hr. inversion Hr; subst Q. simpl in Hc.
        apply in_app_or in Hc.
        destruct Hc as [Hc | [<- | []]]; [left; now exists P | right; now split].
      + unfold ha in Hr. rewrite nth_error_store_other in Hr by congruence.
        left. now exists Q. }
  split; [| split; [| split; [exact Ha | split]]].
  - eapply described_step; [exact Hd | exact Ha | |].
    + intros r Q x Hr Hx ->. eapply Hfresh; eassumption.
    + intros r Q c Hr Hc. destruct (Hold r Q c Hr Hc) as [Ho | [-> ->]]; [now left | right].
      exists p0, eps. split; [exact Hp0 |]. split; [exact Hhand1 |].
      exists l0, m. repeat split; assumption.
  - eapply handed_child; [exact Hhand1 | exact H1P | | exact Hl0].
    simpl. apply in_or_app. right. now left.
  - intros r Hrp Hrl. unfold h1, ha. now rewrite !nth_error_store_other by congruence.
  - intros r Q x Hr Hx. destruct (Hold r Q (Layout x) Hr Hx) as [Ho | [_ E]];
      [now left | right; now inversion E].
Qed.

(** The layout block of a directory below a layout. *)
Lemma hoistLayout_described (arr : list (option Ref)) (p : Ref) (p0 : RouteNode)
    (eps : list string) (h : Heap) (l : Ref) (eps1 : list string) (ptr1 : string)
    (h1 : Heap) :
  nth_error h0 p = Some p0 ->
  handed h0 h root p eps ->
  (forall x, In (Some x) arr ->
     x <> p /\ nth_error h x = nth_error h0 x /\ exists n, nth_error h0 x = Some n) ->
  (forall r Q x, nth_error h r = Some Q -> In (Layout x) Q.(children) ->
     ~ In (Some x) arr) ->
  described options h0 h root ->
  hoistLayout options arr (Some p) eps (prefixOf p0.(route)) h = OK (l, eps1, ptr1, h1) ->
  exists l0,
    In (Some l) arr
    /\ nth_error h0 l = Some l0
    /\ eps1 = eps ++ ownEntryPoints l0
    /\ ptr1 = prefixOf l0.(route)
    /\ described options h0 h1 root
    /\ handed h0 h1 root l eps1
    /\ advances (fun r => r = l) h h1
    /\ (forall r, r <> p -> r <> l -> nth_error h1 r = nth_error h r)
    /\ (forall r Q x, nth_error h1 r = Some Q -> In (Layout x) Q.(children) ->
          (exists Q0, nth_error h r = Some Q0 /\ In (Layout x) Q0.(children)) \/ x = l).
Proof.
  intros Hp0 Hhand Harr Hfresh Hd H. unfold hoistLayout in H.
  unbind H as [[layout |] [Hsel H]]; [| discriminate].
  pose proof (getMostSpecific_In _ _ _ Hsel) as Hin.
  destruct (Harr layout Hin) as [Hne [Hsame [l0 Hl0]]].
  unbind H as [ha [Ha H]]. unbind Ha as [P [HP Ha]]. apply deref_OK in HP.
  inversion Ha; subst ha. clear Ha.
  unbind H as [p1 [Hp1 H]]. apply deref_OK in Hp1.
  rewrite nth_error_store_other in Hp1 by congruence.
  rewrite Hsame, Hl0 in Hp1. inversion Hp1; subst p1. clear Hp1.
  rewrite <- Hsame in Hl0.
  assert (Hl0' : nth_error h0 layout = Some l0) by (rewrite <- Hsame; exact Hl0).
  assert (Hstep : forall m,
            m.(route) = JS.replace l0.(route) (prefixOf p0.(route)) "" ->
            m.(contextKey) = l0.(contextKey) ->
            m.(children) = l0.(children) ->
            (l, eps1, ptr1, h1)
            = (layout, eps ++ ownEntryPoints l0, prefixOf l0.(route),
               store (store h p (pushChild P (Layout layout))) layout m) ->
            exists l0,
              In (Some l) arr
              /\ nth_error h0 l = Some l0
              /\ eps1 = eps ++ ownEntryPoints l0
              /\ ptr1 = prefixOf l0.(route)
              /\ described options h0 h1 root
              /\ handed h0 h1 root l eps1
              /\ advances (fun r => r = l) h h1
              /\ (forall r, r <> p -> r <> l -> nth_error h1 r = nth_error h r)
              /\ (forall r Q x, nth_error h1 r = Some Q -> In (Layout x) Q.(children) ->
                    (exists Q0, nth_error h r = Some Q0 /\ In (Layout x) Q0.(children))
                    \/ x = l)).
  { intros m Hr Hk Hc E. inversion E; subst l eps1 ptr1 h1.
    destruct (layout_step_described p layout p0 P l0 m eps h Hp0 Hl0' HP Hl0 Hne Hr Hk Hc
                Hhand (fun r Q Hq Hx => Hfresh r Q layout Hq Hx Hin) Hd)
      as [S1 [S2 [S3 [S4 S5]]]].
    exists l0. repeat split; assumption. }
  simpl in H. unfold ownEntryPoints in Hstep. unfold prefixOf in Hstep at 3.
  destruct (entryPoints l0) as [own |];
    destruct options.(ignoreEntryPoints), options.(unstable_stripLoadRoute);
    simpl in H; inversion H; subst;
    (eapply Hstep; [| | | try rewrite app_nil_r; reflexivity]; reflexivity).
Qed.

(** The loop over the directories below a layout. *)
Lemma subdirs_described (subs : list (string * DirectoryNode)) :
  Forall (fun entry => hoistedWell options h0 root (snd entry)) subs ->
  (forall l, In l (flat_map (fun entry => layoutRefs (snd entry)) subs) ->
     isLayoutObject h0 l) ->
  NoDup (flat_map (fun entry => layoutRefs (snd entry)) subs) ->
  forall p p0 eps h h',
    nth_error h0 p = Some p0 ->
    layoutFile p0.(contextKey) = true ->
    ~ In p (flat_map (fun entry => layoutRefs (snd entry)) subs) ->
    handed h0 h root p eps ->
    (forall l, In l (flat_map (fun entry => layoutRefs (snd entry)) subs) ->
       nth_error h l = nth_error h0 l) ->
    (forall r n0, nth_error h0 r = Some n0 -> layoutFile n0.(contextKey) = false ->
       nth_error h r = Some n0) ->
    (forall r Q l, nth_error h r = Some Q -> In (Layout l) Q.(children) ->
       ~ In l (flat_map (fun entry => layoutRefs (snd entry)) subs)) ->
    described options h0 h root ->
    forEach
      (fun child h =>
         let* (_, h) :=
           hoistRoutesToNearestLayout (snd child) options (Some p) eps
             (prefixOf p0.(route)) h in
         OK h)
      subs h = OK h' ->
    described options h0 h' root
    /\ advances (fun r => In r (flat_map (fun entry => layoutRefs (snd entry)) subs)) h h'
    /\ (forall r, r <> p ->
          ~ In r (flat_map (fun entry => layoutRefs (snd entry)) subs) ->
          nth_error h' r = nth_error h r)
    /\ (forall r Q l, nth_error h' r = Some Q -> In (Layout l) Q.(children) ->
          (exists Q0, nth_error h r = Some Q0 /\ In (Layout l) Q0.(children))
          \/ In l (flat_map (fun entry => layoutRefs (snd entry)) subs)).
Proof.
  induction subs as [| [k c] subs IH]; intros Hwell Hkinds Hnd p p0 eps h h' Hp0 Hpk Hp
    Hhand Hun Hviews Hfresh Hd H; simpl in H.
  - inversion H; subst h'. split; [exact Hd |]. split; [apply advances_refl |].
    split; [reflexivity |]. intros r Q l Hr Hl. left. now exists Q.
  - simpl in *. inversion Hwell as [| x xs Hc Hrest]; subst.
    destruct (NoDup_app_inv _ _ Hnd) as [Hndc [Hndr Hdis]].
    unbind H as [h1 [H1 H]]. unbind H1 as [[rt hx] [Hcall H1]]. inversion H1; subst hx.
    simpl in Hc.
    destruct (Hc p p0 eps h rt h1 Hp0 Hpk) as [Hd1 [Ha1 [Hf1 Hn1]]]; try assumption.
    { intros Hin. apply Hp, in_or_app. now left. }
    { intros l Hl. apply Hun, in_or_app. now left. }
    { intros r Q l Hr Hl Hin. eapply Hfresh; [exact Hr | exact Hl |].
      apply in_or_app. now left. }
    destruct (IH Hrest) with (p := p) (p0 := p0) (eps := eps) (h := h1) (h' := h')
      as [Hd2 [Ha2 [Hf2 Hn2]]]; try assumption.
    { intros l Hl. apply Hkinds, in_or_app. now right. }
    { intros Hin. apply Hp, in_or_app. now right. }
    { eapply handed_advances; eassumption. }
    { intros l Hl. rewrite Hf1.
      - apply Hun, in_or_app. now right.
      - intros ->. apply Hp, in_or_app. now right.
      - intros Hin. exact (Hdis l Hin Hl). }
    { intros r n0 Hr Hk0. rewrite Hf1; [now apply Hviews | |].
      - intros ->. rewrite Hp0 in Hr. inversion Hr; subst n0. congruence.
      - intros Hin. destruct (Hkinds r (in_or_app _ _ _ (or_introl Hin))) as [n [Hn Hkn]].
        rewrite Hr in Hn. inversion Hn; subst n. congruence. }
    { intros r Q l Hr Hl Hin. destruct (Hn1 r Q l Hr Hl) as [[Q0 [HQ0 Hl0]] | Hlc].
      - eapply Hfresh; [exact HQ0 | exact Hl0 |]. apply in_or_app. now right.
      - exact (Hdis l Hlc Hin). }
    split; [exact Hd2 |]. split; [| split].
    + eapply advances_weaken; [| eapply advances_trans; [exact Ha1 | exact Ha2]].
      intros r [Hr | Hr]; apply in_or_app; tauto.
    + intros r Hrp Hr. rewrite Hf2, Hf1; try assumption.
      * reflexivity.
      * intros Hin. apply Hr, in_or_app. now left.
      * intros Hin. apply Hr, in_or_app. now right.
    + intros r Q l Hr Hl. destruct (Hn2 r Q l Hr Hl) as [[Q1 [HQ1 Hl1]] | Hin].
      * destruct (Hn1 r Q1 l HQ1 Hl1) as [Ho | Hin]; [now left |].
        right. apply in_or_app. now left.
      * right. apply in_or_app. now right.
Qed.

End Hoisted.


Lemma NoDup_flat_map {A B} (f : A -> list B) (l : list A) :
  NoDup (flat_map f l) -> forall a, In a l -> NoDup (f a).
Proof.
  induction l as [| x l IH]; simpl; intros H a Ha; [destruct Ha |].
  destruct (NoDup_app_inv _ _ H) as [Hx [Hl _]].
  destruct Ha as [<- | Ha]; [exact Hx | now apply IH].
Qed.

Section HoistedTree.
Context {M : Matchers}.
Variables (options : Options) (h0 : Heap) (root : Ref).

(** A directory below a layout: every child the hoister adds is described
    in terms of the store it started from. *)
Lemma hoist_described (directory : DirectoryNode) :
  sortedRefs (isLayoutObject h0) (isViewObject h0) directory ->
  NoDup (layoutRefs directory) ->
  hoistedWell options h0 root directory.
Proof.
  induction directory as [layout_ views_ subs IH] using DirectoryNode_nested_ind.
  intros Hsorted Hnd p p0 eps h rootOut h' Hp0 Hpk Hp Hhand Hun Hviews Hfresh Hd H.
  pose proof (fun l => sortedRefs_layoutRefs _ _ _ l Hsorted) as Hkinds.
  inversion Hsorted as [l_ v_ s_ Hsl Hsv Hss]; subst l_ v_ s_.
  cbn [layoutRefs] in Hnd, Hp, Hun, Hfresh, Hkinds |- *.
  set (here := filterSome (match layout_ with Some arr => arr | None => [] end)) in *.
  set (below := flat_map (fun entry => layoutRefs (snd entry)) subs) in *.
  destruct (NoDup_app_inv _ _ Hnd) as [_ [Hndb Hdis]].
  assert (Hnotlayout : forall r n0, nth_error h0 r = Some n0 ->
            layoutFile n0.(contextKey) = false -> r <> p /\ ~ In r (here ++ below)).
  { intros r n0 Hr Hk. split.
    - intros ->. rewrite Hp0 in Hr. inversion Hr; subst n0. congruence.
    - intros Hin. destruct (Hkinds r Hin) as [n [Hn Hkn]].
      rewrite Hr in Hn. inversion Hn; subst n. congruence. }
  simpl in H.
  unbind H as [[[[parent1 eps1] ptr1] h1] [H1 H]].
  assert (S1 : exists q q0,
            parent1 = Some q
            /\ nth_error h0 q = Some q0
            /\ layoutFile q0.(contextKey) = true
            /\ ptr1 = prefixOf q0.(route)
            /\ ~ In q below
            /\ (q = p \/ In q here)
            /\ described options h0 h1 root
            /\ handed h0 h1 root q eps1
            /\ advances (fun r => In r here) h h1
            /\ (forall r, r <> p -> ~ In r here -> nth_error h1 r = nth_error h r)
            /\ (forall r Q x, nth_error h1 r = Some Q -> In (Layout x) Q.(children) ->
                  (exists Q0, nth_error h r = Some Q0 /\ In (Layout x) Q0.(children))
                  \/ In x here)).
  { destruct layout_ as [arr |].
    - unbind H1 as [[[[l e] q] hh] [Hl H1]]. inversion H1; subst parent1 eps1 ptr1 h1.
      assert (Hhere : forall x, In (Some x) arr -> In x here).
      { intros x Hx. unfold here. now apply In_filterSome. }
      destruct (hoistLayout_described options h0 root arr p p0 eps h l e q hh Hp0 Hhand)
        as [l0 [Hin [Hl0 [He [Hq [Hd1 [Hh1 [Ha1 [Hf1 Hn1]]]]]]]]]; try assumption.
      { intros x Hx. pose proof (Hhere x Hx) as Hxh. split; [| split].
        - intros ->. apply Hp, in_or_app. now left.
        - apply Hun, in_or_app. now left.
        - destruct (Hkinds x (in_or_app _ _ _ (or_introl Hxh))) as [n [Hn _]].
          now exists n. }
      { intros r Q x Hr Hx Hxa. eapply Hfresh; [exact Hr | exact Hx |].
        apply in_or_app. left. now apply Hhere. }
      exists l, l0. split; [reflexivity |]. split; [exact Hl0 |].
      split.
      { destruct (Hkinds l (in_or_app _ _ _ (or_introl (Hhere l Hin)))) as [n [Hn Hk]].
        rewrite Hl0 in Hn. inversion Hn; subst n. exact Hk. }
      split; [exact Hq |].
      split; [apply Hdis; now apply Hhere |].
      split; [right; now apply Hhere |].
      split; [exact Hd1 |]. split; [exact Hh1 |].
      split; [eapply advances_weaken; [| exact Ha1]; intros r ->; now apply Hhere |].
      split.
      + intros r Hrp Hr. apply Hf1; [exact Hrp |]. intros ->. apply Hr. now apply Hhere.
      + intros r Q x Hr Hx. destruct (Hn1 r Q x Hr Hx) as [Ho | ->]; [now left |].
        right. now apply Hhere.
    - inversion H1; subst parent1 eps1 ptr1 h1.
      exists p, p0. split; [reflexivity |]. split; [exact Hp0 |]. split; [exact Hpk |].
      split; [reflexivity |].
      split; [intros Hin; apply Hp, in_or_app; now right |].
      split; [now left |].
      split; [exact Hd |]. split; [exact Hhand |].
      split; [apply advances_refl |].
      split; [reflexivity |]. intros r Q x Hr Hx. left. now exists Q. }
  destruct S1 as [q [q0 [-> [Hq0 [Hqk [-> [Hqb [Hqw [Hd1 [Hh1 [Ha1 [Hf1 Hn1]]]]]]]]]]]].
  unbind H as [h2 [H2 H]].
  unbind H as [h3 [H3 H]]. inversion H; subst rootOut h3. clear H.
  assert (Hqne : forall r n0, nth_error h0 r = Some n0 ->
            layoutFile n0.(contextKey) = false -> r <> q).
  { intros r n0 Hr Hk ->. rewrite Hq0 in Hr. inversion Hr; subst n0. congruence. }
  destruct (views_described options h0 root q q0 eps1 (JS.mapValues views_) Hq0 Hqk h1 h2 Hh1)
    as [Hd2 [Ha2 [Hf2 Hn2]]]; try assumption.
  { intros routes v Hroutes Hv. unfold JS.mapValues in Hroutes.
    apply in_map_iff in Hroutes. destruct Hroutes as [[k arr] [E Hin]]. simpl in E. subst arr.
    destruct (Hsv k routes v Hin Hv) as [n0 [Hn0 Hk0]].
    exists n0. split; [exact Hn0 |]. split; [exact Hk0 |].
    destruct (Hnotlayout v n0 Hn0 Hk0) as [Hvp Hvl].
    rewrite Hf1; [now apply (Hviews v n0) | exact Hvp |].
    intros Hin'. apply Hvl, in_or_app. now left. }
  assert (Hwell : Forall (fun entry => hoistedWell options h0 root (snd entry)) subs).
  { rewrite Forall_forall in IH |- *. intros [k c] Hin. simpl.
    apply (IH (k, c) Hin); [now apply (Hss k c) |].
    apply (NoDup_flat_map (fun entry => layoutRefs (snd entry)) subs Hndb (k, c) Hin). }
  destruct (subdirs_described options h0 root subs Hwell) with
      (p := q) (p0 := q0) (eps := eps1) (h := h2) (h' := h')
    as [Hd3 [Ha3 [Hf3 Hn3]]]; try assumption.
  { intros l Hl. apply Hkinds, in_or_app. now right. }
  { eapply handed_advances; eassumption. }
  { intros l Hl. rewrite Hf2, Hf1.
    - apply Hun, in_or_app. now right.
    - intros ->. apply Hp, in_or_app. now right.
    - intros Hin. exact (Hdis l Hin Hl).
    - intros ->. contradiction. }
  { intros r n0 Hr Hk. destruct (Hnotlayout r n0 Hr Hk) as [Hrp Hrl].
    rewrite Hf2, Hf1; [now apply (Hviews r n0) | exact Hrp | |].
    - intros Hin. apply Hrl, in_or_app. now left.
    - eapply Hqne; eassumption. }
  { intros r Q l Hr Hl Hin. destruct (Hn2 r Q l Hr Hl) as [Q1 [HQ1 Hl1]].
    destruct (Hn1 r Q1 l HQ1 Hl1) as [[Q0 [HQ0 Hl0]] | Hhere].
    - eapply Hfresh; [exact HQ0 | exact Hl0 |]. apply in_or_app. now right.
    - exact (Hdis l Hhere Hin). }
  split; [exact Hd3 |]. split; [| split].
  - apply (advances_weaken (fun r => (In r here \/ False) \/ In r below)).
    + intros r [[Hr | []] | Hr]; apply in_or_app; tauto.
    + eapply advances_trans; [eapply advances_trans; [exact Ha1 | exact Ha2] | exact Ha3].
  - intros r Hrp Hr.
    assert (Hrq : r <> q).
    { destruct Hqw as [-> | Hqh]; [exact Hrp |].
      intros ->. apply Hr, in_or_app. now left. }
    rewrite Hf3, Hf2, Hf1; try assumption.
    + reflexivity.
    + intros Hin. apply Hr, in_or_app. now left.
    + intros Hin. apply Hr, in_or_app. now right.
  - intros r Q l Hr Hl. destruct (Hn3 r Q l Hr Hl) as [[Q2 [HQ2 Hl2]] | Hin].
    + destruct (Hn2 r Q2 l HQ2 Hl2) as [Q1 [HQ1 Hl1]].
      destruct (Hn1 r Q1 l HQ1 Hl1) as [Ho | Hin]; [now left |].
      right. apply in_or_app. now left.
    + right. apply in_or_app. now right.
Qed.

End HoistedTree.


(** ** The whole tree *)

Lemma layoutRefs_setViews (d : DirectoryNode) (v : list (string * list (option Ref))) :
  layoutRefs (setViews d v) = layoutRefs d.
Proof. destruct d; reflexivity. Qed.

Lemma layoutRefs_appendSitemapRoute (d d' : DirectoryNode) (h h' : Heap) :
  appendSitemapRoute d h = (d', h') -> layoutRefs d' = layoutRefs d.
Proof.
  unfold appendSitemapRoute. destruct (JS.mapHas _ _); unfold alloc; intros H;
    inversion H; subst; [reflexivity | apply layoutRefs_setViews].
Qed.

Lemma layoutRefs_appendNotFoundRoute (d d' : DirectoryNode) (h h' : Heap) :
  appendNotFoundRoute d h = (d', h') -> layoutRefs d' = layoutRefs d.
Proof.
  unfold appendNotFoundRoute. destruct (JS.mapHas _ _); unfold alloc; intros H;
    inversion H; subst; [reflexivity | apply layoutRefs_setViews].
Qed.

Section WholeTree.
Context {M : Matchers}.
Variable options : Options.

(** The layout block of the root directory. *)
Lemma hoistLayout_root_described (h0 : Heap) (arr : list (option Ref)) (l : Ref)
    (eps1 : list string) (ptr1 : string) (h1 : Heap) :
  childless h0 ->
  hoistLayout options arr None [] "" h0 = OK (l, eps1, ptr1, h1) ->
  exists r0,
    In (Some l) arr
    /\ nth_error h0 l = Some r0
    /\ eps1 = ownEntryPoints r0
    /\ ptr1 = prefixOf r0.(route)
    /\ described options h0 h1 l
    /\ handed h0 h1 l l eps1
    /\ (forall r, r <> l -> nth_error h1 r = nth_error h0 r)
    /\ (forall r Q x, nth_error h1 r = Some Q -> ~ In (Layout x) Q.(children))
    /\ (exists m, nth_error h1 l = Some m /\ m.(route) = r0.(route)).
Proof.
  intros Hchildless H. unfold hoistLayout in H.
  unbind H as [[layout |] [Hsel H]]; [| discriminate].
  pose proof (getMostSpecific_In _ _ _ Hsel) as Hin.
  cbn [bind] in H.
  unbind H as [r0 [Hr0 H]]. apply deref_OK in Hr0.
  assert (Hnone : forall n, In n h0 -> n.(children) = []).
  { intros n Hn. unfold childless in Hchildless. rewrite Forall_forall in Hchildless.
    now apply Hchildless. }
  assert (Hstep : forall m,
            m.(children) = r0.(children) ->
            m.(route) = r0.(route) ->
            (l, eps1, ptr1, h1)
            = (layout, ownEntryPoints r0, prefixOf r0.(route), store h0 layout m) ->
            exists r0,
              In (Some l) arr
              /\ nth_error h0 l = Some r0
              /\ eps1 = ownEntryPoints r0
              /\ ptr1 = prefixOf r0.(route)
              /\ described options h0 h1 l
              /\ handed h0 h1 l l eps1
              /\ (forall r, r <> l -> nth_error h1 r = nth_error h0 r)
              /\ (forall r Q x, nth_error h1 r = Some Q -> ~ In (Layout x) Q.(children))
              /\ (exists m, nth_error h1 l = Some m /\ m.(route) = r0.(route))).
  { intros m Hc Hroute E. inversion E; subst l eps1 ptr1 h1.
    assert (Hempty : forall r Q, nth_error (store h0 layout m) r = Some Q ->
              Q.(children) = []).
    { intros r Q Hr. destruct (Nat.eq_dec layout r) as [<- | Hne].
      - rewrite (nth_error_store_same _ _ _ _ Hr0) in Hr. inversion Hr; subst Q.
        rewrite Hc. apply Hnone. eapply nth_error_In. exact Hr0.
      - rewrite nth_error_store_other in Hr by exact Hne.
        apply Hnone. eapply nth_error_In. exact Hr. }
    exists r0. split; [exact Hin |]. split; [exact Hr0 |].
    split; [reflexivity |]. split; [reflexivity |].
    split; [intros r Q c Hr Hcc; rewrite (Hempty r Q Hr) in Hcc; destruct Hcc |].
    split; [now constructor |].
    split; [intros r Hne; now rewrite nth_error_store_other by congruence |].
    split; [intros r Q x Hr Hx; rewrite (Hempty r Q Hr) in Hx; destruct Hx |].
    exists m. split; [eapply nth_error_store_same; exact Hr0 | exact Hroute]. }
  simpl in H. rewrite replace_empty in H.
  unfold ownEntryPoints, prefixOf in Hstep.
  destruct (entryPoints r0) as [own |];
    destruct options.(ignoreEntryPoints), options.(unstable_stripLoadRoute);
    simpl in H; inversion H; subst;
    (eapply Hstep; [| | reflexivity]; reflexivity).
Qed.

(** Every child of a returned tree, in terms of the store before
    hoisting, when no layout is the layout of two directories. *)
Lemma getRoutes_described (env : Env) (fuel : nat) (contextModule : RequireContext)
    (t : DirectoryTree) (root : Ref) (h : Heap) :
  getDirectoryTree env fuel contextModule options = OK t ->
  NoDup (layoutRefs t.(directoryTree)) ->
  getRoutes env fuel contextModule options = OK (Some (root, h)) ->
  described options (snd (beforeHoisting options t)) h root
  /\ exists r0 r,
       nth_error (snd (beforeHoisting options t)) root = Some r0
       /\ nth_error h root = Some r
       /\ r.(route) = r0.(route).
Proof.
  intros Ht Hnd H. unfold getRoutes in H. rewrite Ht in H. cbn [bind] in H.
  pose proof (getDirectoryTree_safely false env fuel contextModule options) as Hs.
  rewrite Ht in Hs. destruct Hs as [[Hwf Hc] Hlayout]; [discriminate |].
  pose proof (getDirectoryTree_sortedRefs env options fuel contextModule t Ht) as Hsorted.
  destruct (negb t.(hasLayout) && negb t.(hasRoutes)); [discriminate |].
  unfold beforeHoisting.
  destruct (if t.(hasRoutes) || options.(unstable_alwaysIncludeSitemap)
            then appendSitemapRoute t.(directoryTree) t.(heap)
            else (t.(directoryTree), t.(heap))) as [d1 h1] eqn:E1.
  assert (H1 : wfDirectory false (length h1) d1 /\ childless h1
               /\ d1.(layout) = t.(directoryTree).(layout)
               /\ sortedRefs (isLayoutObject h1) (isViewObject h1) d1
               /\ layoutRefs d1 = layoutRefs t.(directoryTree)).
  { destruct (t.(hasRoutes) || options.(unstable_alwaysIncludeSitemap)).
    - destruct (appendSitemapRoute_scanned false _ _ _ _ E1 Hwf Hc) as [A [B C]].
      repeat split; try assumption.
      + eapply appendSitemapRoute_sortedRefs; eassumption.
      + eapply layoutRefs_appendSitemapRoute; eassumption.
    - inversion E1; subst. repeat split; assumption. }
  destruct H1 as [Hwf1 [Hc1 [Hl1 [Hs1 Hr1]]]].
  destruct (appendNotFoundRoute d1 h1) as [d2 h2] eqn:E2.
  destruct (appendNotFoundRoute_scanned false _ _ _ _ E2 Hwf1 Hc1) as [_ [Hc2 Hl2]].
  pose proof (appendNotFoundRoute_sortedRefs _ _ _ _ E2 Hs1) as Hs2.
  pose proof (layoutRefs_appendNotFoundRoute _ _ _ _ E2) as Hr2.
  cbn [snd].
  unbind H as [[root' hh] [Hh Hroot]].
  destruct root' as [root' |]; inversion Hroot; subst root' hh. clear Hroot.
  assert (Hnd2 : NoDup (layoutRefs d2)) by (rewrite Hr2, Hr1; exact Hnd).
  destruct d2 as [[arr |] views_ subs];
    [| exfalso; apply Hlayout; rewrite <- Hl1, <- Hl2; reflexivity].
  pose proof (fun l => sortedRefs_layoutRefs _ _ _ l Hs2) as Hkinds.
  inversion Hs2 as [l_ v_ s_ Hsl Hsv Hss]; subst l_ v_ s_.
  cbn [layoutRefs] in Hnd2, Hkinds.
  destruct (NoDup_app_inv _ _ Hnd2) as [_ [Hndb Hdis]].
  simpl in Hh.
  unbind Hh as [[[[parent1 eps1] ptr1] hA] [HA Hh]].
  unbind HA as [[[[l e] q] hx] [Hl HA]]. inversion HA; subst parent1 eps1 ptr1 hx. clear HA.
  unbind Hh as [hB [HB Hh]].
  unbind Hh as [hC [HC Hh]]. inversion Hh; subst l hC. clear Hh.
  destruct (hoistLayout_root_described h2 arr root e q hA Hc2 Hl)
    as [r0 [Hin [Hr0 [-> [-> [HdA [HhA [HfA [HnA [m [Hm Hmr]]]]]]]]]]].
  assert (Hroot_here : In root (filterSome arr)) by now apply In_filterSome.
  assert (Hrk : layoutFile r0.(contextKey) = true).
  { destruct (Hkinds root (in_or_app _ _ _ (or_introl Hroot_here))) as [n [Hn Hk]].
    rewrite Hr0 in Hn. inversion Hn; subst n. exact Hk. }
  assert (Hview_ne : forall r n0, nth_error h2 r = Some n0 ->
            layoutFile n0.(contextKey) = false -> r <> root).
  { intros r n0 Hr Hk ->. rewrite Hr0 in Hr. inversion Hr; subst n0. congruence. }
  destruct (views_described options h2 root root r0 (ownEntryPoints r0)
              (JS.mapValues views_) Hr0 Hrk hA hB HhA)
    as [HdB [HaB [HfB HnB]]]; try assumption.
  { intros routes v Hroutes Hv. unfold JS.mapValues in Hroutes.
    apply in_map_iff in Hroutes. destruct Hroutes as [[k a] [E Hina]]. simpl in E. subst a.
    destruct (Hsv k routes v Hina Hv) as [n0 [Hn0 Hk0]].
    exists n0. split; [exact Hn0 |]. split; [exact Hk0 |].
    rewrite HfA; [exact Hn0 |]. eapply Hview_ne; eassumption. }
  assert (Hwell : Forall (fun entry => hoistedWell options h2 root (snd entry)) subs).
  { rewrite Forall_forall. intros [k c] Hinc. simpl.
    apply hoist_described; [now apply (Hss k c) |].
    apply (NoDup_flat_map (fun entry => layoutRefs (snd entry)) subs Hndb (k, c) Hinc). }
  destruct (subdirs_described options h2 root subs Hwell) with
      (p := root) (p0 := r0) (eps := ownEntryPoints r0) (h := hB) (h' := h)
    as [HdC [HaC [HfC HnC]]]; try assumption.
  { intros x Hx. apply Hkinds, in_or_app. now right. }
  { now apply Hdis. }
  { eapply handed_advances; eassumption. }
  { intros x Hx. rewrite HfB, HfA; [reflexivity | |];
      intros ->; exact (Hdis root Hroot_here Hx). }
  { intros r n0 Hr Hk. rewrite HfB, HfA; [exact Hr | |]; eapply Hview_ne; eassumption. }
  { intros r Q x Hr Hx _. destruct (HnB r Q x Hr Hx) as [Q1 [HQ1 Hx1]].
    exact (HnA r Q1 x HQ1 Hx1). }
  split; [exact HdC |].
  destruct (HaB root m Hm) as [m1 [Hm1 [_ Hk1]]].
  destruct (HaC root m1 Hm1) as [m2 [Hm2 [_ Hk2]]].
  exists r0, m2. split; [exact Hr0 |]. split; [exact Hm2 |].
  destruct Hk1 as [Hrt1 _]; [tauto |].
  destruct Hk2 as [Hrt2 _]; [now apply Hdis | congruence].
Qed.

End WholeTree.


(** * Layouts of one directory *)

Lemma filterSome_assign {A} (arr : list (option A)) (i : nat) (v : A) :
  JS.at_ arr i = None ->
  Permutation (filterSome (JS.assign arr i v)) (v :: filterSome arr).
Proof.
  revert arr. induction i as [| i IH]; intros [| x arr] H; simpl.
  - apply Permutation_refl.
  - destruct x as [a |]; [discriminate | apply Permutation_refl].
  - apply (IH []). unfold JS.at_. now destruct i.
  - assert (Hi : JS.at_ arr i = None) by exact H.
    destruct x as [a |]; [| now apply IH].
    eapply Permutation_trans; [apply perm_skip, IH, Hi | apply perm_swap].
Qed.

Lemma layoutRefs_mapSet (m : list (string * DirectoryNode)) (k : string)
    (child' : DirectoryNode) (extra : list Ref) :
  Permutation (layoutRefs child')
    (extra ++ layoutRefs (match JS.mapGet m k with
                          | Some child => child
                          | None => emptyDirectory
                          end)) ->
  Permutation (flat_map (fun entry => layoutRefs (snd entry)) (JS.mapSet m k child'))
    (extra ++ flat_map (fun entry => layoutRefs (snd entry)) m).
Proof.
  induction m as [| [k' v'] m IH]; simpl; intros H.
  - rewrite !app_nil_r. rewrite app_nil_r in H. exact H.
  - destruct (String.eqb k k'); simpl.
    + rewrite app_assoc. now apply Permutation_app_tail.
    + eapply Permutation_trans; [apply Permutation_app_head, IH, H |].
      apply Permutation_app_swap_app.
Qed.

Lemma atLeaf_layoutRefs (f : DirectoryNode -> Result DirectoryNode) (extra : list Ref) :
  (forall leaf leaf', f leaf = OK leaf' ->
     Permutation (layoutRefs leaf') (extra ++ layoutRefs leaf)) ->
  forall path d d',
    atLeaf d path f = OK d' -> Permutation (layoutRefs d') (extra ++ layoutRefs d).
Proof.
  intros Hf. induction path as [| part rest IH]; intros d d' H; simpl in H;
    [now apply Hf |].
  unbind H as [c [Hc H]]. inversion H; subst d'.
  destruct d as [layout_ views_ subdirectories_]. simpl in *.
  eapply Permutation_trans;
    [apply Permutation_app_head, layoutRefs_mapSet, (IH _ _ Hc) |].
  apply Permutation_app_swap_app.
Qed.

Lemma fold_walk_layoutRefs (leaves : list (list string)) :
  forall d, Permutation (layoutRefs (fold_left walk leaves d)) (layoutRefs d).
Proof.
  induction leaves as [| p leaves IH]; intros d; simpl; [apply Permutation_refl |].
  eapply Permutation_trans; [apply IH |].
  apply (atLeaf_layoutRefs (fun leaf => OK leaf) [] ) with (path := p);
    [| apply atLeaf_walk].
  intros leaf leaf' E. inversion E; subst. apply Permutation_refl.
Qed.

Lemma placeLayout_layoutRefs (h : Heap) (filePath : string) (meta : FileMeta.t)
    (node : Ref) (leaf leaf' : DirectoryNode) :
  placeLayout h filePath meta node leaf = OK leaf' ->
  Permutation (layoutRefs leaf') ([node] ++ layoutRefs leaf).
Proof.
  unfold placeLayout. cbv zeta.
  destruct (JS.at_ _ _) as [existing |] eqn:E.
  - destruct (deref h existing); discriminate.
  - intros H. inversion H; subst leaf'.
    destruct leaf as [layout_ views_ subdirectories_]. simpl in *.
    apply (filterSome_assign _ _ node) in E.
    apply (Permutation_app_tail
             (flat_map (fun entry => layoutRefs (snd entry)) subdirectories_)) in E.
    exact E.
Qed.

Lemma placeView_layoutRefs (env : Env) (options : Options) (h : Heap) (filePath : string)
    (meta : FileMeta.t) (node : Ref) (leaf leaf' : DirectoryNode) :
  placeView env options h filePath meta node leaf = OK leaf' ->
  Permutation (layoutRefs leaf') ([] ++ layoutRefs leaf).
Proof.
  unfold placeView. cbv zeta. intros H.
  assert (E : leaf' = setViews leaf
                (JS.mapSet leaf.(views) meta.(FileMeta.name)
                   (JS.assign (match JS.mapGet leaf.(views) meta.(FileMeta.name) with
                               | Some nodes => nodes
                               | None => []
                               end) (Z.to_nat meta.(FileMeta.specificity)) node))).
  { destruct (String.eqb env.(NODE_ENV) "production"); [now inversion H |].
    destruct (JS.at_ _ _) as [existing |]; [| now inversion H].
    destruct options.(unstable_improvedErrorMessages); [| discriminate].
    destruct (deref h existing); discriminate. }
  subst leaf'. rewrite layoutRefs_setViews. apply Permutation_refl.
Qed.

Section Apart.
Context {M : Matchers}.
Variable env : Env.
Variable options : Options.
Variable fuel : nat.

Lemma processFile_apart (filePath : string) (st st' : DirectoryTree) :
  (forall meta keys,
     getFileMeta env filePath options = OK meta ->
     meta.(FileMeta.isLayout) = true ->
     extrapolateGroups fuel meta.(FileMeta.key) [] = OK keys ->
     length keys <= 1) ->
  apart st ->
  processFile env options fuel (getIgnoreList options) filePath st = OK st' ->
  apart st'.
Proof.
  intros Hone Hst. unfold processFile.
  destruct (existsb _ (getIgnoreList options)); [intros H; now inversion H; subst |].
  intros H. unbind H as [meta [Hmeta H]].
  destruct (meta.(FileMeta.specificity) <? 0)%Z; [now inversion H; subst |].
  unbind H as [keys [Hkeys H]]. unfold alloc in H.
  destruct Hst as [Hnd Hlt].
  pose proof (fold_walk_layoutRefs (map (subdirectoryParts meta) keys) st.(directoryTree))
    as Hwalk.
  assert (Hsame : forall d,
            Permutation (layoutRefs d) (layoutRefs st.(directoryTree)) ->
            apart {| directoryTree := d; hasRoutes := st.(hasRoutes);
                     hasLayout := st.(hasLayout);
                     heap := st.(heap) ++ [fileNode options filePath meta] |}).
  { intros d Hd. split; simpl.
    - eapply Permutation_NoDup; [apply Permutation_sym; exact Hd | exact Hnd].
    - intros r Hr. rewrite length_app. simpl.
      apply (Permutation_in _ Hd) in Hr. apply Hlt in Hr. lia. }
  destruct meta.(FileMeta.isLayout) eqn:El.
  - specialize (Hone meta keys Hmeta El Hkeys).
    unbind H as [d [Hd H]]. inversion H; subst st'.
    destruct keys as [| key [| key' keys]]; [| | simpl in Hone; lia].
    + simpl in Hd. inversion Hd; subst d.
      destruct (Hsame st.(directoryTree) (Permutation_refl _)) as [Ha Hb].
      split; assumption.
    + simpl in Hd. unbind Hd as [d1 [Hd1 Hd]]. inversion Hd; subst d1.
      assert (Hp : Permutation (layoutRefs d)
                     (length st.(heap) :: layoutRefs st.(directoryTree))).
      { eapply Permutation_trans;
          [apply (atLeaf_layoutRefs _ [length st.(heap)]
                    (placeLayout_layoutRefs _ filePath meta _) _ _ _ Hd1) |].
        simpl. simpl in Hwalk. apply perm_skip. exact Hwalk. }
      split; simpl.
      * eapply Permutation_NoDup; [apply Permutation_sym; exact Hp |].
        constructor; [| exact Hnd]. intros Hin. apply Hlt in Hin. lia.
      * intros r Hr. rewrite length_app. simpl.
        apply (Permutation_in _ Hp) in Hr. destruct Hr as [<- | Hr]; [lia |].
        apply Hlt in Hr. lia.
  - destruct meta.(FileMeta.isApi).
    + inversion H; subst st'.
      destruct (Hsame _ Hwalk) as [Ha Hb]. split; assumption.
    + unbind H as [d [Hd H]]. inversion H; subst st'.
      assert (Hp : Permutation (layoutRefs d) (layoutRefs st.(directoryTree))).
      { refine (forEach_invariant_In
                  (fun x => Permutation (layoutRefs x) (layoutRefs st.(directoryTree)))
                  _ _ _ d _ Hwalk Hd).
        intros leaf a b _ Ha Hb.
        eapply Permutation_trans; [| exact Ha].
        apply (atLeaf_layoutRefs _ []
                 (placeView_layoutRefs env options _ filePath meta _) _ _ _ Hb). }
      destruct (Hsame _ Hp) as [Ha Hb]. split; assumption.
Qed.

(** When every layout file of the enumeration expands to one key, that
    is, when none is in a directory named by a list of several groups, no
    layout of the scanned tree is the layout of two directories. *)
Lemma one_key_layouts_apart (contextModule : RequireContext) (t : DirectoryTree) :
  (forall f meta keys,
     In f contextModule ->
     getFileMeta env f options = OK meta ->
     meta.(FileMeta.isLayout) = true ->
     extrapolateGroups fuel meta.(FileMeta.key) [] = OK keys ->
     length keys <= 1) ->
  getDirectoryTree env fuel contextModule options = OK t ->
  NoDup (layoutRefs t.(directoryTree)).
Proof.
  intros Hone. unfold getDirectoryTree. cbv zeta. intros H.
  unbind H as [st [Hscan H]].
  assert (Hst : apart st).
  { refine (forEach_invariant_In apart _ contextModule _ st _ _ Hscan).
    - intros f a b Hf Ha Hb. eapply processFile_apart; [| exact Ha | exact Hb].
      intros meta keys. now apply Hone.
    - split; [constructor | intros r []]. }
  destruct Hst as [Hnd Hlt].
  destruct st.(directoryTree) as [layout_ views_ subdirectories_] eqn:Ed.
  simpl in H. destruct layout_ as [arr |]; [inversion H; subst t; simpl; now rewrite Ed |].
  unfold alloc in H. inversion H; subst t. simpl in *.
  constructor; [| exact Hnd]. intros Hin. apply Hlt in Hin. lia.
Qed.

End Apart.

(** * The returned tree *)

Lemma hoistView_contextKey {M : Matchers} (options : Options) (eps : list string) (pathToRemove : string)
    (node : RouteNode) :
  (hoistView options eps pathToRemove node).(contextKey) = node.(contextKey).
Proof.
  unfold hoistView.
  destruct options.(ignoreEntryPoints), options.(unstable_stripLoadRoute); reflexivity.
Qed.

Lemma hoistView_entryPoints {M : Matchers} (options : Options) (eps : list string) (pathToRemove : string)
    (node : RouteNode) :
  (hoistView options eps pathToRemove node).(entryPoints)
  = if options.(ignoreEntryPoints) then None
    else Some (JS.newSet (eps ++ ownEntryPoints node)).
Proof.
  unfold hoistView, ownEntryPoints.
  destruct options.(ignoreEntryPoints), options.(unstable_stripLoadRoute); reflexivity.
Qed.

Lemma prefixOf_empty (route_ : string) : route_ = "" -> prefixOf route_ = "".
Proof. intros ->. reflexivity. Qed.

Lemma prefixOf_route (route_ : string) : route_ <> "" -> prefixOf route_ = (route_ ++ "/")%string.
Proof.
  intros Hne. unfold prefixOf. destruct (String.eqb route_ "") eqn:E; [| reflexivity].
  apply String.eqb_eq in E. contradiction.
Qed.

(** A layout in a directory named by a list of groups is the layout of
    every directory the list expands to: it is hoisted once for each, and
    the second time its own prefix is gone from its route, so that the
    views cloned then keep the path of the layouts above. *)
Example shared_layout_hoisted_twice :
  exists t root h l x1 x2,
    getDirectoryTree ios 3
      ["./_layout.tsx"; "./a/_layout.tsx"; "./a/(b,c)/_layout.tsx"; "./a/(b,c)/x.tsx"]
      defaultOptions = OK t
    /\ ~ NoDup (layoutRefs t.(directoryTree))
    /\ getRoutes ios 3
         ["./_layout.tsx"; "./a/_layout.tsx"; "./a/(b,c)/_layout.tsx"; "./a/(b,c)/x.tsx"]
         defaultOptions = OK (Some (root, h))
    /\ nth_error h 2 = Some l
    /\ l.(contextKey) = "./a/(b,c)/_layout.tsx"
    /\ l.(children) = [View x1; View x2]
    /\ x1.(route) = "x"
    /\ x2.(route) = "a/x".
Proof.
  eexists _, _, _, _, _, _.
  split; [vm_compute; reflexivity |].
  split.
  { vm_compute. intros H.
    apply NoDup_cons_iff in H. destruct H as [_ H].
    apply NoDup_cons_iff in H. destruct H as [_ H].
    apply NoDup_cons_iff in H. destruct H as [H _]. apply H. now left. }
  split; [vm_compute; reflexivity |].
  split; [reflexivity |]. split; [reflexivity |].
  split; [reflexivity |]. split; reflexivity.
Qed.

(** C1, as the code has it: for the files [_layout.tsx], [a/_layout.tsx]
    and [a/b.tsx] the root layout has the layout of [a] among its children,
    with the route [a], and that layout has the view of [a/b.tsx] among its
    children, with the route [b]. In general, in every returned tree where
    no layout is the layout of two directories, the root keeps the route the
    scan gave it, and every child of every object has the route the scan
    gave it (in the store the hoister starts from) with the first
    occurrence of the prefix of its parent removed: the prefix is the route
    the scan gave the parent followed by [/], or empty for an empty route.
    So a route [L/rest] below a layout of route [L] becomes [rest], which
    may itself start with [L]. No layout is the layout of two directories
    when every layout file of the enumeration expands to one key. *)
Theorem hoisting_strips_layout_path (env : Env) (fuel : nat) :
  (exists root h r la a b,
     getRoutes env (S fuel) ["./_layout.tsx"; "./a/_layout.tsx"; "./a/b.tsx"] defaultOptions
     = OK (Some (root, h))
     /\ nth_error h root = Some r
     /\ r.(contextKey) = "./_layout.tsx"
     /\ In (Layout la) r.(children)
     /\ nth_error h la = Some a
     /\ a.(contextKey) = "./a/_layout.tsx"
     /\ a.(route) = "a"
     /\ In (View b) a.(children)
     /\ b.(contextKey) = "./a/b.tsx"
     /\ b.(route) = "b")
  /\ (forall (M : Matchers) (env' : Env) (fuel' : nat) (contextModule : RequireContext)
        (options : Options) (t : DirectoryTree) (root : Ref) (h : Heap),
        getDirectoryTree env' fuel' contextModule options = OK t ->
        NoDup (layoutRefs t.(directoryTree)) ->
        getRoutes env' fuel' contextModule options = OK (Some (root, h)) ->
        (exists r0 r,
           nth_error (snd (beforeHoisting options t)) root = Some r0
           /\ nth_error h root = Some r
           /\ r.(route) = r0.(route))
        /\ forall p P c,
             nth_error h p = Some P ->
             In c P.(children) ->
             exists p0 c0 n,
               nth_error (snd (beforeHoisting options t)) p = Some p0
               /\ comesFrom (snd (beforeHoisting options t)) c c0
               /\ childNode h c = Some n
               /\ n.(contextKey) = c0.(contextKey)
               /\ n.(route) = JS.replace c0.(route) (prefixOf p0.(route)) ""
               /\ (p0.(route) = "" -> n.(route) = c0.(route))
               /\ (forall rest,
                     p0.(route) <> "" ->
                     c0.(route) = ((p0.(route) ++ "/") ++ rest)%string ->
                     n.(route) = rest))
  /\ (forall (M : Matchers) (env' : Env) (fuel' : nat) (contextModule : RequireContext)
        (options : Options) (t : DirectoryTree),
        (forall f meta keys,
           In f contextModule ->
           getFileMeta env' f options = OK meta ->
           meta.(FileMeta.isLayout) = true ->
           extrapolateGroups fuel' meta.(FileMeta.key) [] = OK keys ->
           length keys <= 1) ->
        getDirectoryTree env' fuel' contextModule options = OK t ->
        NoDup (layoutRefs t.(directoryTree))).
Proof.
  split; [apply three_files_tree |].
  split;
    [| intros M env' fuel' contextModule options t Hone Ht;
       exact (one_key_layouts_apart env' options fuel' contextModule t Hone Ht)].
  intros M env' fuel' contextModule options t root h Ht Hnd Hr.
  destruct (getRoutes_described options env' fuel' contextModule t root h Ht Hnd Hr)
    as [Hd Hroot].
  split; [exact Hroot |].
  intros p P c HP Hc.
  destruct (Hd p P c HP Hc) as [p0 [e [Hp0 [_ Hcase]]]].
  assert (Hfinish : forall c0 n,
             n.(route) = JS.replace c0.(route) (prefixOf p0.(route)) "" ->
             (p0.(route) = "" -> n.(route) = c0.(route))
             /\ (forall rest,
                   p0.(route) <> "" ->
                   c0.(route) = ((p0.(route) ++ "/") ++ rest)%string ->
                   n.(route) = rest)).
  { intros c0 n Hn. split.
    - intros Hempty. rewrite Hn, (prefixOf_empty _ Hempty). apply replace_empty.
    - intros rest Hne Hc0. rewrite Hn, (prefixOf_route _ Hne), Hc0. apply replace_prefix. }
  destruct c as [l | v].
  - destruct Hcase as [l0 [m [Hl0 [Hm [Hroute Hkey]]]]].
    exists p0, l0, m.
    split; [exact Hp0 |]. split; [exact Hl0 |]. split; [exact Hm |].
    split; [exact Hkey |]. split; [exact Hroute |]. now apply Hfinish.
  - destruct Hcase as [n0 [Hin [_ Hv]]].
    exists p0, n0, v.
    split; [exact Hp0 |]. split; [exact Hin |]. split; [reflexivity |].
    assert (Hroute : v.(route) = JS.replace n0.(route) (prefixOf p0.(route)) "")
      by (rewrite Hv; apply hoistView_route).
    split; [rewrite Hv; apply hoistView_contextKey |].
    split; [exact Hroute |]. now apply Hfinish.
Qed.

Lemma hoisting_strips_layout_path_witness :
  exists t root h a b p0 c0,
    getDirectoryTree ios 1 ["./_layout.tsx"; "./a/_layout.tsx"; "./a/a/b.tsx"] defaultOptions
    = OK t
    /\ NoDup (layoutRefs t.(directoryTree))
    /\ getRoutes ios 1 ["./_layout.tsx"; "./a/_layout.tsx"; "./a/a/b.tsx"] defaultOptions
       = OK (Some (root, h))
    /\ nth_error h 1 = Some a
    /\ In (View b) a.(children)
    /\ nth_error (snd (beforeHoisting defaultOptions t)) 1 = Some p0
    /\ In c0 (snd (beforeHoisting defaultOptions t))
    /\ b.(contextKey) = c0.(contextKey)
    /\ b.(route) = JS.replace c0.(route) (prefixOf p0.(route)) "".
Proof.
  destruct (getDirectoryTree ios 1 ["./_layout.tsx"; "./a/_layout.tsx"; "./a/a/b.tsx"]
              defaultOptions) as [t | err] eqn:Et; [| vm_compute in Et; discriminate].
  destruct (getRoutes ios 1 ["./_layout.tsx"; "./a/_layout.tsx"; "./a/a/b.tsx"]
              defaultOptions) as [[[root h] |] | err] eqn:E;
    [| vm_compute in E; discriminate | vm_compute in E; discriminate].
  assert (Hnd : NoDup (layoutRefs t.(directoryTree))).
  { pose proof Et as Et'. vm_compute in Et'. inversion Et' as [Ht]. cbn.
    repeat constructor; cbn; intuition discriminate. }
  destruct (proj1 (proj2 (hoisting_strips_layout_path ios 0)) matchers ios 1 _ defaultOptions
              t root h Et Hnd E) as [_ Hchildren].
  pose proof E as E'. vm_compute in E'. injection E' as Hroot Hh.
  destruct (nth_error h 1) as [a |] eqn:Ea;
    [| rewrite <- Hh in Ea; vm_compute in Ea; discriminate].
  destruct a.(children) as [| c rest] eqn:Ec;
    [rewrite <- Hh in Ea; vm_compute in Ea; injection Ea as Ha; rewrite <- Ha in Ec;
     discriminate |].
  destruct c as [l | b];
    [rewrite <- Hh in Ea; vm_compute in Ea; injection Ea as Ha; rewrite <- Ha in Ec;
     discriminate |].
  destruct (Hchildren 1 a (View b) Ea) as [p0 [c0 [n [Hp0 [Hc0 [Hn [Hk [Hroute _]]]]]]]].
  { rewrite Ec. now left. }
  inversion Hn; subst n.
  exists t, root, h, a, b, p0, c0.
  split; [reflexivity |]. split; [exact Hnd |]. split; [reflexivity |].
  split; [exact Ea |]. split; [rewrite Ec; now left |].
  split; [exact Hp0 |]. split; [exact Hc0 |]. split; assumption.
Defined.


(** X17: in a returned tree where no layout is the layout of two
    directories, every view is the clone of a node the hoister started
    from, and its entry points are those its parent hands down (the entry
    points of the layouts from the root down to the parent, as the scan
    stored them, in that order) followed by its own, each listed once; under
    [ignoreEntryPoints] it has none. *)
Theorem view_entry_points (M : Matchers) (env : Env) (fuel : nat)
    (contextModule : RequireContext) (options : Options) (t : DirectoryTree)
    (root : Ref) (h : Heap)
    (Hscan : getDirectoryTree env fuel contextModule options = OK t)
    (Hapart : NoDup (layoutRefs t.(directoryTree)))
    (Hresult : getRoutes env fuel contextModule options = OK (Some (root, h))) :
  forall p P v,
    nth_error h p = Some P ->
    In (View v) P.(children) ->
    exists e n0,
      handed (snd (beforeHoisting options t)) h root p e
      /\ In n0 (snd (beforeHoisting options t))
      /\ v.(contextKey) = n0.(contextKey)
      /\ v.(entryPoints)
         = if options.(ignoreEntryPoints) then None
           else Some (JS.newSet (e ++ ownEntryPoints n0)).
Proof.
  intros p P v HP Hv.
  destruct (getRoutes_described options env fuel contextModule t root h Hscan Hapart Hresult)
    as [Hd _].
  destruct (Hd p P (View v) HP Hv) as [p0 [e [_ [He [n0 [Hin [_ ->]]]]]]].
  exists e, n0.
  split; [exact He |]. split; [exact Hin |].
  split; [apply hoistView_contextKey | apply hoistView_entryPoints].
Qed.

Lemma view_entry_points_witness :
  exists t root h a b e n0,
    getDirectoryTree ios 1 ["./_layout.tsx"; "./a/_layout.tsx"; "./a/b.tsx"] defaultOptions
    = OK t
    /\ getRoutes ios 1 ["./_layout.tsx"; "./a/_layout.tsx"; "./a/b.tsx"] defaultOptions
       = OK (Some (root, h))
    /\ nth_error h 1 = Some a
    /\ In (View b) a.(children)
    /\ handed (snd (beforeHoisting defaultOptions t)) h root 1 e
    /\ In n0 (snd (beforeHoisting defaultOptions t))
    /\ b.(contextKey) = n0.(contextKey)
    /\ b.(entryPoints) = Some (JS.newSet (e ++ ownEntryPoints n0)).
Proof.
  destruct (getDirectoryTree ios 1 ["./_layout.tsx"; "./a/_layout.tsx"; "./a/b.tsx"]
              defaultOptions) as [t | err] eqn:Et; [| vm_compute in Et; discriminate].
  destruct (getRoutes ios 1 ["./_layout.tsx"; "./a/_layout.tsx"; "./a/b.tsx"]
              defaultOptions) as [[[root h] |] | err] eqn:E;
    [| vm_compute in E; discriminate | vm_compute in E; discriminate].
  assert (Hnd : NoDup (layoutRefs t.(directoryTree))).
  { pose proof Et as Et'. vm_compute in Et'. inversion Et' as [Ht]. cbn.
    repeat constructor; cbn; intuition discriminate. }
  pose proof (view_entry_points matchers ios 1 _ defaultOptions t root h Et Hnd E)
    as Hviews.
  pose proof E as E'. vm_compute in E'. injection E' as Hroot Hh.
  destruct (nth_error h 1) as [a |] eqn:Ea;
    [| rewrite <- Hh in Ea; vm_compute in Ea; discriminate].
  destruct a.(children) as [| c rest] eqn:Ec;
    [rewrite <- Hh in Ea; vm_compute in Ea; injection Ea as Ha; rewrite <- Ha in Ec;
     discriminate |].
  destruct c as [l | b];
    [rewrite <- Hh in Ea; vm_compute in Ea; injection Ea as Ha; rewrite <- Ha in Ec;
     discriminate |].
  destruct (Hviews 1 a b Ea) as [e [n0 [He [Hn0 [Hk Heps]]]]].
  { rewrite Ec. now left. }
  exists t, root, h, a, b, e, n0.
  split; [reflexivity |]. split; [reflexivity |]. split; [exact Ea |].
  split; [rewrite Ec; now left |].
  split; [exact He |]. split; [exact Hn0 |]. split; [exact Hk | exact Heps].
Defined.

(** X20: in a returned tree where no layout is the layout of two
    directories, a layout [l] other than the root is the child of a layout
    [p], and hands down to its views the entry points [p] hands down
    followed by its own, and as the prefix to strip the route the scan gave
    it (before its own prefix was stripped) followed by [/], or the empty
    prefix for an empty route. *)
Theorem layout_hands_down (M : Matchers) (env : Env) (fuel : nat)
    (contextModule : RequireContext) (options : Options) (t : DirectoryTree)
    (root : Ref) (h : Heap)
    (Hscan : getDirectoryTree env fuel contextModule options = OK t)
    (Hapart : NoDup (layoutRefs t.(directoryTree)))
    (Hresult : getRoutes env fuel contextModule options = OK (Some (root, h))) :
  forall l L v,
    l <> root ->
    nth_error h l = Some L ->
    In (View v) L.(children) ->
    exists p P e l0 n0,
      nth_error h p = Some P
      /\ In (Layout l) P.(children)
      /\ handed (snd (beforeHoisting options t)) h root p e
      /\ nth_error (snd (beforeHoisting options t)) l = Some l0
      /\ In n0 (snd (beforeHoisting options t))
      /\ v.(contextKey) = n0.(contextKey)
      /\ v.(entryPoints)
         = (if options.(ignoreEntryPoints) then None
            else Some (JS.newSet ((e ++ ownEntryPoints l0) ++ ownEntryPoints n0)))
      /\ v.(route)
         = JS.replace n0.(route)
             (if String.eqb l0.(route) "" then "" else (l0.(route) ++ "/")%string) "".
Proof.
  intros l L v Hl HL Hv.
  destruct (getRoutes_described options env fuel contextModule t root h Hscan Hapart Hresult)
    as [Hd _].
  destruct (Hd l L (View v) HL Hv) as [l0 [e [Hl0 [He [n0 [Hin [_ ->]]]]]]].
  inversion He as [r0 Hr0 Hroot | p e' P l' l0' He' HP Hchild Hl0' Hl' Heq];
    [congruence |].
  subst l'. assert (l0' = l0) by congruence. subst l0'.
  exists p, P, e', l0, n0.
  split; [exact HP |]. split; [exact Hchild |]. split; [exact He' |].
  split; [exact Hl0 |]. split; [exact Hin |].
  split; [apply hoistView_contextKey |].
  split; [apply hoistView_entryPoints | apply hoistView_route].
Qed.

Lemma layout_hands_down_witness :
  exists t root h a b p P e l0 n0,
    getDirectoryTree ios 1 ["./_layout.tsx"; "./a/_layout.tsx"; "./a/b.tsx"] defaultOptions
    = OK t
    /\ getRoutes ios 1 ["./_layout.tsx"; "./a/_layout.tsx"; "./a/b.tsx"] defaultOptions
       = OK (Some (root, h))
    /\ nth_error h 1 = Some a
    /\ In (View b) a.(children)
    /\ nth_error h p = Some P
    /\ In (Layout 1) P.(children)
    /\ handed (snd (beforeHoisting defaultOptions t)) h root p e
    /\ nth_error (snd (beforeHoisting defaultOptions t)) 1 = Some l0
    /\ In n0 (snd (beforeHoisting defaultOptions t))
    /\ b.(entryPoints) = Some (JS.newSet ((e ++ ownEntryPoints l0) ++ ownEntryPoints n0)).
Proof.
  destruct (getDirectoryTree ios 1 ["./_layout.tsx"; "./a/_layout.tsx"; "./a/b.tsx"]
              defaultOptions) as [t | err] eqn:Et; [| vm_compute in Et; discriminate].
  destruct (getRoutes ios 1 ["./_layout.tsx"; "./a/_layout.tsx"; "./a/b.tsx"]
              defaultOptions) as [[[root h] |] | err] eqn:E;
    [| vm_compute in E; discriminate | vm_compute in E; discriminate].
  assert (Hnd : NoDup (layoutRefs t.(directoryTree))).
  { pose proof Et as Et'. vm_compute in Et'. inversion Et' as [Ht]. cbn.
    repeat constructor; cbn; intuition discriminate. }
  pose proof (layout_hands_down matchers ios 1 _ defaultOptions t root h Et Hnd E)
    as Hlayouts.
  pose proof E as E'. vm_compute in E'. injection E' as Hroot Hh.
  destruct (nth_error h 1) as [a |] eqn:Ea;
    [| rewrite <- Hh in Ea; vm_compute in Ea; discriminate].
  destruct a.(children) as [| c rest] eqn:Ec;
    [rewrite <- Hh in Ea; vm_compute in Ea; injection Ea as Ha; rewrite <- Ha in Ec;
     discriminate |].
  destruct c as [l | b];
    [rewrite <- Hh in Ea; vm_compute in Ea; injection Ea as Ha; rewrite <- Ha in Ec;
     discriminate |].
  destruct (Hlayouts 1 a b) as [p [P [e [l0 [n0 [HP [Hc [He [Hl0 [Hn0 [_ [Heps _]]]]]]]]]]]].
  { rewrite <- Hroot. discriminate. }
  { exact Ea. }
  { rewrite Ec. now left. }
  exists t, root, h, a, b, p, P, e, l0, n0.
  split; [reflexivity |]. split; [reflexivity |]. split; [exact Ea |].
  split; [rewrite Ec; now left |].
  split; [exact HP |]. split; [exact Hc |]. split; [exact He |].
  split; [exact Hl0 |]. split; [exact Hn0 | exact Heps].
Defined.


(** * The generated views in the returned tree *)

Section Injected.
Context {M : Matchers}.

(** The loop over the views clones the only candidate of a name as the
    store held it when the loop started. *)
Lemma hoistViews_clones (options : Options) (l : Ref) (eps : list string)
    (pathToRemove : string) (entries : list (string * list (option Ref))) :
  forall h h',
    forEach (hoistViews options l eps pathToRemove) (JS.mapValues entries) h = OK h' ->
    forall k v n,
      In (k, [Some v]) entries ->
      v <> l ->
      nth_error h v = Some n ->
      exists p,
        nth_error h' l = Some p
        /\ In (View (hoistView options eps pathToRemove n)) p.(children).
Proof.
  induction entries as [| [k0 arr0] entries IH]; intros h h' H k v n Hin Hne Hv;
    [destruct Hin |].
  simpl in H. unbind H as [h1 [H1 H2]].
  unfold hoistViews in H1.
  unbind H1 as [[v0 |] [Hsel H1]]; [| discriminate].
  unbind H1 as [n0 [Hn0 H1]]. apply deref_OK in Hn0.
  unbind H1 as [p [Hp H1]]. apply deref_OK in Hp.
  inversion H1; subst h1. clear H1.
  destruct Hin as [Hin | Hin].
  - inversion Hin; subst k0 arr0.
    apply getMostSpecific_In in Hsel. destruct Hsel as [Hsel | []].
    inversion Hsel; subst v0. rewrite Hv in Hn0. inversion Hn0; subst n0.
    assert (G : grows (store h l (pushChild p (View (hoistView options eps pathToRemove n))))
                  h').
    { eapply forEach_grows; [| exact H2]. intros x a b _. apply hoistViews_grows. }
    destruct (G l _ (nth_error_store_same _ _ _ _ Hp)) as [p' [Hp' [_ [_ [_ [more Hmore]]]]]].
    exists p'. split; [assumption |].
    rewrite Hmore. simpl. apply in_or_app. left. apply in_or_app. right. now left.
  - eapply IH; [exact H2 | exact Hin | exact Hne |].
    rewrite nth_error_store_other by congruence. exact Hv.
Qed.

(** What the layout of the root hands down. *)
Lemma hoistLayout_root_hands (options : Options) (layout_ : list (option Ref))
    (h : Heap) (l : Ref) (eps' : list string) (pathToRemove' : string) (h' : Heap) :
  hoistLayout options layout_ None [] "" h = OK (l, eps', pathToRemove', h') ->
  exists p p',
    nth_error h l = Some p
    /\ h' = store h l p'
    /\ eps' = ownEntryPoints p
    /\ pathToRemove' = prefixOf p.(route).
Proof.
  unfold hoistLayout. intros H.
  unbind H as [[layout |] [Hsel H]]; [| discriminate].
  simpl in H. unbind H as [p [Hp H]]. apply deref_OK in Hp.
  exists p.
  destruct (entryPoints p) as [own |] eqn:Eown;
    inversion H; subst;
    eexists; (split; [assumption |]); (split; [reflexivity |]);
    unfold ownEntryPoints, prefixOf; rewrite Eown; split; reflexivity.
Qed.

(** Without a [+not-found] view in the root directory of the scan,
    [appendNotFoundRoute] stores [notFoundRoute] as a new object, the only
    candidate of the name [+not-found], and the root of the returned tree
    has its clone among its children. *)
Lemma getRoutes_injected (env : Env) (fuel : nat) (contextModule : RequireContext)
    (options : Options) (t : DirectoryTree) (root : Ref) (h : Heap) :
  getDirectoryTree env fuel contextModule options = OK t ->
  getRoutes env fuel contextModule options = OK (Some (root, h)) ->
  JS.mapHas t.(directoryTree).(views) "+not-found" = false ->
  exists node r0 r,
    nth_error t.(heap) node = None
    /\ JS.mapGet (fst (beforeHoisting options t)).(views) "+not-found" = Some [Some node]
    /\ nth_error (snd (beforeHoisting options t)) node = Some notFoundRoute
    /\ nth_error (snd (beforeHoisting options t)) root = Some r0
    /\ nth_error h root = Some r
    /\ In (View (hoistView options (ownEntryPoints r0) (prefixOf r0.(route)) notFoundRoute))
         r.(children).
Proof.
  intros Ht H Hnone. unfold getRoutes in H. rewrite Ht in H. cbn [bind] in H.
  destruct (getDirectoryTree_root _ _ _ _ _ Ht) as [[_ Hlayouts] _].
  destruct (negb t.(hasLayout) && negb t.(hasRoutes)); [discriminate |].
  unfold beforeHoisting.
  set (cond := t.(hasRoutes) || options.(unstable_alwaysIncludeSitemap)) in *.
  destruct (if cond then appendSitemapRoute t.(directoryTree) t.(heap)
            else (t.(directoryTree), t.(heap))) as [d1 h1] eqn:E1.
  assert (S1 : d1.(layout) = t.(directoryTree).(layout)
               /\ JS.mapHas d1.(views) "+not-found" = false
               /\ length t.(heap) <= length h1).
  { destruct cond.
    - unfold appendSitemapRoute in E1.
      destruct (JS.mapHas t.(directoryTree).(views) "_sitemap"); inversion E1; subst.
      + split; [reflexivity |]. split; [exact Hnone | apply Nat.le_refl].
      + split; [destruct t.(directoryTree); reflexivity |].
        split.
        * destruct t.(directoryTree) as [l0 v0 s0]. simpl in *. unfold JS.mapHas in *.
          rewrite mapGet_mapSet_other by discriminate. exact Hnone.
        * rewrite length_app. simpl. lia.
    - inversion E1; subst. split; [reflexivity |]. split; [exact Hnone | apply Nat.le_refl]. }
  destruct S1 as [Hl1 [Hnone1 Hlen]].
  unfold appendNotFoundRoute in *. rewrite Hnone1 in *. cbn [alloc] in *.
  destruct d1 as [layout1 views1 subs1]. simpl in Hl1, Hnone1. cbn [fst snd views setViews] in *.
  simpl in H.
  unbind H as [[root' h'] [Hh H]].
  destruct root' as [root' |]; inversion H; subst root' h'. clear H.
  destruct layout1 as [arr |].
  - simpl in Hh. unbind Hh as [[[[parent1 eps1] ptr1] h3] [H3 Hh]].
    unbind H3 as [[[[l e] q] hh] [Hlay H3]].
    inversion H3; subst parent1 eps1 ptr1 h3. clear H3.
    unbind Hh as [h4 [H4 Hh]].
    unbind Hh as [h5 [H5 Hh]]. inversion Hh; subst l h5. clear Hh.
    assert (G5 : grows h4 h).
    { eapply forEach_grows; [| exact H5].
      intros child a b _ Hb. unbind Hb as [[rt x] [Hx Hb]].
      inversion Hb; subst. eapply hoist_grows; eassumption. }
    pose proof (getMostSpecific_In arr (h1 ++ [notFoundRoute]) root) as Hin.
    assert (Hroot : In (Some root) arr).
    { apply Hin. unfold hoistLayout in Hlay.
      destruct (getMostSpecific arr (h1 ++ [notFoundRoute])) as [[x |] | err] eqn:Es;
        simpl in Hlay; try discriminate.
      unbind Hlay as [p [_ Hlay]].
      destruct (entryPoints p); inversion Hlay; reflexivity. }
    destruct (Hlayouts arr root (eq_sym Hl1) Hroot) as [n0 [Hn0 _]].
    assert (Hlt : root < length t.(heap)) by (apply nth_error_Some; congruence).
    destruct (hoistLayout_root_hands _ _ _ _ _ _ _ Hlay) as [p [p' [Hp [-> [-> ->]]]]].
    destruct (hoistViews_clones options root (ownEntryPoints p) (prefixOf p.(route))
                (JS.mapSet views1 "+not-found" [Some (length h1)]) _ _ H4
                "+not-found" (length h1) notFoundRoute) as [p4 [Hp4 Hclone]].
    + apply mapSet_In.
    + lia.
    + rewrite nth_error_store_other by lia. apply nth_error_alloc_new.
    + destruct (G5 root p4 Hp4) as [r [Hr [_ [_ [_ [more Hmore]]]]]].
      exists (length h1), p, r.
      split; [apply nth_error_None; exact Hlen |].
      split; [apply mapGet_mapSet |].
      split; [apply nth_error_alloc_new |].
      split; [exact Hp |]. split; [exact Hr |].
      rewrite Hmore. apply in_or_app. now left.
  - simpl in Hh. discriminate.
Qed.

End Injected.

(** C6: when the scan finds a view, the tree [getRoutes] returns has
    below its root a [_sitemap] view and a [+not-found] view, authored or
    not, and the [+not-found] view carries the not-found convention as its
    [dynamic]. When the root directory of the scan has no [+not-found]
    view, the node [appendNotFoundRoute] injects is a new object of the
    store, the only candidate of the name [+not-found]; it is generated and
    internal, loads the unmatched view and carries the not-found convention
    as its [dynamic]; and the [+not-found] view below the root is the clone
    the hoister makes of it. *)
Theorem synthetic_routes_present (M : Matchers) (env : Env) (fuel : nat)
    (contextModule : RequireContext) (options : Options) (result : option (Ref * Heap))
    (Hresult : getRoutes env fuel contextModule options = OK result)
    (Hview : exists f, In f contextModule /\ found env options f = FoundView) :
  exists root h r sitemap_ notFound_,
    result = Some (root, h)
    /\ nth_error h root = Some r
    /\ In (View sitemap_) r.(children)
    /\ sitemap_.(route) = "_sitemap"
    /\ In (View notFound_) r.(children)
    /\ notFound_.(route) = "+not-found"
    /\ notFound_.(dynamic)
       = Some [ {| name := "+not-found"; deep := true; notFound := Some true |} ]
    /\ (forall t,
          getDirectoryTree env fuel contextModule options = OK t ->
          JS.mapHas t.(directoryTree).(views) "+not-found" = false ->
          exists node injected r0,
            nth_error t.(heap) node = None
            /\ JS.mapGet (fst (beforeHoisting options t)).(views) "+not-found"
               = Some [Some node]
            /\ nth_error (snd (beforeHoisting options t)) node = Some injected
            /\ injected
               = {| loadRoute := Some Unmatched;
                    route := "+not-found";
                    contextKey := "./+not-found.tsx";
                    generated := true;
                    internal := true;
                    dynamic :=
                      Some [ {| name := "+not-found"; deep := true; notFound := Some true |} ];
                    children := [];
                    entryPoints := Some ["expo-router/build/views/Unmatched.js"] |}
            /\ nth_error (snd (beforeHoisting options t)) root = Some r0
            /\ notFound_
               = hoistView options (ownEntryPoints r0) (prefixOf r0.(route)) injected).
Proof.
  destruct Hview as [f [Hf Hfound]].
  destruct (getRoutes_null _ _ _ _ _ Hresult) as [t [Ht Hnull]].
  destruct (getDirectoryTree_root _ _ _ _ _ Ht) as [_ [_ [_ Hr]]].
  assert (Hroutes : t.(hasRoutes) = true).
  { rewrite Hr. apply existsb_exists. exists f. split; [assumption |].
    now rewrite Hfound. }
  destruct result as [[root h] |];
    [| destruct (proj1 Hnull eq_refl) as [_ Hno]; congruence].
  destruct (getRoutes_tree _ _ _ _ _ _ Hresult)
    as [t' [arr [n [r [Ht' [_ [_ [_ [_ [Hroot [_ [[nf [Hnf [Hnfr Hnfd]]] Hsm]]]]]]]]]]]].
  rewrite Ht in Ht'. inversion Ht'; subst t'.
  destruct Hsm as [sm [Hsm Hsmr]]; [now rewrite Hroutes |].
  destruct (JS.mapHas t.(directoryTree).(views) "+not-found") eqn:Hauthored.
  - exists root, h, r, sm, nf.
    split; [reflexivity |]. split; [assumption |]. split; [assumption |].
    split; [assumption |]. split; [assumption |]. split; [assumption |].
    split; [assumption |].
    intros t' Ht'' Hnone. rewrite Ht in Ht''. inversion Ht''; subst t'. congruence.
  - destruct (getRoutes_injected env fuel contextModule options t root h Ht Hresult Hauthored)
      as [node [r0 [r' [Hnew [Hslot [Hnode [Hr0 [Hr' Hclone]]]]]]]].
    rewrite Hroot in Hr'. inversion Hr'; subst r'.
    exists root, h, r, sm,
      (hoistView options (ownEntryPoints r0) (prefixOf r0.(route)) notFoundRoute).
    split; [reflexivity |]. split; [assumption |]. split; [assumption |].
    split; [assumption |]. split; [assumption |].
    assert (Hname : JS.replace "+not-found" (prefixOf r0.(route)) "" = "+not-found")
      by (apply root_view_route; reflexivity).
    split; [rewrite hoistView_route; exact Hname |].
    split; [rewrite hoistView_dynamic; cbn [route notFoundRoute]; rewrite Hname;
            apply generateDynamic_notFound |].
    intros t' Ht'' _. rewrite Ht in Ht''. inversion Ht''; subst t'.
    exists node, notFoundRoute, r0.
    split; [assumption |]. split; [assumption |]. split; [assumption |].
    split; [reflexivity |]. split; [assumption | reflexivity].
Qed.

Lemma synthetic_routes_present_witness :
  exists root h r sitemap_ notFound_ t node r0,
    getRoutes ios 1 ["./index.tsx"] defaultOptions = OK (Some (root, h))
    /\ nth_error h root = Some r
    /\ In (View sitemap_) r.(children)
    /\ sitemap_.(route) = "_sitemap"
    /\ In (View notFound_) r.(children)
    /\ notFound_.(route) = "+not-found"
    /\ getDirectoryTree ios 1 ["./index.tsx"] defaultOptions = OK t
    /\ nth_error (snd (beforeHoisting defaultOptions t)) node = Some notFoundRoute
    /\ nth_error (snd (beforeHoisting defaultOptions t)) root = Some r0
    /\ notFound_
       = hoistView defaultOptions (ownEntryPoints r0) (prefixOf r0.(route)) notFoundRoute.
Proof.
  destruct (getRoutes ios 1 ["./index.tsx"] defaultOptions) as [result | e] eqn:E;
    [| vm_compute in E; discriminate].
  destruct (getDirectoryTree ios 1 ["./index.tsx"] defaultOptions) as [t | e] eqn:Et;
    [| vm_compute in Et; discriminate].
  destruct (synthetic_routes_present matchers ios 1 ["./index.tsx"] defaultOptions result E)
    as [root [h [r [sm [nf [-> [Hr [Hsm [Hsmr [Hnf [Hnfr [_ Hinjected]]]]]]]]]]]].
  - exists "./index.tsx". split; [now left | reflexivity].
  - destruct (Hinjected t Et) as [node [injected [r0 [_ [_ [Hnode [-> [Hr0 Hclone]]]]]]]].
    { pose proof Et as Et'. vm_compute in Et'. injection Et' as <-. reflexivity. }
    exists root, h, r, sm, nf, t, node, r0. repeat split; assumption.
Defined.
